(** * Pesten: the card-game engine of [script.js]

    A shallow embedding of the classes [Card], [Deck], [Player] and [Game]
    and the properties of the rule engine and turn state machine.

    Conventions of the embedding.
    - A JavaScript value that is either a [Card] object or [undefined]/[null]
      is an [option Card.t]; [None] is the falsy case.
    - Array indices, [currentPlayerIndex] and [direction] are JavaScript
      numbers and are kept as [Z]; reading an array outside its bounds gives
      [undefined].
    - [Math.random()] reads the next entry [k] of a tape and stands for the
      double [k / 2^53] in [[0,1)]; an exhausted tape keeps answering [0].
    - A method of [Game] is a computation over the game object and the tape
      that either returns or throws a [TypeError] (a property read on
      [undefined]); the state reached at the throw is kept.
    - [render], [showTurnNotification] and [alert] only read the game and
      write to the page; they are left out.  Of the page only the winner
      text is kept.  [setTimeout(() => this.playAiTurn(), ...)] is recorded
      by counting the timers set; [playAiTurn] itself is a method like the
      others and may run at any time. *)

From Stdlib Require Import ZArith NArith.
From stdpp Require Import base list strings.

Local Open Scope Z_scope.

(** ** JavaScript arrays *)

(** [a[i]] for a number [i]. *)
Definition at_index {A} (l : list A) (i : Z) : option A :=
  if decide (0 ≤ i) then l !! Z.to_nat i else None.

(** The start position [a.splice(index, ...)] computes from [index]. *)
Definition splice_start {A} (l : list A) (index : Z) : nat :=
  let len := Z.of_nat (length l) in
  Z.to_nat (if decide (index < 0) then Z.max (len + index) 0 else Z.min index len).

(** [a.splice(index, 1)]: the removed elements and what is left of [a]. *)
Definition splice1 {A} (l : list A) (index : Z) : list A * list A :=
  let s := splice_start l index in
  (take 1 (drop s l), delete s l).

(** [a.pop()]: the last element ([undefined] on an empty array) and the rest. *)
Definition pop {A} (l : list (option A)) : option A * list (option A) :=
  (mjoin (last l), removelast l).
Global Arguments pop : simpl never.

(** [[a[i], a[j]] = [a[j], a[i]]].  [shuffle] calls it with [j <= i] and
    [i] below the length, so both positions hold an element. *)
Definition swap {A} (l : list A) (i j : nat) : list A :=
  match l !! i, l !! j with
  | Some x, Some y => <[j := x]> (<[i := y]> l)
  | _, _ => l
  end.

(** ** Randomness *)

Definition Tape := list N.

Definition RANDOM_DENOMINATOR : N := 2 ^ 53.

(** [Math.random()], as the numerator of a fraction over [2^53]. *)
Definition Math_random (t : Tape) : N * Tape :=
  match t with
  | [] => (0%N, [])
  | k :: t' => ((k mod RANDOM_DENOMINATOR)%N, t')
  end.

(** The nearest number with a significand of 53 bits, a number halfway
    between two of them going to the even significand: what a product of
    doubles is rounded to. *)
Definition round53 (p : N) : N :=
  let e := (N.log2 p - 52)%N in
  if decide (e = 0%N) then p
  else
    let q := (p / 2 ^ e)%N in
    let r := (p mod 2 ^ e)%N in
    let half := (2 ^ (e - 1))%N in
    ((if decide ((r < half)%N ∨ (r = half ∧ N.even q = true)) then q else q + 1)
     * 2 ^ e)%N.

(** [Math.floor(Math.random() * n)]: the product of the doubles [k / 2^53]
    and [n] is [k * n / 2^53] rounded to a double. *)
Definition random_floor (n : nat) (t : Tape) : nat * Tape :=
  let '(k, t') := Math_random t in
  (N.to_nat (round53 (k * N.of_nat n) / RANDOM_DENOMINATOR), t').

(** ** Cards *)

Module Card.

(** ['H'], ['S'], ['R'], ['K'] and the jokers' ['J']. *)
Inductive Suit := Hart | Schoppen | Ruit | Klaver | JokerSuit.

(** ['2'] .. ['10'], ['J'], ['Q'], ['K'], ['A'] and the jokers' ['X']. *)
Inductive Value :=
  V2 | V3 | V4 | V5 | V6 | V7 | V8 | V9 | V10 | VJ | VQ | VK | VA | VX.

Record t := make { suit : Suit; value : Value }.

#[global] Instance Suit_eq_dec : EqDecision Suit.
Proof. solve_decision. Defined.
#[global] Instance Value_eq_dec : EqDecision Value.
Proof. solve_decision. Defined.
#[global] Instance eq_dec : EqDecision t.
Proof. solve_decision. Defined.

End Card.

Abbreviation Slot := (option Card.t).

Definition SUITS : list Card.Suit :=
  [Card.Hart; Card.Schoppen; Card.Ruit; Card.Klaver].

Definition VALUES : list Card.Value :=
  [Card.V2; Card.V3; Card.V4; Card.V5; Card.V6; Card.V7; Card.V8; Card.V9;
   Card.V10; Card.VJ; Card.VQ; Card.VK; Card.VA].

(** The cards of an array, leaving out its [undefined] entries. *)
Definition defined (l : list Slot) : list Card.t := omap (λ c, c) l.

(** ** Deck *)

Module Deck.

(** The field [cards]. *)
Definition t := list Slot.

Definition reset : t :=
  (s ← SUITS; v ← VALUES; [Some (Card.make s v)])
  ++ [Some (Card.make Card.JokerSuit Card.VX);
      Some (Card.make Card.JokerSuit Card.VX)].

(** The loop of [shuffle], for [i] running down to [1]. *)
Fixpoint shuffle_from (i : nat) (cards : t) (tp : Tape) : t * Tape :=
  match i with
  | O => (cards, tp)
  | S i' =>
      let '(j, tp') := random_floor (i + 1) tp in
      shuffle_from i' (swap cards i j) tp'
  end.

Definition shuffle (cards : t) (tp : Tape) : t * Tape :=
  shuffle_from (length cards - 1) cards tp.

Definition draw (cards : t) : Slot * t := pop cards.

Definition addCards (new : list Slot) (cards : t) : t := cards ++ new.

Definition count (cards : t) : nat := length cards.

End Deck.

(** ** Player *)

Module Player.

Record t := make { id : Z; name : string; hand : list Card.t }.

Definition set_hand (h : list Card.t) (p : t) : t :=
  {| id := id p; name := name p; hand := h |}.

Definition receiveCard (card : Slot) (p : t) : t :=
  match card with
  | Some c => set_hand (hand p ++ [c]) p
  | None => p
  end.

Definition playCard (index : Z) (p : t) : Slot * t :=
  let '(removed, rest) := splice1 (hand p) index in
  (head removed, set_hand rest p).

Definition removeOneRandomCard (p : t) (tp : Tape) : Slot * t * Tape :=
  if decide (length (hand p) = 0%nat) then (None, p, tp)
  else
    let '(index, tp') := random_floor (length (hand p)) tp in
    let '(removed, rest) := splice1 (hand p) (Z.of_nat index) in
    (head removed, set_hand rest p, tp').

End Player.

(** ** Game *)

Module Game.

Record t := make {
  deck : Deck.t;
  players : list Player.t;
  discardPile : list Slot;
  currentPlayerIndex : Z;
  direction : Z;
  gameOver : bool;
  (** [ui.winnerText.textContent] *)
  winnerText : string;
  (** the number of [setTimeout(() => this.playAiTurn(), ...)] so far *)
  aiTimers : nat
}.

Definition set_deck (d : Deck.t) (g : t) : t :=
  make d (players g) (discardPile g) (currentPlayerIndex g) (direction g)
    (gameOver g) (winnerText g) (aiTimers g).
Definition set_players (ps : list Player.t) (g : t) : t :=
  make (deck g) ps (discardPile g) (currentPlayerIndex g) (direction g)
    (gameOver g) (winnerText g) (aiTimers g).
Definition set_discardPile (dp : list Slot) (g : t) : t :=
  make (deck g) (players g) dp (currentPlayerIndex g) (direction g)
    (gameOver g) (winnerText g) (aiTimers g).
Definition set_currentPlayerIndex (i : Z) (g : t) : t :=
  make (deck g) (players g) (discardPile g) i (direction g)
    (gameOver g) (winnerText g) (aiTimers g).
Definition set_direction (d : Z) (g : t) : t :=
  make (deck g) (players g) (discardPile g) (currentPlayerIndex g) d
    (gameOver g) (winnerText g) (aiTimers g).
Definition set_gameOver (b : bool) (g : t) : t :=
  make (deck g) (players g) (discardPile g) (currentPlayerIndex g)
    (direction g) b (winnerText g) (aiTimers g).
Definition set_winnerText (s : string) (g : t) : t :=
  make (deck g) (players g) (discardPile g) (currentPlayerIndex g)
    (direction g) (gameOver g) s (aiTimers g).
Definition set_aiTimers (n : nat) (g : t) : t :=
  make (deck g) (players g) (discardPile g) (currentPlayerIndex g)
    (direction g) (gameOver g) (winnerText g) n.

(** *** Computations on the game object *)

Inductive Outcome (A : Type) :=
| Return (a : A) (g : t) (tp : Tape)
| Thrown (g : t) (tp : Tape).
Arguments Return {A} a g tp.
Arguments Thrown {A} g tp.

Definition M (A : Type) := t → Tape → Outcome A.

Definition ret {A} (a : A) : M A := λ g tp, Return a g tp.
Definition throw {A} : M A := λ g tp, Thrown g tp.
Definition bind {A B} (m : M A) (k : A → M B) : M B :=
  λ g tp,
    match m g tp with
    | Return a g' tp' => k a g' tp'
    | Thrown g' tp' => Thrown g' tp'
    end.
Definition get : M t := λ g tp, Return g g tp.
Definition modify (f : t → t) : M unit := λ g tp, Return tt (f g) tp.

#[global] Instance M_ret : MRet M := @ret.
#[global] Instance M_bind : MBind M := λ A B k m, bind m k.

(** The state a computation ends in, however it ends. *)
Definition final {A} (o : Outcome A) : t :=
  match o with Return _ g _ => g | Thrown g _ => g end.

(** [this.players[i]] followed by a property read, which throws on
    [undefined]. *)
Definition playerAt (i : Z) : M Player.t :=
  g ← get;
  match at_index (players g) i with
  | Some p => ret p
  | None => throw
  end.

(** [this.players[i].receiveCard(card)], once [this.players[i]] is known
    to be a player. *)
Definition receiveAt (i : Z) (card : Slot) (g : t) : t :=
  set_players (alter (Player.receiveCard card) (Z.to_nat i) (players g)) g.

(** [this.deck.draw()]. *)
Definition deckDraw : M Slot :=
  g ← get;
  let '(card, rest) := Deck.draw (deck g) in
  modify (set_deck rest) ;;
  ret card.

(** [this.deck.shuffle()]. *)
Definition deckShuffle : M unit :=
  λ g tp, let '(d, tp') := Deck.shuffle (deck g) tp in Return tt (set_deck d g) tp'.

(** [setTimeout(() => this.playAiTurn(), ...)]. *)
Definition scheduleAiTurn : M unit :=
  modify (λ g, set_aiTimers (S (aiTimers g)) g).

(** One pass of [this.players.forEach(p => p.receiveCard(this.deck.draw()))]. *)
Fixpoint dealRound (ps : list Player.t) (d : Deck.t) : list Player.t * Deck.t :=
  match ps with
  | [] => ([], d)
  | p :: ps' =>
      let '(card, d') := Deck.draw d in
      let '(qs, d'') := dealRound ps' d' in
      (Player.receiveCard card p :: qs, d'')
  end.

Fixpoint dealRounds (n : nat) (ps : list Player.t) (d : Deck.t)
  : list Player.t * Deck.t :=
  match n with
  | O => (ps, d)
  | S n' => let '(qs, d') := dealRound ps d in dealRounds n' qs d'
  end.

Definition init : M unit :=
  deckShuffle ;;
  modify (set_discardPile []) ;;
  modify (λ g, set_players (Player.set_hand [] <$> players g) g) ;;
  (λ g tp,
     let '(r, tp') := random_floor 4 tp in
     Return tt (set_currentPlayerIndex (Z.of_nat r) g) tp') ;;
  modify (λ g,
    let '(ps, d) := dealRounds 7 (players g) (deck g) in
    set_deck d (set_players ps g)) ;;
  card ← deckDraw;
  modify (λ g, set_discardPile (discardPile g ++ [card]) g) ;;
  g ← get;
  if decide (currentPlayerIndex g ≠ 0) then scheduleAiTurn else ret tt.

(** The four seats the constructor creates. *)
Definition seats : list Player.t :=
  [Player.make 0 "You" []; Player.make 1 "Player 1" [];
   Player.make 2 "Player 2" []; Player.make 3 "Player 3" []].

(** [new Game()]: the fields the constructor sets (the winner text of the
    page starts empty), then [init()]. *)
Definition constructed : t := make Deck.reset seats [] 0 1 false "" 0.

Definition new (tp : Tape) : Outcome unit := init constructed tp.

Definition getTopCard (g : t) : Slot := mjoin (last (discardPile g)).

Definition handleWin (winnerIndex : Z) : M unit :=
  modify (set_gameOver true) ;;
  winner ← playerAt winnerIndex;
  modify (set_winnerText (Player.name winner +:+ " Heeft Gewonnen!")).

(** The two statements shared by [nextTurn] and [advancePointer]. *)
Definition wrap (i : Z) : Z :=
  let i := if decide (i >= 4) then 0 else i in
  if decide (i < 0) then 3 else i.

Definition advancePointer : M unit :=
  modify (λ g, set_currentPlayerIndex (wrap (currentPlayerIndex g + direction g)) g).

Definition nextTurn : M unit :=
  g ← get;
  if gameOver g then ret tt
  else
    current ← playerAt (currentPlayerIndex g);
    if decide (length (Player.hand current) = 0%nat)
    then handleWin (currentPlayerIndex g)
    else
      modify (λ g, set_currentPlayerIndex (wrap (currentPlayerIndex g + direction g)) g) ;;
      g ← get;
      if decide (currentPlayerIndex g ≠ 0) then scheduleAiTurn else ret tt.

Definition isValidMove (card : Slot) : M bool :=
  g ← get;
  match getTopCard g with
  | None => throw
  | Some top =>
      if decide (Card.value top = Card.VX ∨ Card.value top = Card.VJ) then ret true
      else
        match card with
        | None => throw
        | Some c =>
            if decide (Card.value c = Card.VX ∨ Card.value c = Card.VJ) then ret true
            else if decide (Card.value c = Card.value top) then ret true
            else if decide (Card.suit c = Card.suit top) then ret true
            else ret false
        end
  end.

Definition recycleDeck : M unit :=
  g ← get;
  if decide (length (discardPile g) ≤ 1)%nat then ret tt
  else
    let '(top, oldCards) := pop (discardPile g) in
    modify (set_discardPile [top]) ;;
    modify (λ g, set_deck (Deck.addCards oldCards (deck g)) g) ;;
    deckShuffle.

(** The loop of [forceDraw]. *)
Fixpoint forceDrawLoop (victimIndex : Z) (amount : nat) : M unit :=
  match amount with
  | O => ret tt
  | S amount' =>
      g ← get;
      (if decide (Deck.count (deck g) = 0%nat) then recycleDeck else ret tt) ;;
      playerAt victimIndex ;;
      card ← deckDraw;
      modify (receiveAt victimIndex card) ;;
      forceDrawLoop victimIndex amount'
  end.

Definition forceDraw (amount : nat) : M unit :=
  g ← get;
  forceDrawLoop (currentPlayerIndex g) amount.

(** The first loop of [handlePassCardRule]:
    [this.players.forEach(p => passedCards.push(p.removeOneRandomCard()))]. *)
Fixpoint collectPassed (ps : list Player.t) (tp : Tape)
  : list Slot * list Player.t * Tape :=
  match ps with
  | [] => ([], [], tp)
  | p :: ps' =>
      let '(card, q, tp1) := Player.removeOneRandomCard p tp in
      let '(cards, qs, tp2) := collectPassed ps' tp1 in
      (card :: cards, q :: qs, tp2)
  end.

(** [nextIndex] of the second loop. *)
Definition nextIndex (count : nat) (i : nat) (direction : Z) : Z :=
  let n := Z.of_nat i + direction in
  let n := if decide (n >= Z.of_nat count) then 0 else n in
  if decide (n < 0) then Z.of_nat count - 1 else n.

(** The second loop, for [i] and the cards not handed over yet. *)
Fixpoint handOver (count : nat) (direction : Z) (i : nat)
    (passedCards : list Slot) (ps : list Player.t) : list Player.t :=
  match passedCards with
  | [] => ps
  | card :: rest =>
      let ps' :=
        match card with
        | Some _ =>
            alter (Player.receiveCard card)
              (Z.to_nat (nextIndex count i direction)) ps
        | None => ps
        end in
      handOver count direction (S i) rest ps'
  end.

Definition handlePassCardRule : M unit :=
  λ g tp,
    let '(passedCards, ps, tp') := collectPassed (players g) tp in
    let count := length ps in
    Return tt (set_players (handOver count (direction g) 0 passedCards ps) g) tp'.

(** The [switch] of [handleCardPlay] up to the [nextTurn()] after it; the
    result tells whether the King's early [return] was taken. *)
Definition applyEffect (playerIndex : Z) (v : Card.Value) : M bool :=
  match v with
  | Card.V2 => advancePointer ;; forceDraw 2 ;; ret false
  | Card.VX => advancePointer ;; forceDraw 5 ;; ret false
  | Card.V8 => advancePointer ;; ret false
  | Card.VA => modify (λ g, set_direction (direction g * -1) g) ;; ret false
  | Card.V10 => handlePassCardRule ;; ret false
  | Card.VK =>
      (if decide (playerIndex ≠ 0) then scheduleAiTurn else ret tt) ;;
      ret true
  | _ => ret false
  end.

(** The body of the [async] method; [Thrown] is the rejected promise. *)
Definition handleCardPlay (playerIndex cardIndex : Z) : M (option bool) :=
  g ← get;
  if gameOver g then ret None
  else
    player ← playerAt playerIndex;
    let card := at_index (Player.hand player) cardIndex in
    valid ← isValidMove card;
    if negb valid then ret (Some false)
    else
      modify (λ g,
        set_players
          (alter (λ p, (Player.playCard cardIndex p).2)
             (Z.to_nat playerIndex) (players g)) g) ;;
      modify (λ g, set_discardPile (discardPile g ++ [card]) g) ;;
      player ← playerAt playerIndex;
      if decide (length (Player.hand player) = 0%nat)
      then handleWin playerIndex ;; ret (Some true)
      else
        match card with
        | None => throw
        | Some c =>
            early ← applyEffect playerIndex (Card.value c);
            if early : bool then ret (Some true)
            else nextTurn ;; ret (Some true)
        end.

Definition executeDraw (playerIndex : Z) : M unit :=
  g ← get;
  (if decide (Deck.count (deck g) = 0%nat) then recycleDeck else ret tt) ;;
  card ← deckDraw;
  playerAt playerIndex ;;
  modify (receiveAt playerIndex card) ;;
  nextTurn.

Definition handleDrawCard : M unit :=
  g ← get;
  if decide (currentPlayerIndex g ≠ 0) then ret tt
  else executeDraw (currentPlayerIndex g).

(** [ai.hand.findIndex(c => this.isValidMove(c))], from position [i]. *)
Fixpoint findValidIndex (hand : list Card.t) (i : Z) : M Z :=
  match hand with
  | [] => ret (-1)
  | c :: rest =>
      valid ← isValidMove (Some c);
      if valid : bool then ret i else findValidIndex rest (i + 1)
  end.

(** A call of the [async] [handleCardPlay] whose promise is dropped: a
    rejection does not reach the caller. *)
Definition detached {A} (m : M A) : M unit :=
  λ g tp,
    match m g tp with
    | Return _ g' tp' => Return tt g' tp'
    | Thrown g' tp' => Return tt g' tp'
    end.

Definition playAiTurn : M unit :=
  g ← get;
  if gameOver g then ret tt
  else
    ai ← playerAt (currentPlayerIndex g);
    validCardIndex ← findValidIndex (Player.hand ai) 0;
    if decide (validCardIndex ≠ -1)
    then detached (handleCardPlay (currentPlayerIndex g) validCardIndex)
    else executeDraw (currentPlayerIndex g).

End Game.

(** * Vocabulary of the properties *)

Import Game.

(** The disjunction of the four clauses of the move rule. *)
Definition opens (c : Card.t) : Prop :=
  Card.value c = Card.VX ∨ Card.value c = Card.VJ.

Definition matches (top card : Card.t) : Prop :=
  opens top ∨ opens card ∨ Card.value card = Card.value top
  ∨ Card.suit card = Card.suit top.

#[global] Instance opens_dec c : Decision (opens c).
Proof. unfold opens. apply _. Defined.
#[global] Instance matches_dec top card : Decision (matches top card).
Proof. unfold matches. apply _. Defined.

(** The deal of [new Game()] on the tape that leaves the deck in its base
    order up to the swaps with position 0 and starts with seat 1. *)
Definition seat1_starts : t :=
  final (new (replicate 53 0%N ++ [2 ^ 51]%N)).


(** The cards a value stands for: one for a card, none for [undefined]. *)
Definition slot_cards (s : Slot) : list Card.t := option_list s.

(** All the cards held in the hands, seat by seat. *)
Definition hands (ps : list Player.t) : list Card.t := ps ≫= Player.hand.

(** All the cards of a game: deck, discard pile and hands. *)
Definition cards (g : t) : list Card.t :=
  defined (deck g) ++ defined (discardPile g) ++ hands (players g).

(** The 54 cards [Deck.reset] builds. *)
Definition UNIVERSE : list Card.t := defined Deck.reset.

(** A computation returns, in a state and with a result that satisfy [Q]. *)
Definition returns {A} (m : M A) (g : t) (tp : Tape) (Q : A → t → Prop) : Prop :=
  ∃ a g' tp', m g tp = Return a g' tp' ∧ Q a g'.

(** The state after the pointer has moved one seat on and the AI turn of
    the new seat, if it is not seat 0, has been scheduled. *)
Definition turn_passed (g : t) : t :=
  let next := wrap (currentPlayerIndex g + direction g) in
  set_aiTimers (if decide (next ≠ 0) then S (aiTimers g) else aiTimers g)
    (set_currentPlayerIndex next g).

(** The state after [handleWin] for a seat that holds [winner]. *)
Definition won (winner : Player.t) (g : t) : t :=
  set_winnerText (Player.name winner +:+ " Heeft Gewonnen!") (set_gameOver true g).

(** ** Reachable states *)

(** The methods of [Game] that act on a game in progress. *)
Inductive Call :=
| HandleCardPlay (playerIndex cardIndex : Z)
| HandleDrawCard
| ExecuteDraw (playerIndex : Z)
| PlayAiTurn
| ForceDraw (amount : nat)
| HandlePassCardRule
| RecycleDeck
| NextTurn
| AdvancePointer.

(** The game a call leaves behind, whether it returns or throws. *)
Definition perform (c : Call) (g : t) (tp : Tape) : t :=
  match c with
  | HandleCardPlay p i => final (handleCardPlay p i g tp)
  | HandleDrawCard => final (handleDrawCard g tp)
  | ExecuteDraw p => final (executeDraw p g tp)
  | PlayAiTurn => final (playAiTurn g tp)
  | ForceDraw amount => final (forceDraw amount g tp)
  | HandlePassCardRule => final (handlePassCardRule g tp)
  | RecycleDeck => final (recycleDeck g tp)
  | NextTurn => final (nextTurn g tp)
  | AdvancePointer => final (advancePointer g tp)
  end.

(** The arguments the callers pass: a play names a card of a seat's hand, a
    draw names a seat. *)
Definition well_formed_call (g : t) (c : Call) : bool :=
  match c with
  | HandleCardPlay p i =>
      match at_index (players g) p with
      | Some player => bool_decide (0 ≤ i < Z.of_nat (length (Player.hand player)))
      | None => false
      end
  | ExecuteDraw p => bool_decide (0 ≤ p < 4)
  | _ => true
  end.

Inductive reachable : t → Prop :=
| reachable_new tp : reachable (final (new tp))
| reachable_step g c tp :
    reachable g → well_formed_call g c = true → reachable (perform c g tp).

(** A sequence of calls, each on an exhausted tape. *)
Fixpoint replay (cs : list Call) (g : t) : t :=
  match cs with
  | [] => g
  | c :: cs' => replay cs' (perform c g [])
  end.

Fixpoint replayable (cs : list Call) (g : t) : bool :=
  match cs with
  | [] => true
  | c :: cs' => well_formed_call g c && replayable cs' (perform c g [])
  end.

(** What every reachable state satisfies. *)
Record table_ok (g : t) : Prop := {
  ok_seats : length (players g) = 4%nat;
  ok_pointer : 0 ≤ currentPlayerIndex g < 4;
  ok_direction : direction g = 1 ∨ direction g = -1;
  ok_piles : Forall is_Some (deck g ++ discardPile g);
  ok_top : discardPile g ≠ [];
  ok_cards : cards g ≡ₚ UNIVERSE
}.

(** No seat has run out of cards. *)
Definition all_holding (ps : list Player.t) : Prop :=
  Forall (λ p, Player.hand p ≠ []) ps.

(** While the game is on, every seat holds a card. *)
Definition live_ok (g : t) : Prop :=
  gameOver g = false → all_holding (players g).

(** A step that keeps the table in order, the game as over as it was, and
    every seat that held a card holding one. *)
Definition keeps (g g' : t) : Prop :=
  table_ok g' ∧ gameOver g' = gameOver g
  ∧ (all_holding (players g) → all_holding (players g')).

(** The pointer, the direction, the winner text and the timers agree. *)
Definition same_turn (g g' : t) : Prop :=
  currentPlayerIndex g' = currentPlayerIndex g ∧ direction g' = direction g
  ∧ winnerText g' = winnerText g ∧ aiTimers g' = aiTimers g.

(** The cards draws can still get: the deck and, after a recycling, the
    discard pile without its top. *)
Definition stock (g : t) : nat :=
  (length (deck g) + (length (discardPile g) - 1))%nat.

(** Seat [p] once it has given up the card at position [k] of its hand and
    has been handed the card at position [kq] of [q]'s hand; a position
    outside a hand stands for no card. *)
Definition passed_on (p : Player.t) (k : nat) (q : Player.t) (kq : nat) : Player.t :=
  Player.set_hand
    (delete k (Player.hand p) ++ option_list (Player.hand q !! kq)) p.

(** The random source as seat [i] finds it in the first loop of
    [handlePassCardRule]: [removeOneRandomCard] has taken one number for
    every seat before it that held cards. *)
Definition seat_tape (ps : list Player.t) (i : nat) (tp : Tape) : Tape :=
  drop (length (filter (λ q, Player.hand q ≠ []) (take i ps))) tp.

(** The game once the card [c] at position [i] of the hand of [player], who
    sits at [playerIndex], has gone to the discard pile. *)
Definition played (playerIndex : Z) (i : nat) (player : Player.t) (c : Card.t)
    (g : t) : t :=
  set_discardPile (discardPile g ++ [Some c])
    (set_players
       (<[Z.to_nat playerIndex :=
            Player.set_hand (delete i (Player.hand player)) player]> (players g))
       g).

(** [n] draws in a row, each by the seat whose turn it is when seat 0
    starts and the direction is clockwise. *)
Definition everyone_draws (n : nat) : list Call :=
  (λ k : nat, ExecuteDraw (Z.of_nat k mod 4)) <$> seq 0 n.

(** The deal of [new Game()] on the exhausted tape (seat 0 starts), after
    the four seats have drawn the 25 cards of the deck between them. *)
Definition deck_drawn_out : t := replay (everyone_draws 25) (final (new [])).

(** The same deal with seat 1 starting, after seat 1 has played its Joker
    on the first card and the 20 cards left in the deck have been drawn. *)
Definition deck_drawn_after_play : t :=
  replay (PlayAiTurn :: ((λ k : nat, ExecuteDraw (Z.of_nat (k + 3) mod 4)) <$> seq 0 20))
    seat1_starts.

(** A whole game on the deal of the exhausted tape: seat 0 starts and plays
    the first card of its hand that is legal, the other seats take their AI
    turns, and seat 0 plays its last card, a King, on its own turn. *)
Definition seat0_game : list Call :=
  [HandleCardPlay 0 0; PlayAiTurn; HandleCardPlay 0 0; HandleCardPlay 0 0;
   PlayAiTurn; PlayAiTurn; PlayAiTurn; PlayAiTurn; HandleCardPlay 0 0;
   PlayAiTurn; PlayAiTurn; PlayAiTurn; HandleCardPlay 0 2; PlayAiTurn;
   HandleCardPlay 0 0; PlayAiTurn; PlayAiTurn; PlayAiTurn; HandleCardPlay 0 0].

Definition seat0_has_won : t := replay seat0_game (final (new [])).

(** * Further vocabulary *)

(** The method a call stands for; the value [handleCardPlay] resolves to is
    dropped. *)
Definition call (c : Call) : M unit :=
  match c with
  | HandleCardPlay p i => handleCardPlay p i ;; ret tt
  | HandleDrawCard => handleDrawCard
  | ExecuteDraw p => executeDraw p
  | PlayAiTurn => playAiTurn
  | ForceDraw amount => forceDraw amount
  | HandlePassCardRule => handlePassCardRule
  | RecycleDeck => recycleDeck
  | NextTurn => nextTurn
  | AdvancePointer => advancePointer
  end.

(** The computation returned; nothing was thrown. *)
Definition completes {A} (o : Outcome A) : Prop :=
  match o with Return _ _ _ => True | Thrown _ _ => False end.

(** The seat to move plays the card [c] at position [cardIndex] of its
    hand, in a reachable game that is not over; the card is accepted by
    [isValidMove] and is not the last of the hand. *)
Definition current_seat_plays (g : t) (tp : Tape) (cardIndex : Z)
    (player : Player.t) (c : Card.t) : Prop :=
  reachable g
  ∧ gameOver g = false
  ∧ at_index (players g) (currentPlayerIndex g) = Some player
  ∧ at_index (Player.hand player) cardIndex = Some c
  ∧ isValidMove (Some c) g tp = Return true g tp
  ∧ (1 < length (Player.hand player))%nat.

(** Two games with the same deck, the same discard pile and the same hands. *)
Definition same_cards (g g' : t) : Prop :=
  deck g' = deck g ∧ discardPile g' = discardPile g ∧ players g' = players g.

(** The game before the [n]-th call of [seat0_game]. *)
Definition seat0_game_before (n : nat) : t := replay (take n seat0_game) (final (new [])).

(** ** The names of the cards *)

(** The strings the fields [suit] and [value] of a card hold. *)
Definition suit_text (s : Card.Suit) : string :=
  match s with
  | Card.Hart => "H" | Card.Schoppen => "S" | Card.Ruit => "R"
  | Card.Klaver => "K" | Card.JokerSuit => "J"
  end.

Definition value_text (v : Card.Value) : string :=
  match v with
  | Card.V2 => "2" | Card.V3 => "3" | Card.V4 => "4" | Card.V5 => "5"
  | Card.V6 => "6" | Card.V7 => "7" | Card.V8 => "8" | Card.V9 => "9"
  | Card.V10 => "10" | Card.VJ => "J" | Card.VQ => "Q" | Card.VK => "K"
  | Card.VA => "A" | Card.VX => "X"
  end.

Definition getImageName (c : Card.t) : string :=
  if decide (Card.value c = Card.VX) then "XX.svg"
  else suit_text (Card.suit c) +:+ value_text (Card.value c) +:+ ".svg".

Definition getColor (c : Card.t) : string :=
  if decide (Card.value c = Card.VX) then "Joker"
  else if decide (Card.suit c = Card.Hart ∨ Card.suit c = Card.Ruit) then "red"
  else "black".

Definition toString (c : Card.t) : string :=
  suit_text (Card.suit c) +:+ value_text (Card.value c).
(** * Properties *)

(** ** Running a computation *)

Lemma bind_Return {A B} (m : M A) (k : A → M B) g tp a g' tp' :
  m g tp = Return a g' tp' → (m ≫= k) g tp = k a g' tp'.
Proof. intros H. unfold mbind, M_bind, bind. by rewrite H. Qed.

Lemma bind_Thrown {A B} (m : M A) (k : A → M B) g tp g' tp' :
  m g tp = Thrown g' tp' → (m ≫= k) g tp = Thrown g' tp'.
Proof. intros H. unfold mbind, M_bind, bind. by rewrite H. Qed.

Lemma bind_get {A} (k : t → M A) g tp : (get ≫= k) g tp = k g g tp.
Proof. reflexivity. Qed.

Lemma bind_modify {A} (f : t → t) (k : unit → M A) g tp :
  (modify f ≫= k) g tp = k tt (f g) tp.
Proof. reflexivity. Qed.

Lemma bind_ret {A B} (a : A) (k : A → M B) g tp : (ret a ≫= k) g tp = k a g tp.
Proof. reflexivity. Qed.

Lemma playerAt_Some i p g tp :
  at_index (players g) i = Some p → playerAt i g tp = Return p g tp.
Proof. intros H. unfold playerAt. rewrite bind_get, H. reflexivity. Qed.

Lemma playerAt_None i g tp :
  at_index (players g) i = None → playerAt i g tp = Thrown g tp.
Proof. intros H. unfold playerAt. rewrite bind_get, H. reflexivity. Qed.

(** ** The rule evaluator *)

Lemma isValidMove_defined g tp top card :
  getTopCard g = Some top →
  isValidMove (Some card) g tp = Return (bool_decide (matches top card)) g tp.
Proof.
  intros Htop. unfold isValidMove. rewrite bind_get, Htop.
  unfold matches, opens.
  repeat case_decide; unfold ret;
    first [ by rewrite bool_decide_eq_true_2 by tauto
          | by rewrite bool_decide_eq_false_2 by tauto ].
Qed.

(** C2. For every top card and every candidate card, [isValidMove] returns,
    leaves the game as it was, and answers [true] exactly when the top is a
    Joker or Jack, or the candidate is a Joker or Jack, or the two values are
    equal, or the two suits are equal.  In particular every candidate is
    valid on a Joker or Jack, and a Joker or Jack is valid on every top. *)
Theorem isValidMove_iff_disjunction g tp top card :
  getTopCard g = Some top →
  ∃ b, isValidMove (Some card) g tp = Return b g tp
       ∧ (b = true ↔
            (Card.value top = Card.VX ∨ Card.value top = Card.VJ)
            ∨ (Card.value card = Card.VX ∨ Card.value card = Card.VJ)
            ∨ Card.value card = Card.value top
            ∨ Card.suit card = Card.suit top)
       ∧ (Card.value top = Card.VX ∨ Card.value top = Card.VJ → b = true)
       ∧ (Card.value card = Card.VX ∨ Card.value card = Card.VJ → b = true).
Proof.
  intros Htop. exists (bool_decide (matches top card)).
  split; [by apply isValidMove_defined|].
  rewrite bool_decide_eq_true. unfold matches, opens. tauto.
Qed.

Lemma isValidMove_iff_disjunction_witness :
  let g := make [] seats [Some (Card.make Card.Ruit Card.V7)] 0 1 false "" 0 in
  ∃ b, isValidMove (Some (Card.make Card.Klaver Card.V7)) g [] = Return b g []
       ∧ b = true.
Proof.
  intros g.
  destruct (isValidMove_iff_disjunction g [] (Card.make Card.Ruit Card.V7)
              (Card.make Card.Klaver Card.V7) eq_refl) as (b & Hrun & Hb & _).
  exists b. split; [exact Hrun|]. apply Hb. right. right. left. reflexivity.
Defined.

(** ** Arrays *)

Lemma at_index_Some {A} (l : list A) i x :
  at_index l i = Some x ↔ 0 ≤ i ∧ l !! Z.to_nat i = Some x.
Proof. unfold at_index. case_decide; [tauto|]. split; [done|]. intros []. lia. Qed.

Lemma at_index_of_nat {A} (l : list A) (n : nat) :
  at_index l (Z.of_nat n) = l !! n.
Proof. unfold at_index. rewrite decide_True by lia. by rewrite Nat2Z.id. Qed.

Lemma at_index_alter {A} (f : A → A) (l : list A) i :
  at_index (alter f (Z.to_nat i) l) i = f <$> at_index l i.
Proof.
  unfold at_index. case_decide; [|done]. apply list_lookup_alter_eq.
Qed.

Lemma alter_insert {A} (f : A → A) (l : list A) i x :
  l !! i = Some x → alter f i l = <[i := f x]> l.
Proof.
  intros H. apply list_eq. intros j. destruct (decide (i = j)) as [->|Hne].
  - rewrite list_lookup_alter_eq, H.
    by rewrite list_lookup_insert_eq by (by eapply lookup_lt_Some).
  - by rewrite list_lookup_alter_ne, list_lookup_insert_ne.
Qed.

Lemma splice1_in_range {A} (l : list A) (n : nat) x :
  l !! n = Some x → splice1 l (Z.of_nat n) = ([x], delete n l).
Proof.
  intros H. pose proof (lookup_lt_Some _ _ _ H) as Hlt.
  unfold splice1, splice_start. rewrite decide_False by lia.
  rewrite Z.min_l by lia. rewrite Nat2Z.id.
  f_equal. rewrite (drop_S _ _ _ H). reflexivity.
Qed.

(** ** Winning *)

Lemma handleWin_Some w p g tp :
  at_index (players g) w = Some p →
  handleWin w g tp =
    Return tt (set_winnerText (Player.name p +:+ " Heeft Gewonnen!")
                 (set_gameOver true g)) tp.
Proof.
  intros H. unfold handleWin. rewrite bind_modify.
  rewrite (bind_Return _ _ _ _ p (set_gameOver true g) tp)
    by (by apply playerAt_Some).
  reflexivity.
Qed.

(** C3. A play of the acting seat's last card ends the game for that seat
    right after the card reaches the discard pile and before the switch on
    the card's value: whatever the value of the card (a 2, 8, 10, Ace or
    Joker included), the pointer, the direction, the deck and every other
    hand are as before the play. *)
Theorem winning_play_applies_no_effect g tp playerIndex player c :
  gameOver g = false →
  at_index (players g) playerIndex = Some player →
  Player.hand player = [c] →
  isValidMove (Some c) g tp = Return true g tp →
  handleCardPlay playerIndex 0 g tp =
    Return (Some true)
      (make (deck g)
         (<[Z.to_nat playerIndex := Player.set_hand [] player]> (players g))
         (discardPile g ++ [Some c])
         (currentPlayerIndex g) (direction g)
         true (Player.name player +:+ " Heeft Gewonnen!") (aiTimers g))
      tp.
Proof.
  intros Hlive Hplayer Hhand Hvalid.
  apply at_index_Some in Hplayer as Hp. destruct Hp as [Hpos Hlook].
  unfold handleCardPlay. rewrite bind_get, Hlive.
  rewrite (bind_Return _ _ _ _ _ _ _ (playerAt_Some _ _ _ _ Hplayer)).
  rewrite Hhand. change (at_index [c] 0) with (Some c).
  rewrite (bind_Return _ _ _ _ _ _ _ Hvalid). cbn [negb].
  rewrite !bind_modify.
  rewrite (alter_insert _ _ _ _ Hlook).
  assert ((Player.playCard 0 player).2 = Player.set_hand [] player) as ->.
  { unfold Player.playCard. rewrite Hhand. reflexivity. }
  set (ps := <[Z.to_nat playerIndex := Player.set_hand [] player]> (players g)).
  set (g1 := set_discardPile _ _).
  assert (at_index (players g1) playerIndex = Some (Player.set_hand [] player))
    as Hplayer1.
  { apply at_index_Some. split; [done|]. subst g1 ps. simpl.
    apply list_lookup_insert_eq. by eapply lookup_lt_Some. }
  rewrite (bind_Return _ _ _ _ _ _ _ (playerAt_Some _ _ _ _ Hplayer1)).
  simpl. rewrite (bind_Return _ _ _ _ _ _ _ (handleWin_Some _ _ _ _ Hplayer1)).
  reflexivity.
Qed.

Lemma winning_play_applies_no_effect_witness :
  let joker := Card.make Card.JokerSuit Card.VX in
  let g :=
    make [Some (Card.make Card.Hart Card.V3)]
      [Player.make 0 "You" [joker];
       Player.make 1 "Player 1" [Card.make Card.Hart Card.V4];
       Player.make 2 "Player 2" [Card.make Card.Hart Card.V5];
       Player.make 3 "Player 3" [Card.make Card.Hart Card.V6]]
      [Some (Card.make Card.Ruit Card.V7)] 0 1 false "" 0 in
  ∃ g', handleCardPlay 0 0 g [] = Return (Some true) g' []
        ∧ gameOver g' = true
        ∧ currentPlayerIndex g' = 0
        ∧ deck g' = deck g
        ∧ Player.hand <$> players g' = [] :: (Player.hand <$> drop 1 (players g)).
Proof.
  intros joker g. eexists. split.
  - apply (winning_play_applies_no_effect g [] 0
             (Player.make 0 "You" [joker]) joker); reflexivity.
  - repeat split; reflexivity.
Defined.

(** ** Refused plays *)

Lemma handleCardPlay_over g tp playerIndex cardIndex :
  gameOver g = true →
  handleCardPlay playerIndex cardIndex g tp = Return None g tp.
Proof. intros H. unfold handleCardPlay. rewrite bind_get, H. reflexivity. Qed.

Lemma isValidMove_undefined g tp top :
  getTopCard g = Some top → ¬ opens top →
  isValidMove None g tp = Thrown g tp.
Proof.
  intros Htop Hopen. unfold isValidMove. rewrite bind_get, Htop.
  rewrite decide_False by exact Hopen. reflexivity.
Qed.

Lemma handleCardPlay_rejected g tp playerIndex cardIndex player top c :
  gameOver g = false →
  at_index (players g) playerIndex = Some player →
  getTopCard g = Some top →
  at_index (Player.hand player) cardIndex = Some c →
  ¬ matches top c →
  handleCardPlay playerIndex cardIndex g tp = Return (Some false) g tp.
Proof.
  intros Hlive Hplayer Htop Hc Hno. unfold handleCardPlay.
  rewrite bind_get, Hlive.
  rewrite (bind_Return _ _ _ _ _ _ _ (playerAt_Some _ _ _ _ Hplayer)).
  rewrite Hc.
  rewrite (bind_Return _ _ _ _ _ _ _ (isValidMove_defined _ _ _ c Htop)).
  rewrite bool_decide_eq_false_2 by exact Hno. reflexivity.
Qed.

Lemma handleCardPlay_no_card g tp playerIndex cardIndex player top :
  gameOver g = false →
  at_index (players g) playerIndex = Some player →
  getTopCard g = Some top →
  at_index (Player.hand player) cardIndex = None →
  ¬ opens top →
  handleCardPlay playerIndex cardIndex g tp = Thrown g tp.
Proof.
  intros Hlive Hplayer Htop Hc Hno. unfold handleCardPlay.
  rewrite bind_get, Hlive.
  rewrite (bind_Return _ _ _ _ _ _ _ (playerAt_Some _ _ _ _ Hplayer)).
  rewrite Hc.
  by rewrite (bind_Thrown _ _ _ _ _ _ (isValidMove_undefined _ _ _ Htop Hno)).
Qed.

(** The refusals of a play.  While the game is not over and whichever seat
    is named: a card at an index of the hand that [isValidMove] rejects
    against the discard top makes the play answer [false] and leaves the
    whole game as it was; an index outside the hand, on a top that is
    neither Joker nor Jack, makes the call throw with the game as it was. *)
Lemma rejected_play_leaves_game_unchanged g tp playerIndex cardIndex player top :
  gameOver g = false →
  at_index (players g) playerIndex = Some player →
  getTopCard g = Some top →
  (∀ c, at_index (Player.hand player) cardIndex = Some c →
        ¬ matches top c →
        handleCardPlay playerIndex cardIndex g tp = Return (Some false) g tp)
  ∧ (at_index (Player.hand player) cardIndex = None →
     ¬ opens top →
     handleCardPlay playerIndex cardIndex g tp = Thrown g tp).
Proof.
  intros Hlive Hplayer Htop. split.
  - intros c Hc Hno. by eapply handleCardPlay_rejected.
  - intros Hc Hno. by eapply handleCardPlay_no_card.
Qed.

Lemma rejected_play_leaves_game_unchanged_witness :
  handleCardPlay 0 1 seat1_starts [] = Return (Some false) seat1_starts []
  ∧ handleCardPlay 0 7 seat1_starts [] = Thrown seat1_starts [].
Proof.
  pose proof (rejected_play_leaves_game_unchanged seat1_starts [] 0 1
                (Player.make 0 "You"
                   [Card.make Card.Hart Card.V2; Card.make Card.Klaver Card.VK;
                    Card.make Card.Klaver Card.V9; Card.make Card.Klaver Card.V5;
                    Card.make Card.Ruit Card.VA; Card.make Card.Ruit Card.V10;
                    Card.make Card.Ruit Card.V6])
                (Card.make Card.Ruit Card.V2) eq_refl eq_refl eq_refl) as [H1 _].
  pose proof (rejected_play_leaves_game_unchanged seat1_starts [] 0 7
                (Player.make 0 "You"
                   [Card.make Card.Hart Card.V2; Card.make Card.Klaver Card.VK;
                    Card.make Card.Klaver Card.V9; Card.make Card.Klaver Card.V5;
                    Card.make Card.Ruit Card.VA; Card.make Card.Ruit Card.V10;
                    Card.make Card.Ruit Card.V6])
                (Card.make Card.Ruit Card.V2) eq_refl eq_refl eq_refl) as [_ H2].
  split.
  - apply (H1 (Card.make Card.Klaver Card.VK)); [reflexivity|].
    vm_compute. intros [[?|?]|[[?|?]|[?|?]]]; discriminate.
  - apply H2; [reflexivity|]. vm_compute. intros [?|?]; discriminate.
Defined.

(** C4 fails on the code.  [handleCardPlay] never tests whose turn it is,
    while its sibling [handleDrawCard] returns at once unless seat 0 is to
    move, and the page calls [handleCardPlay(0, i)] for every card of seat 0
    whatever the turn.  On the deal [seat1_starts] of [new Game()], with seat
    1 to move, a click on the deck changes nothing, but the play of seat 0's
    first card, the 2 of hearts on the 2 of diamonds, is accepted: the card
    is discarded, seat 2 draws two cards and the turn moves to seat 3. *)
Theorem out_of_turn_play_is_accepted :
  reachable seat1_starts
  ∧ gameOver seat1_starts = false
  ∧ currentPlayerIndex seat1_starts = 1
  ∧ handleDrawCard seat1_starts [] = Return tt seat1_starts []
  ∧ ∃ g', handleCardPlay 0 0 seat1_starts [] = Return (Some true) g' []
          ∧ discardPile g' =
              discardPile seat1_starts ++ [Some (Card.make Card.Hart Card.V2)]
          ∧ (length ∘ Player.hand <$> players seat1_starts) = [7; 7; 7; 7]%nat
          ∧ (length ∘ Player.hand <$> players g') = [6; 7; 9; 7]%nat
          ∧ currentPlayerIndex g' = 3.
Proof.
  split; [apply reachable_new|]. split; [reflexivity|]. split; [reflexivity|].
  split; [vm_compute; reflexivity|].
  eexists. split; [vm_compute; reflexivity|]. repeat split; reflexivity.
Qed.

(** ** Randomness stays in range *)

Lemma round53_small p : (N.log2 p ≤ 52)%N → round53 p = p.
Proof. intros H. unfold round53. rewrite decide_True by lia. reflexivity. Qed.

(** Where the rounding takes place it moves the number by at most half a
    unit of the last kept bit, and not below the multiple of that unit
    under it. *)
Lemma round53_bounds p :
  let e := (N.log2 p - 52)%N in
  e ≠ 0%N →
  (2 ^ (e - 1) * 2 ^ 53 ≤ p
   ∧ p / 2 ^ e * 2 ^ e ≤ round53 p ≤ p + 2 ^ (e - 1)
   ∧ round53 p mod 2 ^ e = 0)%N.
Proof.
  intros e He. unfold round53. fold e. rewrite decide_False by done.
  assert (0 < p)%N as Hp.
  { destruct p; [|lia]. by subst e. }
  pose proof (N.log2_spec p Hp) as [Hlog _].
  assert (N.log2 p = (e - 1) + 53)%N as HL by (subst e; lia).
  rewrite HL, N.pow_add_r in Hlog.
  assert (2 ^ e = 2 * 2 ^ (e - 1))%N as Hpow.
  { rewrite <-N.pow_succ_r'. f_equal. lia. }
  pose proof (N.Div0.div_mod p (2 ^ e)%N) as Hdiv.
  pose proof (N.mod_lt p (2 ^ e)%N ltac:(by apply N.pow_nonzero)) as Hmod.
  rewrite N.Div0.mod_mul.
  set (q := (p / 2 ^ e)%N) in *. set (r := (p mod 2 ^ e)%N) in *.
  set (h := (2 ^ (e - 1))%N) in *. set (u := (2 ^ e)%N) in *.
  clearbody q r h u. split; [done|]. split; [|done].
  case_decide; nia.
Qed.

Lemma round53_lt k n :
  (k < 2 ^ 53)%N → (0 < n)%N → (round53 (k * n) < n * 2 ^ 53)%N.
Proof.
  intros Hk Hn.
  destruct (decide (N.log2 (k * n) - 52 = 0)%N) as [He|He].
  - rewrite round53_small by lia. nia.
  - destruct (round53_bounds (k * n) He) as (Hlow & [_ Hup] & _).
    set (h := (2 ^ (N.log2 (k * n) - 52 - 1))%N) in *. clearbody h.
    set (D := (2 ^ 53)%N) in *.
    assert (0 < D)%N by (subst D; done). clearbody D. nia.
Qed.

Lemma round53_ge j p :
  (p < 2 ^ 106)%N → (j * 2 ^ 53 ≤ p)%N → (j * 2 ^ 53 ≤ round53 p)%N.
Proof.
  intros Hp Hj.
  destruct (decide (N.log2 p - 52 = 0)%N) as [He|He].
  - by rewrite round53_small by lia.
  - destruct (round53_bounds p He) as (_ & [Hlow _] & _).
    set (e := (N.log2 p - 52)%N) in *.
    assert (e ≤ 53)%N as Hle.
    { assert (N.log2 p < 106)%N; [|lia].
      apply N.log2_lt_pow2; [|done]. destruct p; [by subst e|lia]. }
    etrans; [|exact Hlow].
    replace (2 ^ 53)%N with (2 ^ (53 - e) * 2 ^ e)%N in *
      by (rewrite <-N.pow_add_r; f_equal; lia).
    rewrite N.mul_assoc in *.
    apply N.mul_le_mono_r.
    apply N.div_le_lower_bound; [by apply N.pow_nonzero|]. lia.
Qed.


Lemma Math_random_lt tp : ((Math_random tp).1 < RANDOM_DENOMINATOR)%N.
Proof.
  destruct tp as [|k tp]; simpl; [done|]. by apply N.mod_lt.
Qed.

Lemma random_floor_lt n tp : (0 < n)%nat → ((random_floor n tp).1 < n)%nat.
Proof.
  intros Hn. unfold random_floor.
  pose proof (Math_random_lt tp) as Hk.
  destruct (Math_random tp) as [k tp']. simpl in *.
  assert (round53 (k * N.of_nat n) / RANDOM_DENOMINATOR < N.of_nat n)%N; [|lia].
  apply N.Div0.div_lt_upper_bound. rewrite (N.mul_comm RANDOM_DENOMINATOR).
  apply round53_lt; [done|lia].
Qed.

Lemma random_floor_tape n tp : (random_floor n tp).2 = drop 1 tp.
Proof. unfold random_floor. by destruct tp. Qed.

Lemma shuffle_from_tape i cards tp : (Deck.shuffle_from i cards tp).2 = drop i tp.
Proof.
  revert cards tp. induction i as [|i IH]; intros cards tp.
  - by rewrite drop_0.
  - cbn [Deck.shuffle_from].
    pose proof (random_floor_tape (S i + 1) tp) as Htape.
    destruct (random_floor (S i + 1) tp) as [j tp']. simpl in Htape.
    rewrite IH, Htape, drop_drop. reflexivity.
Qed.

(** Every position gets its share of the values of [Math.random()]: the
    numbers [x] with [k / n <= x] and [x + 2^-53 <= (k + 1) / n] select
    position [k] of [n]. *)
Lemma random_floor_band (n k : nat) (r : N) tp :
  (N.of_nat n ≤ RANDOM_DENOMINATOR)%N →
  (k < n)%nat →
  (N.of_nat k * RANDOM_DENOMINATOR ≤ r * N.of_nat n)%N →
  ((r + 1) * N.of_nat n ≤ (N.of_nat k + 1) * RANDOM_DENOMINATOR)%N →
  random_floor n (r :: tp) = (k, tp).
Proof.
  unfold RANDOM_DENOMINATOR. intros Hn Hk Hlow Hup.
  assert (r < 2 ^ 53)%N as Hr.
  { set (D := (2 ^ 53)%N) in *. clearbody D. nia. }
  unfold random_floor, Math_random, RANDOM_DENOMINATOR.
  rewrite N.mod_small by done. f_equal.
  apply Nat2N.inj. rewrite N2Nat.id.
  set (p := (r * N.of_nat n)%N) in *.
  assert (N.of_nat k * 2 ^ 53 ≤ round53 p)%N as Hge.
  { apply round53_ge; [|done]. subst p.
    change (2 ^ 106)%N with (2 ^ 53 * 2 ^ 53)%N.
    set (D := (2 ^ 53)%N) in *. clearbody D. nia. }
  assert (round53 p < (N.of_nat k + 1) * 2 ^ 53)%N as Hlt.
  { destruct (decide (N.log2 p - 52 = 0)%N) as [He|He].
    - rewrite round53_small by lia. subst p.
      set (D := (2 ^ 53)%N) in *. clearbody D. nia.
    - destruct (round53_bounds p He) as (Hh & [_ Hle] & _).
      set (h := (2 ^ (N.log2 p - 52 - 1))%N) in *. clearbody h.
      subst p. set (D := (2 ^ 53)%N) in *.
      assert (0 < D)%N by (subst D; done). clearbody D. nia. }
  symmetry. apply N.div_unique with (round53 p - N.of_nat k * 2 ^ 53)%N; lia.
Qed.

(** ** Swapping and shuffling permute *)

Lemma delete_insert_same {A} (l : list A) i x : delete i (<[i := x]> l) = delete i l.
Proof.
  revert i. induction l as [|a l IH]; intros [|i]; simpl; try done.
  by rewrite IH.
Qed.

Lemma insert_Permutation {A} (l : list A) i x y :
  l !! i = Some x → x :: <[i := y]> l ≡ₚ y :: l.
Proof.
  intros H.
  assert (<[i := y]> l !! i = Some y) as Hy
    by (apply list_lookup_insert_eq; by eapply lookup_lt_Some).
  rewrite (delete_Permutation _ _ _ Hy), delete_insert_same.
  rewrite (delete_Permutation l _ _ H) at 2.
  apply Permutation_swap.
Qed.

Lemma swap_Permutation {A} (l : list A) i j : swap l i j ≡ₚ l.
Proof.
  unfold swap. destruct (l !! i) as [x|] eqn:Hi; [|done].
  destruct (l !! j) as [y|] eqn:Hj; [|done].
  assert (<[i := y]> l !! j = Some y) as Hy.
  { destruct (decide (i = j)) as [->|Hne].
    - apply list_lookup_insert_eq. by eapply lookup_lt_Some.
    - by rewrite list_lookup_insert_ne. }
  apply Permutation_cons_inv with y.
  rewrite (insert_Permutation _ _ _ x Hy).
  by apply insert_Permutation.
Qed.

Lemma shuffle_from_Permutation i cards tp :
  (Deck.shuffle_from i cards tp).1 ≡ₚ cards.
Proof.
  revert cards tp. induction i as [|i IH]; intros cards tp; [done|].
  cbn [Deck.shuffle_from]. destruct (random_floor _ tp) as [j tp'].
  rewrite IH. apply swap_Permutation.
Qed.

Lemma shuffle_Permutation cards tp : (Deck.shuffle cards tp).1 ≡ₚ cards.
Proof. apply shuffle_from_Permutation. Qed.

(** ** Popping *)

Lemma pop_nil {A} : pop (@nil (option A)) = (None, []).
Proof. reflexivity. Qed.

Lemma pop_snoc {A} (l : list (option A)) x : pop (l ++ [x]) = (x, l).
Proof. unfold pop. by rewrite last_snoc, removelast_last. Qed.

Lemma pop_cases {A} (l : list (option A)) :
  (l = [] ∧ pop l = (None, [])) ∨ (∃ l' x, l = l' ++ [x] ∧ pop l = (x, l')).
Proof.
  destruct (last l) as [x|] eqn:Hlast.
  - right. apply last_Some in Hlast as [l' ->]. exists l', x.
    by rewrite pop_snoc.
  - left. apply last_None in Hlast as ->. done.
Qed.

Lemma defined_app l1 l2 : defined (l1 ++ l2) = defined l1 ++ defined l2.
Proof. apply omap_app. Qed.

Lemma defined_pop l :
  defined l = defined (pop l).2 ++ slot_cards (pop l).1.
Proof.
  destruct (pop_cases l) as [[-> ->]|(l' & x & -> & ->)]; [done|].
  rewrite defined_app. simpl. by destruct x.
Qed.

Lemma defined_Forall_length l : Forall is_Some l → length (defined l) = length l.
Proof.
  induction 1 as [|x l [c ->] _ IH]; simpl; [done|].
  by rewrite <-IH.
Qed.

(** ** Hands *)

Lemma hand_receiveCard card p :
  Player.hand (Player.receiveCard card p) = Player.hand p ++ slot_cards card.
Proof. destruct card; simpl; [done|]. by rewrite app_nil_r. Qed.

Lemma receiveCard_set_hand card p :
  Player.receiveCard card p = Player.set_hand (Player.hand p ++ slot_cards card) p.
Proof. destruct card, p; simpl; [done|]. by rewrite app_nil_r. Qed.

Lemma hands_insert ps i p h :
  ps !! i = Some p →
  hands (<[i := Player.set_hand h p]> ps) ++ Player.hand p ≡ₚ hands ps ++ h.
Proof.
  unfold hands. revert i. induction ps as [|q ps IH]; intros [|i] H;
    simplify_eq/=.
  - rewrite (comm (++) (Player.hand p ++ _) h).
    rewrite <-(assoc_L (++)). f_equiv. apply (comm (++)).
  - rewrite <-!(assoc_L (++)). f_equiv. by apply IH.
Qed.

Lemma hands_insert_app ps i p extra :
  ps !! i = Some p →
  hands (<[i := Player.set_hand (Player.hand p ++ extra) p]> ps) ≡ₚ hands ps ++ extra.
Proof.
  intros H. apply (Permutation_app_inv_r (Player.hand p)).
  rewrite (hands_insert _ _ _ _ H).
  rewrite <-!(assoc_L (++)). f_equiv. apply (comm (++)).
Qed.

(** ** Rules for [returns] *)

Lemma returns_ret {A} (a : A) g tp (Q : A → t → Prop) :
  Q a g → returns (ret a) g tp Q.
Proof. intros. by exists a, g, tp. Qed.

Lemma returns_bind {A B} (m : M A) (k : A → M B) g tp
    (Q : A → t → Prop) (R : B → t → Prop) :
  returns m g tp Q →
  (∀ a g' tp', Q a g' → returns (k a) g' tp' R) →
  returns (m ≫= k) g tp R.
Proof.
  intros (a & g' & tp' & Hm & HQ) Hk.
  destruct (Hk a g' tp' HQ) as (b & g'' & tp'' & Hkb & HR).
  exists b, g'', tp''. split; [|done]. by rewrite (bind_Return _ _ _ _ _ _ _ Hm).
Qed.

Lemma returns_weaken {A} (m : M A) g tp (Q R : A → t → Prop) :
  returns m g tp Q → (∀ a g', Q a g' → R a g') → returns m g tp R.
Proof. intros (a & g' & tp' & Hm & HQ) H. exists a, g', tp'. eauto. Qed.

Lemma returns_final {A} (m : M A) g tp (P : t → Prop) :
  returns m g tp (λ _ g', P g') → P (final (m g tp)).
Proof. intros (a & g' & tp' & -> & HP). done. Qed.

Lemma returns_detached {A} (m : M A) g tp (P : t → Prop) :
  P (final (m g tp)) → returns (detached m) g tp (λ _ g', P g').
Proof.
  intros HP. unfold returns, detached.
  destruct (m g tp) as [a g' tp'|g' tp']; by exists tt, g', tp'.
Qed.

(** ** The setters *)

Lemma set_deck_same g : set_deck (deck g) g = g.
Proof. by destruct g. Qed.
Lemma set_players_same g : set_players (players g) g = g.
Proof. by destruct g. Qed.
Lemma set_discardPile_same g : set_discardPile (discardPile g) g = g.
Proof. by destruct g. Qed.

(** ** The deck and the discard pile *)

Lemma deckDraw_run g tp :
  deckDraw g tp = Return (pop (deck g)).1 (set_deck (pop (deck g)).2 g) tp.
Proof.
  unfold deckDraw. rewrite bind_get. unfold Deck.draw.
  by destruct (pop (deck g)).
Qed.

Lemma deckShuffle_run g tp :
  deckShuffle g tp =
    Return tt (set_deck (Deck.shuffle (deck g) tp).1 g) (Deck.shuffle (deck g) tp).2.
Proof. unfold deckShuffle. by destruct (Deck.shuffle (deck g) tp). Qed.

Lemma recycleDeck_short g tp :
  (length (discardPile g) ≤ 1)%nat → recycleDeck g tp = Return tt g tp.
Proof.
  intros H. unfold recycleDeck. rewrite bind_get. by rewrite decide_True.
Qed.

Lemma recycleDeck_long g tp old top :
  discardPile g = old ++ [top] → old ≠ [] →
  recycleDeck g tp =
    Return tt
      (set_deck (Deck.shuffle (deck g ++ old) tp).1 (set_discardPile [top] g))
      (Deck.shuffle (deck g ++ old) tp).2.
Proof.
  intros Hdp Hold. unfold recycleDeck. rewrite bind_get.
  rewrite decide_False.
  2:{ rewrite Hdp, length_app. simpl. destruct old; [done|]. simpl. lia. }
  rewrite Hdp, pop_snoc. rewrite !bind_modify.
  rewrite deckShuffle_run. reflexivity.
Qed.

(** Recycling moves cards between the two piles only. *)
Lemma recycleDeck_returns g tp :
  returns recycleDeck g tp (λ _ g',
    ∃ d dp, g' = set_deck d (set_discardPile dp g)
            ∧ d ++ dp ≡ₚ deck g ++ discardPile g
            ∧ (discardPile g ≠ [] → dp ≠ [])
            ∧ (length dp ≤ 1)%nat).
Proof.
  destruct (decide (length (discardPile g) ≤ 1)%nat) as [Hshort|Hlong].
  - exists tt, g, tp. split; [by apply recycleDeck_short|].
    exists (deck g), (discardPile g).
    rewrite set_discardPile_same, set_deck_same. by repeat split.
  - destruct (pop_cases (discardPile g)) as [[Hnil _]|(old & top & Hdp & _)].
    { rewrite Hnil in Hlong. simpl in Hlong. lia. }
    assert (old ≠ []) as Hold.
    { intros ->. rewrite Hdp in Hlong. simpl in Hlong. lia. }
    eexists tt, _, _. split; [by apply (recycleDeck_long _ _ old top)|].
    eexists _, _. split; [reflexivity|].
    split; [|split]; [|done|simpl; lia].
    rewrite shuffle_Permutation, Hdp. by rewrite (assoc_L (++)).
Qed.

(** ** Passing the turn *)

Lemma nextTurn_over g tp : gameOver g = true → nextTurn g tp = Return tt g tp.
Proof. intros H. unfold nextTurn. rewrite bind_get, H. reflexivity. Qed.

Lemma nextTurn_win g tp p :
  gameOver g = false →
  at_index (players g) (currentPlayerIndex g) = Some p →
  Player.hand p = [] →
  nextTurn g tp = Return tt (won p g) tp.
Proof.
  intros Hlive Hp Hhand. unfold nextTurn. rewrite bind_get, Hlive.
  rewrite (bind_Return _ _ _ _ _ _ _ (playerAt_Some _ _ _ _ Hp)).
  rewrite decide_True by (by rewrite Hhand).
  by apply handleWin_Some.
Qed.

Lemma nextTurn_pass g tp p :
  gameOver g = false →
  at_index (players g) (currentPlayerIndex g) = Some p →
  Player.hand p ≠ [] →
  nextTurn g tp = Return tt (turn_passed g) tp.
Proof.
  intros Hlive Hp Hhand. unfold nextTurn. rewrite bind_get, Hlive.
  rewrite (bind_Return _ _ _ _ _ _ _ (playerAt_Some _ _ _ _ Hp)).
  rewrite decide_False by (by destruct (Player.hand p)).
  rewrite bind_modify, bind_get. unfold turn_passed.
  destruct g; simpl. by case_decide.
Qed.

(** [nextTurn] leaves the cards, the seats and the direction alone, and
    keeps the pointer on a seat. *)
Lemma nextTurn_returns g tp p :
  at_index (players g) (currentPlayerIndex g) = Some p →
  returns nextTurn g tp (λ _ g',
    deck g' = deck g ∧ players g' = players g
    ∧ discardPile g' = discardPile g ∧ direction g' = direction g
    ∧ (g' = g ∨ g' = won p g ∨ g' = turn_passed g)
    ∧ (gameOver g' = false → gameOver g = false ∧ g' = turn_passed g)).
Proof.
  intros Hp. destruct (gameOver g) eqn:Hlive.
  - exists tt, g, tp. split; [by apply nextTurn_over|].
    repeat split; first [done | by left | congruence].
  - destruct (decide (Player.hand p = [])) as [Hhand|Hhand].
    + exists tt, (won p g), tp. split; [by apply nextTurn_win|].
      repeat split; first [done | by right; left | by intros ?].
    + exists tt, (turn_passed g), tp. split; [by eapply nextTurn_pass|].
      repeat split; first [done | by right; right].
Qed.

Lemma wrap_mod c d :
  0 ≤ c < 4 → d = 1 ∨ d = -1 → wrap (c + d) = (c + d) mod 4.
Proof.
  intros Hc [-> | ->]; unfold wrap; repeat case_decide;
    assert (c = 0 ∨ c = 1 ∨ c = 2 ∨ c = 3) as [-> | [-> | [-> | ->]]] by lia;
    try reflexivity; lia.
Qed.

Lemma wrap_range i : 0 ≤ i < 4 → 0 ≤ wrap i < 4.
Proof. intros ?. unfold wrap. repeat case_decide; lia. Qed.

Lemma wrap_step_range c d : 0 ≤ c < 4 → d = 1 ∨ d = -1 → 0 ≤ wrap (c + d) < 4.
Proof. intros Hc [-> | ->]; unfold wrap; repeat case_decide; lia. Qed.

(** ** Drawing *)

Lemma receiveAt_undefined i g : receiveAt i None g = g.
Proof.
  unfold receiveAt. rewrite list_alter_id by done. apply set_players_same.
Qed.

Lemma receiveAt_defined i c p g :
  at_index (players g) i = Some p →
  receiveAt i (Some c) g =
    set_players (<[Z.to_nat i := Player.set_hand (Player.hand p ++ [c]) p]> (players g)) g.
Proof.
  intros [_ Hp]%at_index_Some. unfold receiveAt.
  by rewrite (alter_insert _ _ _ _ Hp).
Qed.

(** What [executeDraw] does once the deck has been looked after. *)
Lemma executeDraw_run playerIndex g tp g1 tp1 p :
  (if decide (Deck.count (deck g) = 0%nat) then recycleDeck else ret tt) g tp
    = Return tt g1 tp1 →
  at_index (players g1) playerIndex = Some p →
  executeDraw playerIndex g tp =
    nextTurn (receiveAt playerIndex (pop (deck g1)).1
                (set_deck (pop (deck g1)).2 g1)) tp1.
Proof.
  intros Hdeck Hp. unfold executeDraw. rewrite bind_get.
  rewrite (bind_Return _ _ _ _ _ _ _ Hdeck).
  rewrite (bind_Return _ _ _ _ _ _ _ (deckDraw_run _ _)).
  rewrite (bind_Return _ _ _ _ p _ _) by (by apply playerAt_Some).
  by rewrite bind_modify.
Qed.

Lemma executeDraw_exhausted playerIndex g tp p :
  deck g = [] → (length (discardPile g) ≤ 1)%nat →
  at_index (players g) playerIndex = Some p →
  executeDraw playerIndex g tp = nextTurn g tp.
Proof.
  intros Hdeck Hdp Hp.
  rewrite (executeDraw_run _ _ _ g tp p); [| |done].
  - rewrite Hdeck, pop_nil. simpl. rewrite receiveAt_undefined.
    by rewrite <-Hdeck, set_deck_same.
  - rewrite Hdeck. simpl. by apply recycleDeck_short.
Qed.

Lemma executeDraw_stocked playerIndex g tp p d card :
  deck g = d ++ [card] →
  at_index (players g) playerIndex = Some p →
  executeDraw playerIndex g tp =
    nextTurn (receiveAt playerIndex card (set_deck d g)) tp.
Proof.
  intros Hdeck Hp.
  rewrite (executeDraw_run _ _ _ g tp p); [| |done].
  - by rewrite Hdeck, pop_snoc.
  - rewrite decide_False; [done|]. rewrite Hdeck. unfold Deck.count.
    rewrite length_app. simpl. lia.
Qed.

(** ** Steps that keep the table in order *)

Lemma keeps_refl g : table_ok g → keeps g g.
Proof. by intros ?. Qed.

Lemma keeps_trans g1 g2 g3 : keeps g1 g2 → keeps g2 g3 → keeps g1 g3.
Proof.
  intros (_ & Hover & Hhold) (Hok & Hover' & Hhold').
  split; [done|]. split; [congruence|tauto].
Qed.

Lemma keeps_live g g' : keeps g g' → live_ok g → live_ok g'.
Proof.
  intros (_ & Hover & Hhold) Hlive Hg'. apply Hhold, Hlive. congruence.
Qed.

Lemma table_ok_seat g i :
  table_ok g → 0 ≤ i < 4 → ∃ p, at_index (players g) i = Some p.
Proof.
  intros Hok Hi. destruct (lookup_lt_is_Some_2 (players g) (Z.to_nat i)) as [p Hp].
  { rewrite (ok_seats _ Hok). lia. }
  exists p. apply at_index_Some. split; [lia|done].
Qed.

Lemma table_ok_current g :
  table_ok g → ∃ p, at_index (players g) (currentPlayerIndex g) = Some p.
Proof. intros Hok. apply table_ok_seat; [done|]. apply (ok_pointer _ Hok). Qed.

Lemma table_ok_top g : table_ok g → ∃ top, getTopCard g = Some top.
Proof.
  intros Hok. unfold getTopCard.
  destruct (last (discardPile g)) as [x|] eqn:Hlast.
  - assert (is_Some x) as [top ->]; [|by exists top].
    apply last_Some in Hlast as [l Hl].
    pose proof (ok_piles _ Hok) as Hall. rewrite Hl in Hall.
    rewrite !Forall_app in Hall. destruct Hall as (_ & _ & Hx).
    by inversion Hx.
  - apply last_None in Hlast. by destruct (ok_top _ Hok).
Qed.

Lemma keeps_pointer g i :
  table_ok g → 0 ≤ i < 4 → keeps g (set_currentPlayerIndex i g).
Proof.
  intros [] Hi. split; [|done]. by split.
Qed.

Lemma keeps_direction g d :
  table_ok g → d = 1 ∨ d = -1 → keeps g (set_direction d g).
Proof.
  intros [] Hd. split; [|done]. by split.
Qed.

Lemma keeps_aiTimers g n : table_ok g → keeps g (set_aiTimers n g).
Proof.
  intros []. split; [|done]. by split.
Qed.

Lemma keeps_piles g d dp :
  table_ok g → d ++ dp ≡ₚ deck g ++ discardPile g → dp ≠ [] →
  keeps g (set_deck d (set_discardPile dp g)).
Proof.
  intros [] Hperm Hdp. split; [|done]. split; simpl; try done.
  - by rewrite Hperm.
  - unfold cards in *. simpl. rewrite (assoc_L (++)), <-defined_app.
    unfold defined at 1. rewrite Hperm. fold (defined (deck g ++ discardPile g)).
    by rewrite defined_app, <-(assoc_L (++)).
Qed.

Lemma all_holding_insert ps i p h :
  all_holding ps → h ≠ [] → all_holding (<[i := Player.set_hand h p]> ps).
Proof. intros Hall Hh. by apply Forall_insert. Qed.

(** [this.players[i].receiveCard(this.deck.draw())] on a seat. *)
Lemma keeps_draw g i p :
  table_ok g → at_index (players g) i = Some p →
  keeps g (receiveAt i (pop (deck g)).1 (set_deck (pop (deck g)).2 g)).
Proof.
  intros Hok Hp. pose proof Hp as [Hi Hlook]%at_index_Some.
  pose proof (defined_pop (deck g)) as Hdef.
  assert (Forall is_Some ((pop (deck g)).2 ++ discardPile g)) as Hpiles.
  { pose proof (ok_piles _ Hok) as Hall.
    destruct (pop_cases (deck g)) as [[_ ->]|(l & x & Hl & ->)]; simpl.
    - rewrite Forall_app in Hall. tauto.
    - rewrite Hl, !Forall_app in Hall. rewrite Forall_app. tauto. }
  destruct (pop (deck g)) as [card d']. simpl in *.
  unfold receiveAt. simpl. rewrite (alter_insert _ _ _ _ Hlook).
  rewrite receiveCard_set_hand.
  destruct Hok. split; [|split; [done|]].
  - split; simpl; try done.
    + by rewrite length_insert.
    + unfold cards in *. simpl. rewrite (hands_insert_app _ _ _ _ Hlook).
      rewrite <-ok_cards0, Hdef.
      rewrite <-!(assoc_L (++)). f_equiv.
      rewrite (comm (++) (slot_cards card)). by rewrite <-!(assoc_L (++)).
  - simpl. intros Hall. apply Forall_insert; [done|].
    pose proof (Forall_lookup_1 _ _ _ _ Hall Hlook) as Hne. simpl in *.
    by destruct (Player.hand p).
Qed.

Lemma same_turn_refl g : same_turn g g.
Proof. by repeat split. Qed.

Lemma same_turn_trans g1 g2 g3 : same_turn g1 g2 → same_turn g2 g3 → same_turn g1 g3.
Proof. unfold same_turn. intros (?&?&?&?) (?&?&?&?). repeat split; congruence. Qed.

(** The deck is looked after before a draw: it is recycled when empty. *)
Lemma restock_returns g tp :
  table_ok g →
  returns (if decide (Deck.count (deck g) = 0%nat) then recycleDeck else ret tt) g tp
    (λ _ g1, keeps g g1 ∧ same_turn g g1 ∧ players g1 = players g
             ∧ stock g1 = stock g ∧ (0 < stock g → deck g1 ≠ [])%nat).
Proof.
  intros Hok. unfold Deck.count. case_decide as Hcount.
  - apply length_zero_iff_nil in Hcount.
    eapply returns_weaken; [apply recycleDeck_returns|]. simpl.
    intros _ g1 (d & dp & -> & Hperm & Hdp & Hlen).
    split; [by apply keeps_piles; [|
      |apply Hdp, (ok_top _ Hok)]|].
    split; [by repeat split|]. split; [done|]. unfold stock. simpl.
    pose proof (f_equal length Hcount) as Hzero. simpl in Hzero.
    apply Permutation_length in Hperm. rewrite !length_app in Hperm.
    assert (length dp = 1%nat) as Hone.
    { destruct dp as [|x dp]; [by destruct (Hdp (ok_top _ Hok))|].
      simpl in *. lia. }
    split; [lia|]. intros Hpos Hd. subst d. simpl in *. lia.
  - apply returns_ret. split; [by apply keeps_refl|].
    split; [apply same_turn_refl|]. split; [done|]. split; [done|].
    intros _ Hd. by rewrite Hd in Hcount.
Qed.

(** One round of the loop of [forceDraw]. *)
Lemma forceDraw_round_returns v g tp p :
  table_ok g → at_index (players g) v = Some p →
  returns
    ((if decide (Deck.count (deck g) = 0%nat) then recycleDeck else ret tt) ;;
     playerAt v ;; card ← deckDraw; modify (receiveAt v card)) g tp
    (λ _ g2, keeps g g2 ∧ same_turn g g2
             ∧ ∃ card, players g2 = <[Z.to_nat v := Player.receiveCard card p]> (players g)
                       ∧ (stock g2 = stock g - length (slot_cards card))%nat
                       ∧ (0 < stock g → is_Some card)%nat).
Proof.
  intros Hok Hp.
  eapply returns_bind; [by apply restock_returns|]. simpl.
  intros _ g1 tp1 (Hkeeps1 & Hturn1 & Hps1 & Hstock1 & Hdeck1).
  assert (at_index (players g1) v = Some p) as Hp1 by (by rewrite Hps1).
  pose proof Hp1 as [_ Hlook1]%at_index_Some.
  destruct Hkeeps1 as (Hok1 & Hover1 & Hhold1).
  eexists tt, _, _. split.
  { rewrite (bind_Return _ _ _ _ _ _ _ (playerAt_Some _ _ _ _ Hp1)).
    rewrite (bind_Return _ _ _ _ _ _ _ (deckDraw_run _ _)). reflexivity. }
  pose proof (keeps_draw g1 v p Hok1 Hp1) as Hkeeps2.
  split; [by eapply keeps_trans|]. split; [exact Hturn1|].
  exists (pop (deck g1)).1.
  split; [unfold receiveAt; simpl; by rewrite (alter_insert _ _ _ _ Hlook1), Hps1|].
  rewrite <-Hstock1 in Hdeck1 |- *. unfold stock in Hdeck1 |- *.
  destruct (pop_cases (deck g1)) as [[Hnil ->]|(l & x & Hl & ->)]; simpl.
  - rewrite Hnil in Hdeck1 |- *. simpl in *. split; [lia|].
    intros Hpos. by destruct (Hdeck1 Hpos).
  - pose proof (ok_piles _ Hok1) as Hall. rewrite Hl, !Forall_app in Hall.
    destruct Hall as ((_ & Hx) & _). inversion Hx as [|?? [c ->] _]; subst.
    rewrite Hl, length_app. simpl. split; [lia|]. by eexists.
Qed.

Lemma bind_assoc {A B C} (m : M A) (k : A → M B) (h : B → M C) g tp :
  ((m ≫= k) ≫= h) g tp = (m ≫= (λ a, k a ≫= h)) g tp.
Proof. unfold mbind, M_bind, bind. by destruct (m g tp). Qed.

Lemma bind_ext {A B} (m : M A) (k k' : A → M B) g tp :
  (∀ a g' tp', k a g' tp' = k' a g' tp') → (m ≫= k) g tp = (m ≫= k') g tp.
Proof. intros H. unfold mbind, M_bind, bind. by destruct (m g tp). Qed.

Lemma forceDrawLoop_S v n g tp :
  forceDrawLoop v (S n) g tp =
    (((if decide (Deck.count (deck g) = 0%nat) then recycleDeck else ret tt) ;;
      playerAt v ;; card ← deckDraw; modify (receiveAt v card)) ;;
     forceDrawLoop v n) g tp.
Proof.
  cbn [forceDrawLoop]. rewrite bind_get.
  repeat (rewrite bind_assoc; apply bind_ext; intros).
  reflexivity.
Qed.

Lemma set_hand_same p : Player.set_hand (Player.hand p) p = p.
Proof. by destruct p. Qed.

(** [forceDraw]: the victim is dealt from the deck, recycled when it runs
    out; nothing else moves. *)
Lemma forceDrawLoop_returns n v g tp p :
  table_ok g → at_index (players g) v = Some p →
  returns (forceDrawLoop v n) g tp
    (λ _ g', keeps g g' ∧ same_turn g g'
             ∧ ∃ drawn,
                 players g' =
                   <[Z.to_nat v := Player.set_hand (Player.hand p ++ drawn) p]> (players g)
                 ∧ (n ≤ stock g → length drawn = n)%nat).
Proof.
  revert g tp p. induction n as [|n IH]; intros g tp p Hok Hp.
  - apply returns_ret. split; [by apply keeps_refl|].
    split; [apply same_turn_refl|]. exists []. split; [|done].
    pose proof Hp as [_ Hlook]%at_index_Some.
    by rewrite app_nil_r, set_hand_same, list_insert_id.
  - pose proof Hp as [Hv Hlook]%at_index_Some.
    destruct (forceDraw_round_returns v g tp p Hok Hp)
      as ([] & g2 & tp2 & Hround & Hkeeps2 & Hturn2 & card & Hps2 & Hstock2 & Hcard).
    assert (at_index (players g2) v = Some (Player.receiveCard card p)) as Hp2.
    { apply at_index_Some. split; [done|]. rewrite Hps2.
      apply list_lookup_insert_eq. by eapply lookup_lt_Some. }
    destruct (IH g2 tp2 _ (proj1 Hkeeps2) Hp2)
      as ([] & g3 & tp3 & Hrest & Hkeeps3 & Hturn3 & drawn & Hps3 & Hlen).
    exists tt, g3, tp3. split.
    { rewrite forceDrawLoop_S. by rewrite (bind_Return _ _ _ _ _ _ _ Hround). }
    split; [by eapply keeps_trans|]. split; [by eapply same_turn_trans|].
    exists (slot_cards card ++ drawn). split.
    + rewrite Hps3, Hps2, list_insert_insert_eq.
      rewrite hand_receiveCard, receiveCard_set_hand. simpl.
      by rewrite (assoc_L (++)).
    + intros Hn. rewrite length_app.
      destruct (Hcard ltac:(lia)) as [c ->]. simpl in *.
      rewrite Hlen; lia.
Qed.

(** ** Passing cards around *)

Lemma removeOneRandomCard_run p tp :
  ∃ k tp',
    Player.removeOneRandomCard p tp =
      (Player.hand p !! k, Player.set_hand (delete k (Player.hand p)) p, tp')
    ∧ (Player.hand p ≠ [] → k < length (Player.hand p))%nat.
Proof.
  unfold Player.removeOneRandomCard. case_decide as Hlen.
  - apply length_zero_iff_nil in Hlen. exists 0%nat, tp.
    rewrite Hlen. simpl. split; [|done]. destruct p; simpl in *. by subst.
  - pose proof (random_floor_lt (length (Player.hand p)) tp ltac:(lia)) as Hlt.
    destruct (random_floor (length (Player.hand p)) tp) as [k tp'].
    simpl in Hlt. exists k, tp'.
    destruct (lookup_lt_is_Some_2 _ _ Hlt) as [x Hx].
    rewrite (splice1_in_range _ _ _ Hx), Hx. by split.
Qed.

Lemma handOver_cons count dir i card rest ps :
  handOver count dir i (card :: rest) ps =
    handOver count dir (S i) rest
      (alter (Player.receiveCard card) (Z.to_nat (nextIndex count i dir)) ps).
Proof.
  destruct card; simpl; [done|]. by rewrite list_alter_id.
Qed.

Lemma receiveCard_passed p k q kq :
  Player.receiveCard (Player.hand q !! kq)
    (Player.set_hand (delete k (Player.hand p)) p) = passed_on p k q kq.
Proof.
  unfold passed_on. destruct (Player.hand q !! kq); simpl; [done|].
  by rewrite app_nil_r.
Qed.

(** The pass-around on four seats, seat by seat. *)
Lemma handlePassCardRule_seats g tp p0 p1 p2 p3 :
  players g = [p0; p1; p2; p3] →
  direction g = 1 ∨ direction g = -1 →
  ∃ k0 k1 k2 k3 tp',
    handlePassCardRule g tp =
      Return tt
        (set_players
           (if decide (direction g = 1)
            then [passed_on p0 k0 p3 k3; passed_on p1 k1 p0 k0;
                  passed_on p2 k2 p1 k1; passed_on p3 k3 p2 k2]
            else [passed_on p0 k0 p1 k1; passed_on p1 k1 p2 k2;
                  passed_on p2 k2 p3 k3; passed_on p3 k3 p0 k0]) g) tp'
    ∧ (Player.hand p0 ≠ [] → k0 < length (Player.hand p0))%nat
    ∧ (Player.hand p1 ≠ [] → k1 < length (Player.hand p1))%nat
    ∧ (Player.hand p2 ≠ [] → k2 < length (Player.hand p2))%nat
    ∧ (Player.hand p3 ≠ [] → k3 < length (Player.hand p3))%nat.
Proof.
  intros Hps Hdir. unfold handlePassCardRule. rewrite Hps.
  cbn [collectPassed].
  destruct (removeOneRandomCard_run p0 tp) as (k0 & tp0 & -> & H0).
  destruct (removeOneRandomCard_run p1 tp0) as (k1 & tp1 & -> & H1).
  destruct (removeOneRandomCard_run p2 tp1) as (k2 & tp2 & -> & H2).
  destruct (removeOneRandomCard_run p3 tp2) as (k3 & tp3 & -> & H3).
  exists k0, k1, k2, k3, tp3. split; [|done].
  rewrite !handOver_cons. cbn [handOver length].
  destruct Hdir as [-> | ->].
  - rewrite decide_True by done.
    change (Z.to_nat (nextIndex 4 0 1)) with 1%nat.
    change (Z.to_nat (nextIndex 4 1 1)) with 2%nat.
    change (Z.to_nat (nextIndex 4 2 1)) with 3%nat.
    change (Z.to_nat (nextIndex 4 3 1)) with 0%nat.
    cbn [alter list_alter]. by rewrite !receiveCard_passed.
  - rewrite decide_False by done.
    change (Z.to_nat (nextIndex 4 0 (-1))) with 3%nat.
    change (Z.to_nat (nextIndex 4 1 (-1))) with 0%nat.
    change (Z.to_nat (nextIndex 4 2 (-1))) with 1%nat.
    change (Z.to_nat (nextIndex 4 3 (-1))) with 2%nat.
    cbn [alter list_alter]. by rewrite !receiveCard_passed.
Qed.

Lemma removeOneRandomCard_tape p tp :
  Player.removeOneRandomCard p tp =
    (Player.hand p !! (random_floor (length (Player.hand p)) tp).1,
     Player.set_hand
       (delete (random_floor (length (Player.hand p)) tp).1 (Player.hand p)) p,
     if decide (Player.hand p = []) then tp else drop 1 tp).
Proof.
  unfold Player.removeOneRandomCard. case_decide as Hlen.
  - apply length_zero_iff_nil in Hlen. rewrite decide_True by done.
    rewrite Hlen. destruct p; simpl in *. by subst.
  - rewrite decide_False by (intros Hnil; by rewrite Hnil in Hlen).
    pose proof (random_floor_lt (length (Player.hand p)) tp ltac:(lia)) as Hlt.
    pose proof (random_floor_tape (length (Player.hand p)) tp) as Htape.
    destruct (random_floor (length (Player.hand p)) tp) as [k tp'].
    cbn [fst snd] in *. subst tp'.
    destruct (lookup_lt_is_Some_2 _ _ Hlt) as [x Hx].
    by rewrite (splice1_in_range _ _ _ Hx), Hx.
Qed.

Lemma seat_tape_S ps i p tp :
  ps !! i = Some p →
  seat_tape ps (S i) tp =
    if decide (Player.hand p = []) then seat_tape ps i tp
    else drop 1 (seat_tape ps i tp).
Proof.
  intros Hp. unfold seat_tape.
  rewrite (take_S_r _ _ _ Hp), filter_app, length_app.
  rewrite filter_cons, filter_nil. case_decide as Hempty.
  - rewrite decide_False by done. by rewrite drop_drop.
  - rewrite decide_True by (by destruct (Player.hand p)).
    f_equal. simpl. lia.
Qed.

(** The pass-around on four seats, with the position every seat gives read
    off the random source. *)
Lemma handlePassCardRule_on_tape g tp p0 p1 p2 p3 :
  players g = [p0; p1; p2; p3] →
  direction g = 1 ∨ direction g = -1 →
  let k (i : nat) (p : Player.t) :=
    (random_floor (length (Player.hand p)) (seat_tape (players g) i tp)).1 in
  handlePassCardRule g tp =
    Return tt
      (set_players
         (if decide (direction g = 1)
          then [passed_on p0 (k 0 p0) p3 (k 3 p3); passed_on p1 (k 1 p1) p0 (k 0 p0);
                passed_on p2 (k 2 p2) p1 (k 1 p1); passed_on p3 (k 3 p3) p2 (k 2 p2)]%nat
          else [passed_on p0 (k 0 p0) p1 (k 1 p1); passed_on p1 (k 1 p1) p2 (k 2 p2);
                passed_on p2 (k 2 p2) p3 (k 3 p3); passed_on p3 (k 3 p3) p0 (k 0 p0)]%nat)
         g)
      (seat_tape (players g) 4 tp).
Proof.
  intros Hps Hdir. cbv zeta. unfold handlePassCardRule. rewrite Hps.
  rewrite (seat_tape_S [p0; p1; p2; p3] 3 p3 tp eq_refl),
    (seat_tape_S [p0; p1; p2; p3] 2 p2 tp eq_refl),
    (seat_tape_S [p0; p1; p2; p3] 1 p1 tp eq_refl),
    (seat_tape_S [p0; p1; p2; p3] 0 p0 tp eq_refl).
  change (seat_tape [p0; p1; p2; p3] 0 tp) with tp.
  cbn [collectPassed].
  rewrite (removeOneRandomCard_tape p0). cbv beta iota.
  rewrite (removeOneRandomCard_tape p1). cbv beta iota.
  rewrite (removeOneRandomCard_tape p2). cbv beta iota.
  rewrite (removeOneRandomCard_tape p3). cbv beta iota.
  rewrite !handOver_cons. cbn [handOver length].
  destruct Hdir as [-> | ->].
  - destruct (decide (1 = 1)) as [_|?]; [|done].
    change (Z.to_nat (nextIndex 4 0 1)) with 1%nat.
    change (Z.to_nat (nextIndex 4 1 1)) with 2%nat.
    change (Z.to_nat (nextIndex 4 2 1)) with 3%nat.
    change (Z.to_nat (nextIndex 4 3 1)) with 0%nat.
    cbn [alter list_alter]. by rewrite !receiveCard_passed.
  - destruct (decide (-1 = 1)) as [?|_]; [done|].
    change (Z.to_nat (nextIndex 4 0 (-1))) with 3%nat.
    change (Z.to_nat (nextIndex 4 1 (-1))) with 0%nat.
    change (Z.to_nat (nextIndex 4 2 (-1))) with 1%nat.
    change (Z.to_nat (nextIndex 4 3 (-1))) with 2%nat.
    cbn [alter list_alter]. by rewrite !receiveCard_passed.
Qed.

Lemma lookup_delete_Permutation {A} (l : list A) k :
  option_list (l !! k) ++ delete k l ≡ₚ l.
Proof.
  destruct (l !! k) as [x|] eqn:Hk; simpl.
  - symmetry. by apply delete_Permutation.
  - apply lookup_ge_None in Hk.
    by rewrite delete_take_drop, drop_ge, take_ge, app_nil_r by lia.
Qed.

Lemma hands_passed_on p0 k0 p1 k1 p2 k2 p3 k3 :
  hands [passed_on p0 k0 p3 k3; passed_on p1 k1 p0 k0;
         passed_on p2 k2 p1 k1; passed_on p3 k3 p2 k2]
  ≡ₚ hands [p0; p1; p2; p3]
  ∧ hands [passed_on p0 k0 p1 k1; passed_on p1 k1 p2 k2;
           passed_on p2 k2 p3 k3; passed_on p3 k3 p0 k0]
    ≡ₚ hands [p0; p1; p2; p3].
Proof.
  unfold hands, passed_on. simpl.
  rewrite <-(lookup_delete_Permutation (Player.hand p0) k0) at 3 6.
  rewrite <-(lookup_delete_Permutation (Player.hand p1) k1) at 3 6.
  rewrite <-(lookup_delete_Permutation (Player.hand p2) k2) at 3 6.
  rewrite <-(lookup_delete_Permutation (Player.hand p3) k3) at 3 6.
  split; solve_Permutation.
Qed.

Lemma passed_on_holding p k q kq :
  Player.hand q ≠ [] → (Player.hand q ≠ [] → kq < length (Player.hand q))%nat →
  Player.hand (passed_on p k q kq) ≠ [].
Proof.
  intros Hq Hkq. destruct (lookup_lt_is_Some_2 _ _ (Hkq Hq)) as [x Hx].
  unfold passed_on. simpl. rewrite Hx. simpl.
  by destruct (delete k (Player.hand p)).
Qed.

Lemma four_seats (ps : list Player.t) :
  length ps = 4%nat → ∃ p0 p1 p2 p3, ps = [p0; p1; p2; p3].
Proof.
  destruct ps as [|p0 [|p1 [|p2 [|p3 [|]]]]]; try done.
  intros _. by exists p0, p1, p2, p3.
Qed.

Lemma handlePassCardRule_returns g tp :
  table_ok g →
  returns handlePassCardRule g tp
    (λ _ g', keeps g g' ∧ same_turn g g'
             ∧ deck g' = deck g ∧ discardPile g' = discardPile g).
Proof.
  intros Hok. destruct (four_seats _ (ok_seats _ Hok)) as (p0 & p1 & p2 & p3 & Hps).
  destruct (handlePassCardRule_seats g tp p0 p1 p2 p3 Hps (ok_direction _ Hok))
    as (k0 & k1 & k2 & k3 & tp' & Hrun & H0 & H1 & H2 & H3).
  eexists tt, _, tp'. split; [exact Hrun|].
  pose proof (hands_passed_on p0 k0 p1 k1 p2 k2 p3 k3) as [Hcw Hccw].
  split; [|by repeat split]. split; [|split; [done|]].
  - destruct Hok. split; simpl; try done.
    + by case_decide.
    + unfold cards in *. simpl. rewrite Hps in ok_cards0.
      case_decide; [by rewrite Hcw|by rewrite Hccw].
  - simpl. rewrite Hps. unfold all_holding. rewrite !Forall_cons.
    intros (Hh0 & Hh1 & Hh2 & Hh3 & _).
    case_decide; rewrite !Forall_cons;
      repeat split; first [by apply passed_on_holding | done | apply Forall_nil].
Qed.

(** ** Every call keeps the table in order *)

Lemma table_ok_won g p : table_ok g → table_ok (won p g).
Proof. intros []. by split. Qed.

Lemma table_ok_turn_passed g : table_ok g → table_ok (turn_passed g).
Proof.
  intros []. split; try done. simpl. by apply wrap_step_range.
Qed.

Lemma nextTurn_ok g tp :
  table_ok g →
  returns nextTurn g tp
    (λ _ g', table_ok g' ∧ players g' = players g
             ∧ deck g' = deck g ∧ discardPile g' = discardPile g
             ∧ (gameOver g' = false → gameOver g = false)).
Proof.
  intros Hok. destruct (table_ok_current g Hok) as [p Hp].
  eapply returns_weaken; [by apply (nextTurn_returns g tp p)|]. simpl.
  intros _ g' (Hdeck & Hps & Hdp & _ & Hcases & Hlive).
  split; [|by intuition].
  destruct Hcases as [-> | [-> | ->]];
    [done|by apply table_ok_won|by apply table_ok_turn_passed].
Qed.

Lemma executeDraw_ok playerIndex g tp :
  table_ok g → live_ok g → 0 ≤ playerIndex < 4 →
  returns (executeDraw playerIndex) g tp (λ _ g', table_ok g' ∧ live_ok g').
Proof.
  intros Hok Hlive Hseat.
  destruct (restock_returns g tp Hok)
    as ([] & g1 & tp1 & Hrestock & Hkeeps1 & _ & Hps1 & _).
  destruct (table_ok_seat g1 playerIndex (proj1 Hkeeps1) Hseat) as [p Hp].
  pose proof (keeps_draw g1 playerIndex p (proj1 Hkeeps1) Hp) as Hkeeps2.
  pose proof (keeps_trans _ _ _ Hkeeps1 Hkeeps2) as Hkeeps.
  unfold returns. rewrite (executeDraw_run _ _ _ _ _ _ Hrestock Hp).
  eapply returns_weaken; [apply nextTurn_ok, Hkeeps|]. simpl.
  intros _ g' (Hok' & Hps' & _ & _ & Hover'). split; [done|].
  intros Hg'. rewrite Hps'.
  apply (keeps_live _ _ Hkeeps Hlive), Hover', Hg'.
Qed.

Lemma handleDrawCard_ok g tp :
  table_ok g → live_ok g →
  returns handleDrawCard g tp (λ _ g', table_ok g' ∧ live_ok g').
Proof.
  intros Hok Hlive. unfold handleDrawCard, returns. rewrite bind_get.
  case_decide.
  - by apply returns_ret.
  - apply executeDraw_ok; [done..|]. apply (ok_pointer _ Hok).
Qed.

Lemma advancePointer_keeps g tp :
  table_ok g →
  returns advancePointer g tp
    (λ _ g', keeps g g' ∧ players g' = players g ∧ direction g' = direction g
             ∧ currentPlayerIndex g' = wrap (currentPlayerIndex g + direction g)).
Proof.
  intros Hok. eexists tt, _, tp. split; [reflexivity|].
  split; [|done]. apply keeps_pointer; [done|].
  apply wrap_step_range; [apply (ok_pointer _ Hok)|apply (ok_direction _ Hok)].
Qed.

Lemma forceDraw_keeps amount g tp :
  table_ok g → returns (forceDraw amount) g tp (λ _ g', keeps g g').
Proof.
  intros Hok. destruct (table_ok_current g Hok) as [p Hp].
  unfold forceDraw, returns. rewrite bind_get.
  eapply returns_weaken; [by apply (forceDrawLoop_returns amount _ g tp p)|].
  simpl. tauto.
Qed.

Lemma applyEffect_keeps playerIndex v g tp :
  table_ok g → returns (applyEffect playerIndex v) g tp (λ _ g', keeps g g').
Proof.
  intros Hok.
  assert (returns (advancePointer ;; forceDraw 2 ;; ret false) g tp
            (λ _ g', keeps g g')
          ∧ returns (advancePointer ;; forceDraw 5 ;; ret false) g tp
              (λ _ g', keeps g g')) as [Htwo Hfive].
  { split.
    all: eapply returns_bind; [by apply advancePointer_keeps|]; simpl.
    all: intros _ g1 tp1 (Hkeeps1 & _).
    all: eapply returns_bind; [apply forceDraw_keeps, Hkeeps1|]; simpl.
    all: intros _ g2 tp2 Hkeeps2; apply returns_ret.
    all: by eapply keeps_trans. }
  destruct v; simpl; try (by apply returns_ret, keeps_refl); try done.
  - eapply returns_bind; [by apply advancePointer_keeps|]. simpl.
    intros _ g1 tp1 (Hkeeps1 & _). by apply returns_ret.
  - eapply returns_bind; [by apply handlePassCardRule_returns|]. simpl.
    intros _ g1 tp1 (Hkeeps1 & _). by apply returns_ret.
  - case_decide.
    + eexists true, _, tp. split; [reflexivity|]. by apply keeps_aiTimers.
    + by apply returns_ret, keeps_refl.
  - eexists false, _, tp. split; [reflexivity|].
    apply keeps_direction; [done|]. destruct (ok_direction _ Hok) as [-> | ->]; lia.
Qed.

(** ** Playing a card *)

Lemma at_index_hand {A} (l : list A) i x :
  at_index l i = Some x → i = Z.of_nat (Z.to_nat i) ∧ l !! Z.to_nat i = Some x.
Proof. intros [Hi Hx]%at_index_Some. split; [lia|done]. Qed.

(** What [handleCardPlay] does with a card it accepts. *)
Lemma handleCardPlay_accepted g tp playerIndex cardIndex player c :
  gameOver g = false →
  at_index (players g) playerIndex = Some player →
  at_index (Player.hand player) cardIndex = Some c →
  isValidMove (Some c) g tp = Return true g tp →
  handleCardPlay playerIndex cardIndex g tp =
    let g1 := played playerIndex (Z.to_nat cardIndex) player c g in
    if decide (delete (Z.to_nat cardIndex) (Player.hand player) = [])
    then Return (Some true)
           (won (Player.set_hand [] player) g1) tp
    else (early ← applyEffect playerIndex (Card.value c);
          if early : bool then ret (Some true) else nextTurn ;; ret (Some true))
           g1 tp.
Proof.
  intros Hlive Hplayer Hcard Hvalid.
  pose proof Hplayer as [Hpos Hlook]%at_index_Some.
  pose proof Hcard as [Hidx Hc]%at_index_hand.
  unfold handleCardPlay. rewrite bind_get, Hlive.
  rewrite (bind_Return _ _ _ _ _ _ _ (playerAt_Some _ _ _ _ Hplayer)).
  rewrite Hcard. rewrite (bind_Return _ _ _ _ _ _ _ Hvalid). cbn [negb].
  rewrite !bind_modify. rewrite (alter_insert _ _ _ _ Hlook).
  assert ((Player.playCard cardIndex player).2
          = Player.set_hand (delete (Z.to_nat cardIndex) (Player.hand player)) player)
    as ->.
  { unfold Player.playCard. rewrite Hidx at 1.
    by rewrite (splice1_in_range _ _ _ Hc). }
  fold (played playerIndex (Z.to_nat cardIndex) player c g).
  set (g1 := played _ _ _ _ _).
  set (player' := Player.set_hand _ player).
  assert (at_index (players g1) playerIndex = Some player') as Hplayer1.
  { apply at_index_Some. split; [done|]. subst g1. simpl.
    apply list_lookup_insert_eq. by eapply lookup_lt_Some. }
  rewrite (bind_Return _ _ _ _ _ _ _ (playerAt_Some _ _ _ _ Hplayer1)).
  cbv zeta. subst player'. simpl Player.hand.
  destruct (delete (Z.to_nat cardIndex) (Player.hand player)) as [|x rest] eqn:Hrest.
  - rewrite decide_True by done. rewrite decide_True by done.
    rewrite (bind_Return _ _ _ _ _ _ _ (handleWin_Some _ _ _ _ Hplayer1)).
    reflexivity.
  - rewrite decide_False by done. rewrite decide_False by done. reflexivity.
Qed.

Lemma table_ok_played g playerIndex i player c :
  table_ok g →
  at_index (players g) playerIndex = Some player →
  Player.hand player !! i = Some c →
  table_ok (played playerIndex i player c g).
Proof.
  intros Hok [_ Hlook]%at_index_Some Hc. destruct Hok.
  split; simpl; try done.
  - by rewrite length_insert.
  - rewrite (assoc_L (++)), Forall_app. split; [done|].
    rewrite Forall_singleton. by eexists.
  - by destruct (discardPile g).
  - unfold cards in *. simpl. rewrite <-ok_cards0, defined_app. simpl.
    pose proof (hands_insert (players g) _ player
                  (delete i (Player.hand player)) Hlook) as Hh.
    pose proof (delete_Permutation _ _ _ Hc) as Hperm.
    set (rest := delete i (Player.hand player)) in *.
    assert (c :: hands (<[Z.to_nat playerIndex := Player.set_hand rest player]>
                          (players g)) ≡ₚ hands (players g)) as Hkey.
    { apply (Permutation_app_inv_r rest). rewrite <-Hh, Hperm. simpl.
      by rewrite <-Permutation_middle. }
    rewrite <-Hkey. rewrite <-!(assoc_L (++)). simpl.
    by rewrite <-Permutation_middle.
Qed.

Lemma handleCardPlay_ok playerIndex cardIndex g tp :
  table_ok g → live_ok g →
  well_formed_call g (HandleCardPlay playerIndex cardIndex) = true →
  returns (handleCardPlay playerIndex cardIndex) g tp
    (λ _ g', table_ok g' ∧ live_ok g').
Proof.
  intros Hok Hlive Hcall. simpl in Hcall.
  destruct (at_index (players g) playerIndex) as [player|] eqn:Hplayer; [|done].
  apply bool_decide_eq_true in Hcall.
  destruct (lookup_lt_is_Some_2 (Player.hand player) (Z.to_nat cardIndex))
    as [c Hc]; [lia|].
  assert (at_index (Player.hand player) cardIndex = Some c) as Hcard
    by (apply at_index_Some; split; [lia|done]).
  destruct (gameOver g) eqn:Hover.
  { unfold returns. rewrite handleCardPlay_over by done. by apply returns_ret. }
  destruct (table_ok_top g Hok) as [top Htop].
  pose proof (isValidMove_defined g tp top c Htop) as Hvalid.
  destruct (bool_decide (matches top c)) eqn:Hmatch.
  2:{ apply bool_decide_eq_false in Hmatch.
      unfold returns.
      rewrite (handleCardPlay_rejected g tp playerIndex cardIndex
                 player top c Hover Hplayer Htop Hcard Hmatch).
      by apply returns_ret. }
  unfold returns. rewrite (handleCardPlay_accepted _ _ _ _ _ _ Hover Hplayer Hcard Hvalid).
  cbv zeta.
  pose proof (table_ok_played g playerIndex _ player c Hok Hplayer Hc) as Hok1.
  case_decide as Hrest.
  - eexists _, _, _. split; [reflexivity|]. split; [by apply table_ok_won|].
    by intros ?.
  - assert (all_holding (players (played playerIndex (Z.to_nat cardIndex) player c g)))
      as Hhold1 by (by apply all_holding_insert; [apply Hlive|]).
    eapply returns_bind; [by apply applyEffect_keeps|]. simpl.
    intros early g2 tp2 (Hok2 & Hover2 & Hhold2). destruct early.
    + apply returns_ret. split; [done|]. intros _. by apply Hhold2.
    + eapply returns_bind; [by apply nextTurn_ok|]. simpl.
      intros _ g3 tp3 (Hok3 & Hps3 & _). apply returns_ret. split; [done|].
      intros _. rewrite Hps3. by apply Hhold2.
Qed.

(** ** The AI turn *)

Lemma findValidIndex_run g tp top hand i :
  getTopCard g = Some top → 0 ≤ i →
  ∃ idx, findValidIndex hand i g tp = Return idx g tp
         ∧ (idx = -1 ∨ i ≤ idx < i + Z.of_nat (length hand)).
Proof.
  intros Htop. revert i. induction hand as [|c hand IH]; intros i Hi.
  - exists (-1). split; [done|by left].
  - cbn [findValidIndex].
    rewrite (bind_Return _ _ _ _ _ _ _ (isValidMove_defined g tp top c Htop)).
    destruct (bool_decide (matches top c)).
    + exists i. split; [done|]. right. simpl. lia.
    + destruct (IH (i + 1) ltac:(lia)) as (idx & Hrun & Hidx).
      exists idx. split; [done|]. simpl. lia.
Qed.

Lemma playAiTurn_ok g tp :
  table_ok g → live_ok g →
  returns playAiTurn g tp (λ _ g', table_ok g' ∧ live_ok g').
Proof.
  intros Hok Hlive. unfold playAiTurn, returns. rewrite bind_get.
  destruct (gameOver g) eqn:Hover; [by apply returns_ret|].
  destruct (table_ok_current g Hok) as [ai Hai].
  rewrite (bind_Return _ _ _ _ _ _ _ (playerAt_Some _ _ _ _ Hai)).
  destruct (table_ok_top g Hok) as [top Htop].
  destruct (findValidIndex_run g tp top (Player.hand ai) 0 Htop ltac:(lia))
    as (idx & Hfind & Hidx).
  rewrite (bind_Return _ _ _ _ _ _ _ Hfind).
  case_decide as Hfound.
  - apply returns_detached. apply returns_final.
    apply handleCardPlay_ok; [done..|]. simpl. rewrite Hai.
    apply bool_decide_eq_true. lia.
  - apply executeDraw_ok; [done..|]. apply (ok_pointer _ Hok).
Qed.

(** ** Dealing *)

Lemma dealRound_spec ps d :
  Forall is_Some d → (length ps ≤ length d)%nat →
  ∃ qs d', dealRound ps d = (qs, d')
    ∧ length d' = (length d - length ps)%nat
    ∧ Forall is_Some d'
    ∧ defined d' ++ hands qs ≡ₚ defined d ++ hands ps
    ∧ Forall2 (λ p q, length (Player.hand q) = S (length (Player.hand p))
                      ∧ Player.id q = Player.id p
                      ∧ Player.name q = Player.name p) ps qs.
Proof.
  revert d. induction ps as [|p ps IH]; intros d Hall Hlen.
  - exists [], d. simpl. repeat split; try done. lia.
  - cbn [dealRound]. unfold Deck.draw.
    destruct (pop_cases d) as [[-> _]|(d1 & x & -> & ->)]; [simpl in Hlen; lia|].
    rewrite Forall_app, Forall_singleton in Hall. destruct Hall as [Hall1 [c ->]].
    rewrite length_app in Hlen. simpl in Hlen.
    destruct (IH d1 Hall1 ltac:(lia)) as (qs & d' & -> & Hlen' & Hall' & Hperm & Hrel).
    eexists _, _. split; [reflexivity|].
    split; [rewrite length_app; simpl; lia|]. split; [done|]. split.
    + rewrite defined_app. unfold hands in *. simpl.
      rewrite (assoc_L (++) (defined d')), (comm (++) (defined d')).
      rewrite <-!(assoc_L (++)). rewrite Hperm. solve_Permutation.
    + constructor; [|done]. simpl. rewrite length_app. simpl. split; [lia|done].
Qed.

Lemma dealRounds_spec n ps d :
  Forall is_Some d → (n * length ps ≤ length d)%nat →
  ∃ qs d', dealRounds n ps d = (qs, d')
    ∧ length d' = (length d - n * length ps)%nat
    ∧ Forall is_Some d'
    ∧ defined d' ++ hands qs ≡ₚ defined d ++ hands ps
    ∧ Forall2 (λ p q, length (Player.hand q) = (n + length (Player.hand p))%nat
                      ∧ Player.id q = Player.id p
                      ∧ Player.name q = Player.name p) ps qs.
Proof.
  revert ps d. induction n as [|n IH]; intros ps d Hall Hlen.
  - exists ps, d. simpl. repeat split; try done; [lia|].
    apply Forall2_same_length_lookup_2; [done|]. by intros i p q -> [= ->].
  - cbn [dealRounds].
    destruct (dealRound_spec ps d Hall ltac:(lia))
      as (qs1 & d1 & -> & Hlen1 & Hall1 & Hperm1 & Hrel1).
    pose proof (Forall2_length _ _ _ Hrel1) as Hsame.
    destruct (IH qs1 d1 Hall1 ltac:(nia))
      as (qs & d' & -> & Hlen' & Hall' & Hperm & Hrel).
    eexists _, _. split; [reflexivity|]. split; [nia|]. split; [done|].
    split; [by rewrite Hperm|].
    apply Forall2_same_length_lookup_2.
    { by rewrite (Forall2_length _ _ _ Hrel1), (Forall2_length _ _ _ Hrel). }
    intros i p q Hp Hq.
    destruct (Forall2_lookup_l _ _ _ _ _ Hrel1 Hp) as (q1 & Hq1 & H1 & H2 & H3).
    destruct (Forall2_lookup_l _ _ _ _ _ Hrel Hq1) as (q' & Hq' & H1' & H2' & H3').
    simplify_eq. repeat split; [lia|congruence..].
Qed.

(** ** Starting a game *)

Lemma init_run g tp :
  init g tp =
    let shuffled := Deck.shuffle (deck g) tp in
    let start := random_floor 4 shuffled.2 in
    let dealt := dealRounds 7 (Player.set_hand [] <$> players g) shuffled.1 in
    let flipped := pop dealt.2 in
    Return tt
      (make flipped.2 dealt.1 [flipped.1] (Z.of_nat start.1)
         (direction g) (gameOver g) (winnerText g)
         (if decide (Z.of_nat start.1 ≠ 0) then S (aiTimers g) else aiTimers g))
      start.2.
Proof.
  unfold init. rewrite (bind_Return _ _ _ _ _ _ _ (deckShuffle_run _ _)).
  rewrite !bind_modify.
  destruct (Deck.shuffle (deck g) tp) as [d tp1]. cbv zeta. cbn [fst snd].
  unfold mbind at 1, M_bind at 1, bind at 1.
  destruct (random_floor 4 tp1) as [r tp2]. cbn [fst snd].
  rewrite bind_modify.
  cbn [players deck set_deck set_players set_discardPile set_currentPlayerIndex].
  destruct (dealRounds 7 (Player.set_hand [] <$> players g) d) as [ps d'].
  rewrite (bind_Return _ _ _ _ _ _ _ (deckDraw_run _ _)).
  rewrite bind_modify, bind_get. simpl. by case_decide.
Qed.

Lemma reset_defined : Forall is_Some Deck.reset ∧ length Deck.reset = 54%nat.
Proof. split; [|reflexivity]. unfold Deck.reset. simpl. repeat constructor; by eexists. Qed.

(** The game [new Game()] leaves: 7 cards for each of the four seats, one
    card face up, 25 cards in the deck, a starting seat and no winner. *)
Lemma new_dealt tp :
  ∃ d ps c r tp',
    new tp =
      Return tt
        (make d ps [Some c] (Z.of_nat r) 1 false ""
           (if decide (Z.of_nat r ≠ 0) then 1%nat else 0%nat)) tp'
    ∧ (r < 4)%nat
    ∧ r = (random_floor 4 (Deck.shuffle Deck.reset tp).2).1
    ∧ length d = 25%nat ∧ Forall is_Some d
    ∧ Forall2 (λ p q, length (Player.hand q) = 7%nat
                      ∧ Player.id q = Player.id p
                      ∧ Player.name q = Player.name p) seats ps
    ∧ defined d ++ [c] ++ hands ps ≡ₚ UNIVERSE.
Proof.
  unfold new. rewrite init_run. cbv zeta.
  change (deck constructed) with Deck.reset.
  change (Player.set_hand [] <$> players constructed) with seats.
  change (direction constructed) with 1.
  change (gameOver constructed) with false.
  change (winnerText constructed) with EmptyString.
  change (aiTimers constructed) with 0%nat.
  pose proof (shuffle_Permutation Deck.reset tp) as Hshuffle.
  destruct (Deck.shuffle Deck.reset tp) as [d0 tp1]. cbn [fst snd] in *.
  destruct reset_defined as [Hall Hlen].
  rewrite <-Hshuffle in Hall, Hlen.
  pose proof (random_floor_lt 4 tp1 ltac:(lia)) as Hstart.
  destruct (random_floor 4 tp1) as [r tp2]. cbn [fst snd] in *.
  destruct (dealRounds_spec 7 seats d0 Hall ltac:(simpl; lia))
    as (ps & d1 & -> & Hlen1 & Hall1 & Hperm1 & Hrel). cbn [fst snd].
  destruct (pop_cases d1) as [[-> _]|(d & x & -> & ->)]; [simpl in Hlen1; lia|].
  rewrite Forall_app, Forall_singleton in Hall1. destruct Hall1 as [Hall2 [c ->]].
  rewrite length_app in Hlen1. simpl in Hlen1.
  exists d, ps, c, r, tp2. cbn [fst snd].
  split; [done|]. split; [done|]. split; [done|]. split; [lia|].
  split; [done|]. split.
  - unfold seats in Hrel.
    apply Forall2_cons_inv_l in Hrel as (q0 & ps0 & H0 & Hrel & ->).
    apply Forall2_cons_inv_l in Hrel as (q1 & ps1 & H1 & Hrel & ->).
    apply Forall2_cons_inv_l in Hrel as (q2 & ps2 & H2 & Hrel & ->).
    apply Forall2_cons_inv_l in Hrel as (q3 & ps3 & H3 & Hrel & ->).
    apply Forall2_nil_inv_l in Hrel as ->. simpl in H0, H1, H2, H3.
    unfold seats. repeat (constructor; [simpl; tauto|]). constructor.
  - unfold UNIVERSE. unfold defined at 2. rewrite <-Hshuffle.
    rewrite defined_app in Hperm1. simpl in Hperm1.
    change (hands seats) with (@nil Card.t) in Hperm1.
    rewrite app_nil_r in Hperm1. rewrite <-Hperm1.
    by rewrite <-(assoc_L (++)).
Qed.

Lemma new_ok tp : table_ok (final (new tp)) ∧ live_ok (final (new tp)).
Proof.
  destruct (new_dealt tp)
    as (d & ps & c & r & tp' & -> & Hr & _ & Hlen & Hall & Hrel & Hperm).
  simpl. split.
  - split; simpl.
    + by rewrite <-(Forall2_length _ _ _ Hrel).
    + lia.
    + by left.
    + rewrite Forall_app, Forall_singleton. split; [done|by eexists].
    + done.
    + exact Hperm.
  - intros _. simpl. unfold all_holding.
    apply Forall_lookup_2. intros i q Hq.
    destruct (Forall2_lookup_r _ _ _ _ _ Hrel Hq) as (p & _ & Hseven & _).
    simpl in Hseven. by destruct (Player.hand q).
Qed.

Lemma perform_ok c g tp :
  table_ok g → live_ok g → well_formed_call g c = true →
  table_ok (perform c g tp) ∧ live_ok (perform c g tp).
Proof.
  intros Hok Hlive Hcall. destruct c as [p i| |p| |amount| | | |]; cbn [perform].
  - by apply (returns_final (handleCardPlay p i)), handleCardPlay_ok.
  - by apply (returns_final handleDrawCard), handleDrawCard_ok.
  - apply (returns_final (executeDraw p)), executeDraw_ok; [done..|].
    simpl in Hcall. by apply bool_decide_eq_true in Hcall.
  - by apply (returns_final playAiTurn), playAiTurn_ok.
  - apply (returns_final (forceDraw amount)).
    eapply returns_weaken; [by apply forceDraw_keeps|]. simpl.
    intros _ g' Hkeeps. split; [apply Hkeeps|by eapply keeps_live].
  - apply (returns_final handlePassCardRule).
    eapply returns_weaken; [by apply handlePassCardRule_returns|]. simpl.
    intros _ g' (Hkeeps & _). split; [apply Hkeeps|by eapply keeps_live].
  - apply (returns_final recycleDeck).
    eapply returns_weaken; [by apply recycleDeck_returns|]. simpl.
    intros _ g' (d & dp & -> & Hperm & Hdp & _).
    assert (keeps g (set_deck d (set_discardPile dp g))) as Hkeeps
      by (apply keeps_piles; [done..|apply Hdp, (ok_top _ Hok)]).
    split; [apply Hkeeps|by eapply keeps_live].
  - apply (returns_final nextTurn).
    eapply returns_weaken; [by apply nextTurn_ok|]. simpl.
    intros _ g' (Hok' & Hps & _ & _ & Hover). split; [done|].
    intros Hg'. rewrite Hps. by apply Hlive, Hover.
  - apply (returns_final advancePointer).
    eapply returns_weaken; [by apply advancePointer_keeps|]. simpl.
    intros _ g' (Hkeeps & _). split; [apply Hkeeps|by eapply keeps_live].
Qed.

Lemma reachable_ok g : reachable g → table_ok g ∧ live_ok g.
Proof.
  induction 1 as [tp|g c tp _ [Hok Hlive] Hcall].
  - apply new_ok.
  - by apply perform_ok.
Qed.

Lemma reachable_replay cs g :
  reachable g → replayable cs g = true → reachable (replay cs g).
Proof.
  revert g. induction cs as [|c cs IH]; intros g Hg Hcs; [done|].
  simpl in *. apply andb_prop in Hcs as [Hc Hcs].
  apply IH; [|done]. by apply reachable_step.
Qed.

(** ** The universe of cards *)

Lemma UNIVERSE_composition :
  UNIVERSE =
    (s ← SUITS; v ← VALUES; [Card.make s v])
    ++ [Card.make Card.JokerSuit Card.VX; Card.make Card.JokerSuit Card.VX]
  ∧ NoDup (s ← SUITS; v ← VALUES; [Card.make s v])
  ∧ length (s ← SUITS; v ← VALUES; [Card.make s v]) = 52%nat
  ∧ length UNIVERSE = 54%nat.
Proof.
  split; [reflexivity|]. split; [|by split].
  apply (bool_decide_unpack _). vm_compute. exact I.
Qed.

(** C1. In every state reachable from [new Game()] by the methods that act
    on a game in progress (playing a card of a hand, drawing, the forced
    draw, the pass-around, recycling, the AI turn, passing the turn), the
    cards of the deck, the discard pile and the four hands taken together
    are, as a multiset, the 54 cards [Deck.reset] builds: the 52 distinct
    suit-value pairs and two Jokers. *)
Theorem universe_conserved g :
  reachable g →
  defined (deck g) ++ defined (discardPile g) ++ hands (players g)
  ≡ₚ (s ← SUITS; v ← VALUES; [Card.make s v])
      ++ [Card.make Card.JokerSuit Card.VX; Card.make Card.JokerSuit Card.VX]
  ∧ NoDup (s ← SUITS; v ← VALUES; [Card.make s v])
  ∧ length (s ← SUITS; v ← VALUES; [Card.make s v]) = 52%nat.
Proof.
  intros Hg. destruct (reachable_ok g Hg) as [Hok _].
  destruct UNIVERSE_composition as (Huniverse & Hdistinct & Hcount & _).
  split; [|by split]. rewrite <-Huniverse. apply (ok_cards _ Hok).
Qed.

Lemma universe_conserved_witness :
  let g := replay [HandleCardPlay 0 0; PlayAiTurn; ExecuteDraw 0] seat1_starts in
  defined (deck g) ++ defined (discardPile g) ++ hands (players g)
  ≡ₚ (s ← SUITS; v ← VALUES; [Card.make s v])
      ++ [Card.make Card.JokerSuit Card.VX; Card.make Card.JokerSuit Card.VX].
Proof.
  intros g. apply (universe_conserved g).
  apply reachable_replay; [apply reachable_new|]. vm_compute. reflexivity.
Defined.

(** ** Drawing from an empty deck *)

(** C10. When the seat to move draws in a game in progress while the deck
    is empty and the discard pile holds at most one card, [executeDraw]
    returns without throwing: recycling changes nothing, the drawn value is
    [undefined] and [receiveCard] drops it, so the deck, the discard pile and
    every hand are as before, and the pointer moves one seat on in the
    direction of play, the next seat's AI turn being scheduled as after any
    draw. *)
Theorem exhausted_draw_passes_turn g tp :
  reachable g →
  gameOver g = false →
  deck g = [] →
  (length (discardPile g) ≤ 1)%nat →
  recycleDeck g tp = Return tt g tp
  ∧ Deck.draw (deck g) = (None, [])
  ∧ (∀ p, Player.receiveCard None p = p)
  ∧ executeDraw (currentPlayerIndex g) g tp = Return tt (turn_passed g) tp
  ∧ deck (turn_passed g) = deck g
  ∧ discardPile (turn_passed g) = discardPile g
  ∧ players (turn_passed g) = players g
  ∧ currentPlayerIndex (turn_passed g) =
      (currentPlayerIndex g + direction g) mod 4.
Proof.
  intros Hreach Hover Hdeck Hshort.
  destruct (reachable_ok g Hreach) as [Hok Hlive].
  destruct (table_ok_current g Hok) as [p Hp].
  split; [by apply recycleDeck_short|].
  split; [by rewrite Hdeck|]. split; [done|].
  split; [|repeat split].
  - rewrite (executeDraw_exhausted _ _ _ p) by done.
    apply (nextTurn_pass g tp p); [done..|].
    pose proof Hp as [_ Hlook]%at_index_Some.
    apply (Forall_lookup_1 _ _ _ _ (Hlive Hover) Hlook).
  - simpl. apply wrap_mod; [apply (ok_pointer _ Hok)|apply (ok_direction _ Hok)].
Qed.

Lemma exhausted_draw_passes_turn_witness :
  currentPlayerIndex deck_drawn_out = 1
  ∧ executeDraw 1 deck_drawn_out [] = Return tt (turn_passed deck_drawn_out) []
  ∧ currentPlayerIndex (turn_passed deck_drawn_out) = 2
  ∧ players (turn_passed deck_drawn_out) = players deck_drawn_out.
Proof.
  assert (reachable deck_drawn_out) as Hreach.
  { apply reachable_replay; [apply reachable_new|]. vm_compute. reflexivity. }
  destruct (exhausted_draw_passes_turn deck_drawn_out [] Hreach)
    as (_ & _ & _ & Hrun & _ & _ & Hps & Hnext).
  - vm_compute. reflexivity.
  - vm_compute. reflexivity.
  - vm_compute. lia.
  - split; [vm_compute; reflexivity|]. split; [exact Hrun|].
    split; [|exact Hps]. rewrite Hnext. vm_compute. reflexivity.
Defined.

Lemma executeDraw_recycled g tp p old top :
  deck g = [] →
  at_index (players g) (currentPlayerIndex g) = Some p →
  discardPile g = old ++ [top] → old ≠ [] → Forall is_Some old →
  ∃ c d tp',
    d ++ [Some c] ≡ₚ old
    ∧ executeDraw (currentPlayerIndex g) g tp =
        nextTurn
          (set_players
             (<[Z.to_nat (currentPlayerIndex g) :=
                  Player.set_hand (Player.hand p ++ [c]) p]> (players g))
             (set_deck d (set_discardPile [top] g))) tp'.
Proof.
  intros Hdeck Hp Hdp Hold Hall.
  pose proof (recycleDeck_long g tp old top Hdp Hold) as Hrecycle.
  rewrite Hdeck in Hrecycle. simpl in Hrecycle.
  pose proof (shuffle_Permutation old tp) as Hshuffle.
  destruct (Deck.shuffle old tp) as [d' tp']. simpl in *.
  destruct (pop_cases d') as [[-> _]|(d & x & -> & Hpop)].
  { apply Permutation_nil_l in Hshuffle. by destruct Hold. }
  assert (is_Some x) as [c ->].
  { rewrite <-Hshuffle, Forall_app, Forall_singleton in Hall. tauto. }
  exists c, d, tp'. split; [done|].
  rewrite (executeDraw_run _ g tp
             (set_deck (d ++ [Some c]) (set_discardPile [top] g)) tp' p).
  - change (deck (set_deck (d ++ [Some c]) (set_discardPile [top] g)))
      with (d ++ [Some c]).
    rewrite pop_snoc. cbn [fst snd].
    by rewrite (receiveAt_defined _ _ p).
  - rewrite Hdeck. simpl. exact Hrecycle.
  - done.
Qed.

(** C8, as the code has it.  When the seat to move draws from an empty
    deck: with at most one card on the discard pile no error is signalled,
    the call returns with the deck, the discard pile and the hands as they
    were; with two or more cards on the discard pile, all of them cards, the
    draw first recycles, keeping the top card as the only discard and
    shuffling the others into the deck, and then moves exactly one of those
    to the hand of the seat. *)
Theorem draw_on_empty_deck g tp p :
  deck g = [] →
  at_index (players g) (currentPlayerIndex g) = Some p →
  ((length (discardPile g) ≤ 1)%nat →
   ∃ g', executeDraw (currentPlayerIndex g) g tp = Return tt g' tp
         ∧ deck g' = [] ∧ discardPile g' = discardPile g
         ∧ players g' = players g)
  ∧ (∀ old top,
       discardPile g = old ++ [top] → old ≠ [] → Forall is_Some old →
       ∃ c d g' tp',
         executeDraw (currentPlayerIndex g) g tp = Return tt g' tp'
         ∧ discardPile g' = [top]
         ∧ deck g' = d ∧ d ++ [Some c] ≡ₚ old
         ∧ players g' =
             <[Z.to_nat (currentPlayerIndex g) :=
                 Player.set_hand (Player.hand p ++ [c]) p]> (players g)).
Proof.
  intros Hdeck Hp. split.
  - intros Hshort. rewrite (executeDraw_exhausted _ _ _ p) by done.
    destruct (nextTurn_returns g tp p Hp)
      as ([] & g' & tp' & Hrun & Hd & Hps & Hdp & _ & Hcases & _).
    exists g'. split; [|by rewrite Hd, Hdeck].
    rewrite Hrun. f_equal.
    destruct (gameOver g) eqn:Hover.
    + rewrite nextTurn_over in Hrun by done. by inversion Hrun.
    + destruct (decide (Player.hand p = [])) as [Hh|Hh].
      * rewrite (nextTurn_win _ _ p) in Hrun by done. by inversion Hrun.
      * rewrite (nextTurn_pass _ _ p) in Hrun by done. by inversion Hrun.
  - intros old top Hdp Hold Hall.
    destruct (executeDraw_recycled g tp p old top Hdeck Hp Hdp Hold Hall)
      as (c & d & tp' & Hperm & ->).
    set (g2 := set_players _ _).
    assert (at_index (players g2) (currentPlayerIndex g2)
            = Some (Player.set_hand (Player.hand p ++ [c]) p)) as Hp2.
    { pose proof Hp as [Hpos Hlook]%at_index_Some.
      apply at_index_Some. split; [done|]. subst g2. simpl.
      apply list_lookup_insert_eq. by eapply lookup_lt_Some. }
    destruct (nextTurn_returns g2 tp' _ Hp2)
      as ([] & g' & tp'' & Hrun & Hd & Hps & Hdp' & _).
    exists c, d, g', tp''. by rewrite Hrun, Hd, Hps, Hdp'.
Qed.

Lemma draw_on_empty_deck_witness :
  (∃ g', executeDraw 1 deck_drawn_out [] = Return tt g' []
         ∧ players g' = players deck_drawn_out)
  ∧ (∃ c g' tp',
       executeDraw 3 deck_drawn_after_play [] = Return tt g' tp'
       ∧ discardPile g' = [Some (Card.make Card.JokerSuit Card.VX)]
       ∧ deck g' ++ [Some c] ≡ₚ [Some (Card.make Card.Ruit Card.V2)]).
Proof.
  split.
  - destruct (at_index (players deck_drawn_out) 1) as [p|] eqn:Hp;
      [|by vm_compute in Hp].
    destruct (draw_on_empty_deck deck_drawn_out [] p eq_refl Hp) as [Hshort _].
    destruct Hshort as (g' & Hrun & _ & _ & Hps); [vm_compute; lia|].
    exists g'. split; [exact Hrun|exact Hps].
  - destruct (at_index (players deck_drawn_after_play) 3) as [p|] eqn:Hp;
      [|by vm_compute in Hp].
    destruct (draw_on_empty_deck deck_drawn_after_play [] p eq_refl Hp) as [_ Hlong].
    destruct (Hlong [Some (Card.make Card.Ruit Card.V2)]
                (Some (Card.make Card.JokerSuit Card.VX)))
      as (c & d & g' & tp' & Hrun & Hdp & Hd & Hperm & _).
    + vm_compute. reflexivity.
    + done.
    + repeat constructor. by eexists.
    + exists c, g', tp'. split; [exact Hrun|]. split; [exact Hdp|].
      by rewrite Hd.
Defined.

(** C8 as stated fails: with the deck empty and one card on the discard
    pile, the draw of the seat to move returns; nothing is thrown and no
    error is reported, and the turn passes to the next seat. *)
Lemma exhausted_draw_signals_no_error_counterexample :
  deck deck_drawn_out = []
  ∧ length (discardPile deck_drawn_out) = 1%nat
  ∧ currentPlayerIndex deck_drawn_out = 1
  ∧ ∃ g', executeDraw 1 deck_drawn_out [] = Return tt g' []
          ∧ players g' = players deck_drawn_out
          ∧ currentPlayerIndex g' = 2.
Proof.
  split; [by vm_compute|]. split; [by vm_compute|]. split; [by vm_compute|].
  eexists. split; [vm_compute; reflexivity|]. split; by vm_compute.
Qed.

(** ** The 10 *)

Lemma length_delete_lookup {A} (l : list A) i x :
  l !! i = Some x → length (delete i l) = (length l - 1)%nat.
Proof. intros H. apply length_delete. by eexists. Qed.

(** C6. The play of a 10 that is legal and not the last card of its hand,
    on four seats and with the direction at 1 or -1: the card goes to the
    discard pile, the pass-around runs on that state and [nextTurn] follows
    it.  The pass-around changes nothing but the hands (so not the pointer,
    the deck or the discard pile), and the cards held in the hands taken
    together are the same, so their total number is the same.  Seat [i]
    gives the card at position [Math.floor(Math.random() * hand.length)],
    on the number the random source holds when the loop reaches that seat:
    one number has been taken for every seat before it that held cards, none
    for a seat with an empty hand.  The seat next to seat [i] (position plus
    direction, modulo 4) ends with its own hand without the card at its own
    position, followed by the card of seat [i]: one card from a seat that
    held cards, none from a seat with an empty hand, which itself receives
    from the seat before it like any other.  Every position [k] of a hand of
    [n] cards has its share of the random numbers: seat [i] gives position
    [k] for every number [x] with [k / n <= x] and [x + 2^-53 <= (k + 1) / n]. *)
Theorem pass_around_moves_one_card_per_seat g tp playerIndex cardIndex player c :
  length (players g) = 4%nat →
  direction g = 1 ∨ direction g = -1 →
  gameOver g = false →
  at_index (players g) playerIndex = Some player →
  at_index (Player.hand player) cardIndex = Some c →
  Card.value c = Card.V10 →
  isValidMove (Some c) g tp = Return true g tp →
  (1 < length (Player.hand player))%nat →
  let g1 := played playerIndex (Z.to_nat cardIndex) player c g in
  let position (i : nat) (p : Player.t) : nat :=
    (random_floor (length (Player.hand p)) (seat_tape (players g1) i tp)).1 in
  ∃ g2,
    handleCardPlay playerIndex cardIndex g tp
    = (nextTurn ;; ret (Some true)) g2 (seat_tape (players g1) 4 tp)
    ∧ handlePassCardRule g1 tp = Return tt g2 (seat_tape (players g1) 4 tp)
    ∧ g2 = set_players (players g2) g1
    ∧ hands (players g2) ≡ₚ hands (players g1)
    ∧ length (hands (players g2)) = length (hands (players g1))
    ∧ (∀ i p,
         players g1 !! i = Some p →
         (Player.hand p ≠ [] → position i p < length (Player.hand p))%nat
         ∧ ∃ q,
             let next := Z.to_nat ((Z.of_nat i + direction g) mod 4) in
             players g1 !! next = Some q
             ∧ players g2 !! next =
                 Some (Player.set_hand
                         (delete (position next q) (Player.hand q)
                          ++ option_list (Player.hand p !! position i p)) q))
    ∧ (∀ i p (k : nat) r,
         players g1 !! i = Some p →
         seat_tape (players g1) i tp !! 0%nat = Some r →
         (N.of_nat (length (Player.hand p)) ≤ RANDOM_DENOMINATOR)%N →
         (k < length (Player.hand p))%nat →
         (N.of_nat k * RANDOM_DENOMINATOR ≤ r * N.of_nat (length (Player.hand p)))%N →
         ((r + 1) * N.of_nat (length (Player.hand p))
          ≤ (N.of_nat k + 1) * RANDOM_DENOMINATOR)%N →
         position i p = k).
Proof.
  intros Hlen Hdir Hover Hplayer Hcard Hten Hvalid Hmore g1 position.
  pose proof Hcard as [Hidx Hc]%at_index_hand.
  assert (delete (Z.to_nat cardIndex) (Player.hand player) ≠ []) as Hrest.
  { intros Hnil. apply (f_equal length) in Hnil.
    rewrite (length_delete_lookup _ _ _ Hc) in Hnil. simpl in Hnil. lia. }
  assert (length (players g1) = 4%nat) as Hlen1
    by (subst g1; simpl; by rewrite length_insert).
  destruct (four_seats _ Hlen1) as (p0 & p1 & p2 & p3 & Hps).
  pose proof (handlePassCardRule_on_tape g1 tp p0 p1 p2 p3 Hps Hdir) as Hrun.
  cbv zeta in Hrun. change (direction g1) with (direction g) in Hrun.
  subst position. cbv beta. rewrite Hps in Hrun. rewrite Hps.
  set (k0 := (random_floor (length (Player.hand p0))
                (seat_tape [p0; p1; p2; p3] 0 tp)).1) in *.
  set (k1 := (random_floor (length (Player.hand p1))
                (seat_tape [p0; p1; p2; p3] 1 tp)).1) in *.
  set (k2 := (random_floor (length (Player.hand p2))
                (seat_tape [p0; p1; p2; p3] 2 tp)).1) in *.
  set (k3 := (random_floor (length (Player.hand p3))
                (seat_tape [p0; p1; p2; p3] 3 tp)).1) in *.
  pose proof (hands_passed_on p0 k0 p1 k1 p2 k2 p3 k3) as [Hcw Hccw].
  eexists. split; [|split; [exact Hrun|]].
  { rewrite (handleCardPlay_accepted _ _ _ _ _ _ Hover Hplayer Hcard Hvalid).
    cbv zeta. rewrite decide_False by done. fold g1. rewrite Hten.
    cbn [applyEffect].
    by rewrite bind_assoc, (bind_Return _ _ _ _ _ _ _ Hrun), bind_ret. }
  split; [reflexivity|]. cbn [players set_players].
  assert (hands (if decide (direction g = 1)
                 then [passed_on p0 k0 p3 k3; passed_on p1 k1 p0 k0;
                       passed_on p2 k2 p1 k1; passed_on p3 k3 p2 k2]
                 else [passed_on p0 k0 p1 k1; passed_on p1 k1 p2 k2;
                       passed_on p2 k2 p3 k3; passed_on p3 k3 p0 k0])
          ≡ₚ hands [p0; p1; p2; p3]) as Hperm
    by (by destruct (decide (direction g = 1))).
  split; [exact Hperm|]. split; [by rewrite Hperm|]. split.
  - intros i p Hp. split.
    { intros Hhand. apply random_floor_lt.
      destruct (Player.hand p); [done|simpl; lia]. }
    destruct Hdir as [-> | ->];
      [destruct (decide (1 = 1)) as [_|?]; [|done]
      |destruct (decide (-1 = 1)) as [?|_]; [done|]].
    all: destruct i as [|[|[|[|i]]]]; try done.
    all: injection Hp as <-; eexists; split; reflexivity.
  - intros i p k r Hp Hr Hn Hk Hlow Hup.
    destruct (seat_tape [p0; p1; p2; p3] i tp) as [|r' rest]; [done|].
    injection Hr as ->.
    by rewrite (random_floor_band _ k r rest Hn Hk Hlow Hup).
Qed.

Lemma pass_around_moves_one_card_per_seat_witness :
  let h10 := Card.make Card.Hart Card.V10 in
  let h4 := Card.make Card.Hart Card.V4 in
  let h5 := Card.make Card.Hart Card.V5 in
  let r5 := Card.make Card.Ruit Card.V5 in
  let k6 := Card.make Card.Klaver Card.V6 in
  let you := Player.make 0 "You" [h10; h4; h5] in
  let g :=
    make []
      [you; Player.make 1 "Player 1" []; Player.make 2 "Player 2" [r5];
       Player.make 3 "Player 3" [k6]]
      [Some (Card.make Card.Schoppen Card.V10)] 0 1 false "" 0 in
  ∃ g2,
    handleCardPlay 0 0 g [2 ^ 52]%N = (nextTurn ;; ret (Some true)) g2 []
    ∧ handlePassCardRule (played 0 0 you h10 g) [2 ^ 52]%N = Return tt g2 []
    ∧ (Player.hand <$> players g2) = [[h4; k6]; [h5]; []; [r5]].
Proof.
  intros h10 h4 h5 r5 k6 you g.
  destruct (pass_around_moves_one_card_per_seat g [2 ^ 52]%N 0 0 you h10)
    as (g2 & Hplay & Hrun & _); try reflexivity.
  - by left.
  - vm_compute. lia.
  - change (seat_tape (players (played 0 (Z.to_nat 0) you h10 g)) 4 [2 ^ 52]%N)
      with (@nil N) in Hplay, Hrun.
    change (Z.to_nat 0) with 0%nat in Hrun.
    exists g2. split; [exact Hplay|]. split; [exact Hrun|].
    pose proof Hrun as Hcopy. vm_compute in Hcopy.
    injection Hcopy as <-. reflexivity.
Defined.

(** ** The 2 and the Joker *)

(** C5. In a reachable game in progress, when the seat to move plays a 2
    (a Joker) that is legal and not its last card, and the deck and the
    discard pile as it was before the play hold at least 2 (5) cards between
    them, the play returns [true] and the hands are those before the play
    except that the played card has left the hand of the actor and 2 (5)
    cards have been added to the hand of the seat that follows the actor in
    the direction of play, modulo 4, which is another seat. *)
Theorem forced_draw_lands_on_next_seat g tp cardIndex player c amount :
  reachable g →
  gameOver g = false →
  at_index (players g) (currentPlayerIndex g) = Some player →
  at_index (Player.hand player) cardIndex = Some c →
  (Card.value c = Card.V2 ∧ amount = 2%nat)
  ∨ (Card.value c = Card.VX ∧ amount = 5%nat) →
  isValidMove (Some c) g tp = Return true g tp →
  (1 < length (Player.hand player))%nat →
  (amount ≤ length (deck g) + length (discardPile g))%nat →
  ∃ g' tp' victim drawn,
    let next := (currentPlayerIndex g + direction g) mod 4 in
    handleCardPlay (currentPlayerIndex g) cardIndex g tp = Return (Some true) g' tp'
    ∧ next ≠ currentPlayerIndex g
    ∧ at_index (players g) next = Some victim
    ∧ length drawn = amount
    ∧ players g' =
        <[Z.to_nat next := Player.set_hand (Player.hand victim ++ drawn) victim]>
          (<[Z.to_nat (currentPlayerIndex g) :=
               Player.set_hand (delete (Z.to_nat cardIndex) (Player.hand player))
                 player]> (players g)).
Proof.
  intros Hreach Hover Hplayer Hcard Hvalue Hvalid Hmore Hstock.
  destruct (reachable_ok g Hreach) as [Hok _].
  pose proof Hcard as [Hidx Hc]%at_index_hand.
  pose proof Hplayer as [Hcur Hlook]%at_index_Some.
  pose proof (ok_pointer _ Hok) as Hrange.
  pose proof (ok_direction _ Hok) as Hdir.
  pose proof (wrap_mod _ _ Hrange Hdir) as Hwrap.
  set (next := (currentPlayerIndex g + direction g) mod 4) in *.
  assert (0 ≤ next < 4) as Hnext by (by apply Z.mod_pos_bound).
  assert (next ≠ currentPlayerIndex g) as Hother.
  { subst next. destruct Hdir as [-> | ->];
      assert (currentPlayerIndex g = 0 ∨ currentPlayerIndex g = 1
              ∨ currentPlayerIndex g = 2 ∨ currentPlayerIndex g = 3)
        as [-> | [-> | [-> | ->]]] by lia; done. }
  destruct (table_ok_seat g next Hok Hnext) as [victim Hvictim].
  rewrite (handleCardPlay_accepted _ _ _ _ _ _ Hover Hplayer Hcard Hvalid).
  cbv zeta. rewrite decide_False.
  2:{ intros Hnil. apply (f_equal length) in Hnil.
      rewrite (length_delete_lookup _ _ _ Hc) in Hnil. simpl in Hnil. lia. }
  set (g1 := played _ _ _ _ _).
  pose proof (table_ok_played g _ _ player c Hok Hplayer Hc) as Hok1.
  fold g1 in Hok1.
  assert (applyEffect (currentPlayerIndex g) (Card.value c)
          = (advancePointer ;; forceDraw amount ;; ret false)) as ->.
  { by destruct Hvalue as [[-> ->] | [-> ->]]. }
  destruct (advancePointer_keeps g1 tp Hok1)
    as ([] & g2 & tp2 & Hrun2 & (Hok2 & _) & Hps2 & Hdir2 & Hcur2).
  assert (currentPlayerIndex g2 = next) as Hcur2' by (by rewrite Hcur2).
  assert (at_index (players g2) next = Some victim) as Hvictim2.
  { rewrite Hps2. subst g1. simpl. apply at_index_Some. split; [lia|].
    rewrite list_lookup_insert_ne by lia.
    by apply at_index_Some in Hvictim as [_ ?]. }
  destruct (forceDrawLoop_returns amount next g2 tp2 victim Hok2 Hvictim2)
    as ([] & g3 & tp3 & Hrun3 & (Hok3 & _) & Hturn3 & drawn & Hps3 & Hdrawn).
  destruct (nextTurn_ok g3 tp3 Hok3) as ([] & g4 & tp4 & Hrun4 & _ & Hps4 & _).
  exists g4, tp4, victim, drawn. split; [|split; [done|split; [done|split]]].
  - rewrite (bind_assoc advancePointer).
    rewrite (bind_Return _ _ _ _ _ _ _ Hrun2).
    rewrite (bind_assoc (forceDraw amount)).
    unfold forceDraw at 1. rewrite bind_assoc, bind_get, Hcur2'.
    rewrite (bind_Return _ _ _ _ _ _ _ Hrun3).
    rewrite bind_ret. by rewrite (bind_Return _ _ _ _ _ _ _ Hrun4).
  - apply Hdrawn.
    assert (stock g2 = (length (deck g) + length (discardPile g))%nat) as ->; [|done].
    assert (deck g2 = deck g1 ∧ discardPile g2 = discardPile g1) as [Hd2 Hdp2].
    { unfold advancePointer, modify in Hrun2. by inversion Hrun2. }
    unfold stock. rewrite Hd2, Hdp2. subst g1. simpl.
    rewrite length_app. simpl. lia.
  - rewrite Hps4, Hps3, Hps2. by subst g1.
Qed.

Lemma forced_draw_lands_on_next_seat_witness :
  ∃ g' tp' victim drawn,
    handleCardPlay 1 0 seat1_starts [] = Return (Some true) g' tp'
    ∧ at_index (players seat1_starts) 2 = Some victim
    ∧ length drawn = 5%nat
    ∧ players g' !! 2%nat =
        Some (Player.set_hand (Player.hand victim ++ drawn) victim).
Proof.
  destruct (at_index (players seat1_starts) (currentPlayerIndex seat1_starts))
    as [player|] eqn:Hplayer; [|by vm_compute in Hplayer].
  assert (at_index (Player.hand player) 0
          = Some (Card.make Card.JokerSuit Card.VX)) as Hcard.
  { vm_compute in Hplayer. by injection Hplayer as <-. }
  destruct (forced_draw_lands_on_next_seat seat1_starts [] 0 player
              (Card.make Card.JokerSuit Card.VX) 5)
    as (g' & tp' & victim & drawn & Hrun & _ & Hvictim & Hdrawn & Hps).
  - apply reachable_new.
  - vm_compute. reflexivity.
  - exact Hplayer.
  - exact Hcard.
  - right. by split.
  - vm_compute. reflexivity.
  - vm_compute in Hplayer. injection Hplayer as <-. simpl. lia.
  - vm_compute. lia.
  - exists g', tp', victim, drawn.
    change (currentPlayerIndex seat1_starts) with 1 in *.
    change ((1 + direction seat1_starts) mod 4) with 2 in *.
    split; [exact Hrun|]. split; [exact Hvictim|]. split; [exact Hdrawn|].
    rewrite Hps. apply list_lookup_insert_eq.
    rewrite length_insert. vm_compute. lia.
Defined.

(** ** After the game is over *)

Lemma playAiTurn_over g tp : gameOver g = true → playAiTurn g tp = Return tt g tp.
Proof. intros H. unfold playAiTurn. rewrite bind_get, H. reflexivity. Qed.

(** [handleDrawCard] does not look at [gameOver]: with seat 0 under the
    pointer it draws as in a game in progress. *)
Lemma handleDrawCard_over g tp p d c :
  gameOver g = true → currentPlayerIndex g = 0 →
  at_index (players g) 0 = Some p → deck g = d ++ [Some c] →
  handleDrawCard g tp =
    Return tt
      (set_players (<[0%nat := Player.set_hand (Player.hand p ++ [c]) p]> (players g))
         (set_deck d g)) tp.
Proof.
  intros Hover Hcur Hp Hdeck. unfold handleDrawCard.
  rewrite bind_get, Hcur. rewrite decide_False by (by intros []).
  rewrite (executeDraw_stocked 0 g tp p d (Some c) Hdeck Hp).
  rewrite nextTurn_over by done.
  by rewrite (receiveAt_defined 0 c p).
Qed.

(** C7 fails on the code.  Seat 0 wins the game [seat0_game] on its own
    turn, so the game is over with the pointer on seat 0; playing a card and
    the AI turn then leave the game as it is, but a click on the deck still
    draws: the 2 of spades moves from the deck to the empty hand of the
    winner. *)
Theorem draw_after_game_over_changes_game :
  reachable seat0_has_won
  ∧ gameOver seat0_has_won = true
  ∧ currentPlayerIndex seat0_has_won = 0
  ∧ (Player.hand <$> players seat0_has_won) !! 0%nat = Some []
  ∧ length (deck seat0_has_won) = 13%nat
  ∧ handleCardPlay 0 0 seat0_has_won [] = Return None seat0_has_won []
  ∧ playAiTurn seat0_has_won [] = Return tt seat0_has_won []
  ∧ ∃ g', handleDrawCard seat0_has_won [] = Return tt g' []
          ∧ (Player.hand <$> players g') !! 0%nat
            = Some [Card.make Card.Schoppen Card.V2]
          ∧ length (deck g') = 12%nat
          ∧ g' ≠ seat0_has_won.
Proof.
  split.
  { apply reachable_replay; [apply reachable_new|]. vm_compute. reflexivity. }
  split; [by vm_compute|]. split; [by vm_compute|]. split; [by vm_compute|].
  split; [by vm_compute|].
  split; [by apply handleCardPlay_over; vm_compute|].
  split; [by apply playAiTurn_over; vm_compute|].
  eexists. split; [vm_compute; reflexivity|].
  split; [by vm_compute|]. split; [by vm_compute|].
  intros Heq. apply (f_equal (λ g, length (deck g))) in Heq.
  vm_compute in Heq. discriminate.
Qed.

(** ** Starting again *)

(** What the constructor's [init()] establishes: each of the four seats
    holds 7 cards, the discard pile holds one card, the deck holds the other
    25 of the 54 cards, the starting seat is [Math.floor(Math.random() * 4)]
    and lies in [[0,3]], and the game is not over. *)
Lemma first_init_deals tp :
  ∃ g tp',
    new tp = Return tt g tp'
    ∧ Forall (λ p, length (Player.hand p) = 7%nat) (players g)
    ∧ length (players g) = 4%nat
    ∧ (∃ c, discardPile g = [Some c])
    ∧ length (deck g) = 25%nat
    ∧ cards g ≡ₚ UNIVERSE
    ∧ 0 ≤ currentPlayerIndex g < 4
    ∧ gameOver g = false.
Proof.
  destruct (new_dealt tp)
    as (d & ps & c & r & tp' & -> & Hr & _ & Hlen & Hall & Hrel & Hperm).
  eexists _, _. split; [reflexivity|]. simpl.
  split; [|split; [|split; [|split; [|split; [|split]]]]]; try done.
  - apply Forall_lookup_2. intros i q Hq.
    by destruct (Forall2_lookup_r _ _ _ _ _ Hrel Hq) as (p & _ & Hseven & _).
  - by rewrite <-(Forall2_length _ _ _ Hrel).
  - by exists c.
  - lia.
Qed.



(** What [init()] would do on a finished game, where no caller calls it:
    it neither rebuilds the deck nor clears [gameOver].  On the finished
    game [seat0_has_won] it deals only the 13 cards left in the deck, 4 to
    seat 0 and 3 to each other seat, pushes [undefined] on the discard pile,
    leaves the deck empty and the game over. *)
Lemma init_after_finished_game_deals_leftovers :
  reachable seat0_has_won
  ∧ gameOver seat0_has_won = true
  ∧ ∃ g' tp',
      init seat0_has_won [] = Return tt g' tp'
      ∧ (length ∘ Player.hand <$> players g') = [4; 3; 3; 3]%nat
      ∧ discardPile g' = [None]
      ∧ deck g' = []
      ∧ length (cards g') = 13%nat
      ∧ gameOver g' = true.
Proof.
  split.
  { apply reachable_replay; [apply reachable_new|]. vm_compute. reflexivity. }
  split; [by vm_compute|].
  eexists _, _. split; [vm_compute; reflexivity|]. by vm_compute.
Qed.

(** ** What the random source can select *)

(** Every position of a hand is selected by some value of [Math.random()]. *)
Lemma random_floor_reaches n k :
  (k < n)%nat → (2 * N.of_nat n ≤ RANDOM_DENOMINATOR)%N →
  ∃ r, (r < RANDOM_DENOMINATOR)%N ∧ ∀ tp, random_floor n (r :: tp) = (k, tp).
Proof.
  intros Hk Hn. unfold RANDOM_DENOMINATOR in *.
  set (D := (2 ^ 53)%N) in *.
  set (K := N.of_nat k). set (M := N.of_nat n) in *.
  assert (K < M)%N as HK by (subst K M; lia).
  pose proof (N.Div0.div_mod (K * D + M - 1) M) as Hdiv.
  pose proof (N.mod_lt (K * D + M - 1) M ltac:(lia)) as Hmod.
  set (r := ((K * D + M - 1) / M)%N) in *.
  set (m := ((K * D + M - 1) mod M)%N) in *.
  assert (K * D ≤ r * M ∧ (r + 1) * M ≤ (K + 1) * D)%N as [Hlow Hup].
  { clearbody r m D. nia. }
  exists r. split.
  - clearbody r m D. nia.
  - intros tp. apply random_floor_band; unfold RANDOM_DENOMINATOR; fold D; fold M K; [lia|done..].
Qed.

(** ** An index that names no card *)

(** Why the plays of a reachable game name a card of a hand: on a Joker the
    index -1 reads [undefined], which is accepted, while [splice(-1, 1)]
    removes the last card of the hand; that card is in no pile and no hand
    afterwards. *)
Lemma negative_index_loses_a_card :
  let g := final (playAiTurn seat1_starts []) in
  length (cards g) = 54%nat
  ∧ length (cards (final (handleCardPlay 0 (-1) g []))) = 53%nat.
Proof. split; by vm_compute. Qed.

(** * Further properties of the engine *)

(** ** What holds of every reachable game *)

(** X1. In every reachable game there are four seats, the pointer is on
    one of them, the direction is 1 or -1, the deck and the discard pile hold
    cards only (no [undefined]), and the discard pile has a top card. *)
Theorem reachable_table_in_order g :
  reachable g →
  length (players g) = 4%nat
  ∧ 0 ≤ currentPlayerIndex g < 4
  ∧ (direction g = 1 ∨ direction g = -1)
  ∧ Forall is_Some (deck g)
  ∧ Forall is_Some (discardPile g)
  ∧ ∃ top, getTopCard g = Some top.
Proof.
  intros Hg. destruct (reachable_ok g Hg) as [Hok _].
  pose proof (ok_piles _ Hok) as [Hdeck Hdp]%Forall_app.
  repeat split; try done;
    [apply (ok_seats _ Hok)|apply (ok_pointer _ Hok)..|apply (ok_direction _ Hok)
    |by apply table_ok_top].
Qed.

Lemma reachable_table_in_order_witness :
  0 ≤ currentPlayerIndex deck_drawn_after_play < 4
  ∧ ∃ top, getTopCard deck_drawn_after_play = Some top.
Proof.
  destruct (reachable_table_in_order deck_drawn_after_play)
    as (_ & Hpointer & _ & _ & _ & Htop).
  - apply reachable_replay; [apply reachable_new|]. vm_compute. reflexivity.
  - by split.
Defined.

(** X2. In every reachable game that is not over, every seat holds at
    least one card: a hand runs empty only by the play that ends the game. *)
Theorem live_seats_hold_cards g p :
  reachable g → gameOver g = false → p ∈ players g → Player.hand p ≠ [].
Proof.
  intros Hg Hover Hp. destruct (reachable_ok g Hg) as [_ Hlive].
  by apply (proj1 (Forall_forall _ _) (Hlive Hover)).
Qed.

Lemma live_seats_hold_cards_witness :
  Forall (λ p, Player.hand p ≠ []) (players deck_drawn_out).
Proof.
  apply Forall_forall. intros p.
  apply (live_seats_hold_cards deck_drawn_out p).
  - apply reachable_replay; [apply reachable_new|]. vm_compute. reflexivity.
  - vm_compute. reflexivity.
Defined.

Lemma perform_call c g tp : perform c g tp = final (call c g tp).
Proof.
  destruct c; try reflexivity. simpl. unfold mbind, M_bind, bind.
  by destruct (handleCardPlay playerIndex cardIndex g tp).
Qed.

Lemma call_returns c g tp :
  table_ok g → live_ok g → well_formed_call g c = true →
  returns (call c) g tp (λ _ g', table_ok g' ∧ live_ok g').
Proof.
  intros Hok Hlive Hcall.
  pose proof (perform_ok c g tp Hok Hlive Hcall) as Hperform.
  destruct c as [p i| |p| |amount| | | |]; cbn [call perform] in *.
  - eapply returns_bind; [by apply handleCardPlay_ok|]. simpl.
    intros _ g' tp' H. by apply returns_ret.
  - by apply handleDrawCard_ok.
  - apply executeDraw_ok; [done..|]. by apply bool_decide_eq_true in Hcall.
  - by apply playAiTurn_ok.
  - eapply returns_weaken; [by apply forceDraw_keeps|]. simpl.
    intros _ g' Hkeeps. split; [apply Hkeeps|by eapply keeps_live].
  - eapply returns_weaken; [by apply handlePassCardRule_returns|]. simpl.
    intros _ g' (Hkeeps & _). split; [apply Hkeeps|by eapply keeps_live].
  - destruct (recycleDeck_returns g tp) as ([] & g' & tp' & Hrun & _).
    exists tt, g', tp'. split; [done|]. by rewrite Hrun in Hperform.
  - destruct (nextTurn_ok g tp Hok) as ([] & g' & tp' & Hrun & _).
    exists tt, g', tp'. split; [done|]. by rewrite Hrun in Hperform.
  - eapply returns_weaken; [by apply advancePointer_keeps|]. simpl.
    intros _ g' (Hkeeps & _). split; [apply Hkeeps|by eapply keeps_live].
Qed.

(** X3. In a reachable game no method throws: a play that names a card of
    a hand, a draw for a seat, an AI turn, a forced draw, the pass-around, a
    recycling, [nextTurn] and [advancePointer] all return, whatever the
    random source gives. *)
Theorem reachable_calls_never_throw g c tp :
  reachable g → well_formed_call g c = true → completes (call c g tp).
Proof.
  intros Hg Hcall. destruct (reachable_ok g Hg) as [Hok Hlive].
  destruct (call_returns c g tp Hok Hlive Hcall) as (a & g' & tp' & -> & _).
  exact I.
Qed.

Lemma reachable_calls_never_throw_witness :
  completes (call (ExecuteDraw 1) deck_drawn_out [])
  ∧ completes (call (HandleCardPlay 1 0) seat1_starts []).
Proof.
  split.
  - apply reachable_calls_never_throw; [|reflexivity].
    apply reachable_replay; [apply reachable_new|]. vm_compute. reflexivity.
  - apply reachable_calls_never_throw; [apply reachable_new|].
    vm_compute. reflexivity.
Defined.

Lemma executeDraw_over playerIndex g tp :
  table_ok g → 0 ≤ playerIndex < 4 → gameOver g = true →
  gameOver (final (executeDraw playerIndex g tp)) = true.
Proof.
  intros Hok Hseat Hover.
  destruct (restock_returns g tp Hok)
    as ([] & g1 & tp1 & Hrestock & Hkeeps1 & _).
  destruct (table_ok_seat g1 playerIndex (proj1 Hkeeps1) Hseat) as [p Hp].
  pose proof (keeps_draw g1 playerIndex p (proj1 Hkeeps1) Hp) as Hkeeps2.
  destruct (keeps_trans _ _ _ Hkeeps1 Hkeeps2) as (_ & Hover2 & _).
  rewrite (executeDraw_run _ _ _ _ _ _ Hrestock Hp).
  rewrite nextTurn_over by congruence. simpl in *. congruence.
Qed.

(** X4. Once [gameOver] is set no method clears it: it is still set after
    any call on a reachable game, and [init] leaves it as it finds it on any
    game whatever. *)
Theorem gameOver_is_never_cleared g c tp :
  reachable g → well_formed_call g c = true → gameOver g = true →
  gameOver (perform c g tp) = true
  ∧ gameOver (final (init (perform c g tp) tp)) = true.
Proof.
  intros Hg Hcall Hover. destruct (reachable_ok g Hg) as [Hok Hlive].
  assert (gameOver (perform c g tp) = true) as Hstill.
  { destruct c as [p i| |p| |amount| | | |]; cbn [perform].
    - by rewrite handleCardPlay_over.
    - unfold handleDrawCard. rewrite bind_get. case_decide; [done|].
      apply executeDraw_over; [done| |done]. apply (ok_pointer _ Hok).
    - apply executeDraw_over; [done| |done]. by apply bool_decide_eq_true in Hcall.
    - by rewrite playAiTurn_over.
    - destruct (forceDraw_keeps amount g tp Hok)
        as ([] & g' & tp' & -> & _ & Hsame & _). simpl. congruence.
    - destruct (handlePassCardRule_returns g tp Hok)
        as ([] & g' & tp' & -> & (_ & Hsame & _) & _). simpl. congruence.
    - destruct (recycleDeck_returns g tp)
        as ([] & g' & tp' & -> & d & dp & -> & _). done.
    - by rewrite nextTurn_over.
    - done. }
  split; [done|]. by rewrite init_run.
Qed.

Lemma gameOver_is_never_cleared_witness :
  gameOver (perform HandleDrawCard seat0_has_won []) = true
  ∧ gameOver (final (init (perform HandleDrawCard seat0_has_won []) [])) = true.
Proof.
  apply gameOver_is_never_cleared.
  - apply reachable_replay; [apply reachable_new|]. vm_compute. reflexivity.
  - reflexivity.
  - vm_compute. reflexivity.
Defined.

(** ** The turn order *)

Lemma nextTurn_live g tp :
  table_ok g → gameOver g = false → all_holding (players g) →
  nextTurn g tp = Return tt (turn_passed g) tp.
Proof.
  intros Hok Hover Hhold. destruct (table_ok_current g Hok) as [p Hp].
  apply (nextTurn_pass g tp p); [done..|].
  pose proof Hp as [_ Hlook]%at_index_Some.
  apply (Forall_lookup_1 _ _ _ _ Hhold Hlook).
Qed.

Lemma wrap_twice c d :
  0 ≤ c < 4 → d = 1 ∨ d = -1 → wrap (wrap (c + d) + d) = (c + 2 * d) mod 4.
Proof.
  intros Hc [-> | ->];
    assert (c = 0 ∨ c = 1 ∨ c = 2 ∨ c = 3) as [-> | [-> | [-> | ->]]] by lia;
    reflexivity.
Qed.

(** X5. [nextTurn] in a reachable game that is not over moves the pointer
    to the seat [(s + d) mod 4], sets one timer for the AI turn exactly when
    that seat is not seat 0, and changes nothing else. *)
Theorem nextTurn_moves_one_seat g tp :
  reachable g → gameOver g = false →
  ∃ g', nextTurn g tp = Return tt g' tp
        ∧ currentPlayerIndex g' = (currentPlayerIndex g + direction g) mod 4
        ∧ 0 ≤ currentPlayerIndex g' < 4
        ∧ aiTimers g' =
            (if decide (currentPlayerIndex g' = 0) then aiTimers g
             else S (aiTimers g))
        ∧ same_cards g g'
        ∧ direction g' = direction g
        ∧ gameOver g' = false
        ∧ winnerText g' = winnerText g.
Proof.
  intros Hg Hover. destruct (reachable_ok g Hg) as [Hok Hlive].
  exists (turn_passed g). split; [by apply nextTurn_live; [| |apply Hlive]|].
  pose proof (wrap_mod _ _ (ok_pointer _ Hok) (ok_direction _ Hok)) as Hwrap.
  simpl. rewrite <-Hwrap. split; [done|].
  split; [by apply wrap_step_range; [apply (ok_pointer _ Hok)|apply (ok_direction _ Hok)]|].
  split; [by repeat case_decide|]. by repeat split.
Qed.

Lemma nextTurn_moves_one_seat_witness :
  ∃ g', nextTurn (seat0_game_before 12) [] = Return tt g' []
        ∧ currentPlayerIndex g' = 3.
Proof.
  destruct (nextTurn_moves_one_seat (seat0_game_before 12) [])
    as (g' & Hrun & Hnext & _).
  - apply reachable_replay; [apply reachable_new|]. vm_compute. reflexivity.
  - vm_compute. reflexivity.
  - exists g'. split; [exact Hrun|]. rewrite Hnext. vm_compute. reflexivity.
Defined.

(** What [handleCardPlay] comes to when the seat to move plays a card that
    is accepted and is not its last. *)
Lemma current_seat_plays_run g tp cardIndex player c :
  current_seat_plays g tp cardIndex player c →
  let g1 := played (currentPlayerIndex g) (Z.to_nat cardIndex) player c g in
  handleCardPlay (currentPlayerIndex g) cardIndex g tp =
    (early ← applyEffect (currentPlayerIndex g) (Card.value c);
     if early : bool then ret (Some true) else nextTurn ;; ret (Some true)) g1 tp
  ∧ table_ok g1 ∧ all_holding (players g1) ∧ gameOver g1 = false.
Proof.
  intros (Hg & Hover & Hplayer & Hcard & Hvalid & Hmore).
  destruct (reachable_ok g Hg) as [Hok Hlive].
  pose proof Hcard as [Hidx Hc]%at_index_hand.
  assert (delete (Z.to_nat cardIndex) (Player.hand player) ≠ []) as Hrest.
  { intros Hnil. apply (f_equal length) in Hnil.
    rewrite (length_delete_lookup _ _ _ Hc) in Hnil. simpl in Hnil. lia. }
  cbv zeta. split; [|split; [|split]].
  - rewrite (handleCardPlay_accepted _ _ _ _ _ _ Hover Hplayer Hcard Hvalid).
    cbv zeta. by rewrite decide_False.
  - by apply table_ok_played.
  - by apply all_holding_insert; [apply Hlive|].
  - done.
Qed.

(** X6. An 8 played by the seat to move skips exactly one seat: the
    pointer ends two seats on in the direction of play, [(s + 2d) mod 4]; the
    direction is unchanged and no card moves but the 8 itself. *)
Theorem eight_skips_one_seat g tp cardIndex player c :
  current_seat_plays g tp cardIndex player c →
  Card.value c = Card.V8 →
  ∃ g', handleCardPlay (currentPlayerIndex g) cardIndex g tp = Return (Some true) g' tp
        ∧ currentPlayerIndex g' = (currentPlayerIndex g + 2 * direction g) mod 4
        ∧ direction g' = direction g
        ∧ gameOver g' = false
        ∧ same_cards (played (currentPlayerIndex g) (Z.to_nat cardIndex) player c g) g'.
Proof.
  intros Hplay Hvalue.
  destruct (current_seat_plays_run _ _ _ _ _ Hplay) as (Hrun & Hok1 & Hhold1 & Hover1).
  destruct Hplay as (Hg & _). destruct (reachable_ok g Hg) as [Hok _].
  set (g1 := played _ _ _ _ _) in *.
  set (g2 := set_currentPlayerIndex (wrap (currentPlayerIndex g1 + direction g1)) g1).
  assert (table_ok g2) as Hok2.
  { apply keeps_pointer; [done|].
    apply wrap_step_range; [apply (ok_pointer _ Hok1)|apply (ok_direction _ Hok1)]. }
  exists (turn_passed g2). split.
  - rewrite Hrun, Hvalue. cbn [applyEffect].
    rewrite bind_assoc. unfold advancePointer. rewrite bind_modify, bind_ret.
    fold g2. by rewrite (bind_Return _ _ _ _ _ _ _ (nextTurn_live g2 tp Hok2 Hover1 Hhold1)).
  - split; [|by repeat split]. subst g2 g1. simpl.
    apply wrap_twice; [apply (ok_pointer _ Hok)|apply (ok_direction _ Hok)].
Qed.

(** X7. An Ace played by the seat to move reverses the game: the
    direction changes sign and the pointer moves one seat in the new
    direction, to [(s - d) mod 4]; no card moves but the Ace itself. *)
Theorem ace_reverses_direction g tp cardIndex player c :
  current_seat_plays g tp cardIndex player c →
  Card.value c = Card.VA →
  ∃ g', handleCardPlay (currentPlayerIndex g) cardIndex g tp = Return (Some true) g' tp
        ∧ direction g' = - direction g
        ∧ currentPlayerIndex g' = (currentPlayerIndex g - direction g) mod 4
        ∧ gameOver g' = false
        ∧ same_cards (played (currentPlayerIndex g) (Z.to_nat cardIndex) player c g) g'.
Proof.
  intros Hplay Hvalue.
  destruct (current_seat_plays_run _ _ _ _ _ Hplay) as (Hrun & Hok1 & Hhold1 & Hover1).
  destruct Hplay as (Hg & _). destruct (reachable_ok g Hg) as [Hok _].
  set (g1 := played _ _ _ _ _) in *.
  set (g2 := set_direction (direction g1 * -1) g1).
  assert (direction g2 = 1 ∨ direction g2 = -1) as Hdir2.
  { subst g2 g1. simpl. destruct (ok_direction _ Hok) as [-> | ->]; lia. }
  assert (table_ok g2) as Hok2 by (by apply keeps_direction).
  exists (turn_passed g2). split.
  - rewrite Hrun, Hvalue. cbn [applyEffect].
    rewrite bind_assoc, bind_modify, bind_ret. fold g2.
    by rewrite (bind_Return _ _ _ _ _ _ _ (nextTurn_live g2 tp Hok2 Hover1 Hhold1)).
  - split; [subst g2 g1; simpl; lia|]. split; [|by repeat split].
    cbn [turn_passed currentPlayerIndex set_aiTimers set_currentPlayerIndex].
    rewrite (wrap_mod _ _ (ok_pointer _ Hok2) Hdir2).
    subst g2 g1. simpl. f_equal. lia.
Qed.

(** X8. A King played by the seat to move leaves the turn with that seat:
    the pointer and the direction are unchanged, no card moves but the King
    itself, and an AI turn is scheduled exactly when the seat is not seat 0. *)
Theorem king_keeps_the_turn g tp cardIndex player c :
  current_seat_plays g tp cardIndex player c →
  Card.value c = Card.VK →
  ∃ g', handleCardPlay (currentPlayerIndex g) cardIndex g tp = Return (Some true) g' tp
        ∧ currentPlayerIndex g' = currentPlayerIndex g
        ∧ direction g' = direction g
        ∧ gameOver g' = false
        ∧ aiTimers g' =
            (if decide (currentPlayerIndex g = 0) then aiTimers g
             else S (aiTimers g))
        ∧ same_cards (played (currentPlayerIndex g) (Z.to_nat cardIndex) player c g) g'.
Proof.
  intros Hplay Hvalue.
  destruct (current_seat_plays_run _ _ _ _ _ Hplay) as (Hrun & Hok1 & Hhold1 & Hover1).
  set (g1 := played _ _ _ _ _) in *.
  rewrite Hrun, Hvalue. cbn [applyEffect].
  destruct (decide (currentPlayerIndex g = 0)) as [Hzero|Hzero].
  - exists g1. rewrite decide_False by tauto. by repeat split.
  - exists (set_aiTimers (S (aiTimers g1)) g1). rewrite decide_True by done.
    by repeat split.
Qed.

(** X9. A card without an effect (3, 4, 5, 6, 7, 9, Jack or Queen) played
    by the seat to move passes the turn to the next seat, [(s + d) mod 4],
    and moves no card but itself. *)
Theorem plain_card_passes_turn g tp cardIndex player c :
  current_seat_plays g tp cardIndex player c →
  Card.value c ∈ [Card.V3; Card.V4; Card.V5; Card.V6; Card.V7; Card.V9;
                  Card.VJ; Card.VQ] →
  ∃ g', handleCardPlay (currentPlayerIndex g) cardIndex g tp = Return (Some true) g' tp
        ∧ currentPlayerIndex g' = (currentPlayerIndex g + direction g) mod 4
        ∧ direction g' = direction g
        ∧ gameOver g' = false
        ∧ same_cards (played (currentPlayerIndex g) (Z.to_nat cardIndex) player c g) g'.
Proof.
  intros Hplay Hvalue.
  destruct (current_seat_plays_run _ _ _ _ _ Hplay) as (Hrun & Hok1 & Hhold1 & Hover1).
  destruct Hplay as (Hg & _). destruct (reachable_ok g Hg) as [Hok _].
  set (g1 := played _ _ _ _ _) in *.
  exists (turn_passed g1). split.
  - rewrite Hrun.
    assert (applyEffect (currentPlayerIndex g) (Card.value c) = ret false) as ->.
    { rewrite !elem_of_cons in Hvalue.
      destruct Hvalue as [-> | [-> | [-> | [-> | [-> | [-> | [-> | [-> | Hnil]]]]]]]];
        try reflexivity. by apply elem_of_nil in Hnil. }
    rewrite bind_ret.
    by rewrite (bind_Return _ _ _ _ _ _ _ (nextTurn_live g1 tp Hok1 Hover1 Hhold1)).
  - split; [|by repeat split]. subst g1. simpl.
    apply wrap_mod; [apply (ok_pointer _ Hok)|apply (ok_direction _ Hok)].
Qed.

(** X10. After a 2 or a Joker played by the seat to move, the seat that
    had to draw does not get to play: the pointer ends on the seat after it,
    [(s + 2d) mod 4], with the direction unchanged and the game still on. *)
Theorem forced_draw_victim_is_skipped g tp cardIndex player c :
  current_seat_plays g tp cardIndex player c →
  Card.value c = Card.V2 ∨ Card.value c = Card.VX →
  ∃ g' tp',
    handleCardPlay (currentPlayerIndex g) cardIndex g tp = Return (Some true) g' tp'
    ∧ currentPlayerIndex g' = (currentPlayerIndex g + 2 * direction g) mod 4
    ∧ direction g' = direction g
    ∧ gameOver g' = false.
Proof.
  intros Hplay Hvalue.
  destruct (current_seat_plays_run _ _ _ _ _ Hplay) as (Hrun & Hok1 & Hhold1 & Hover1).
  destruct Hplay as (Hg & _). destruct (reachable_ok g Hg) as [Hok _].
  set (g1 := played _ _ _ _ _) in *.
  assert (∃ amount, applyEffect (currentPlayerIndex g) (Card.value c)
                    = (advancePointer ;; forceDraw amount ;; ret false))
    as [amount Heffect].
  { destruct Hvalue as [-> | ->]; [by exists 2%nat|by exists 5%nat]. }
  destruct (advancePointer_keeps g1 tp Hok1)
    as ([] & g2 & tp2 & Hrun2 & (Hok2 & Hover2 & Hhold2) & Hps2 & Hdir2 & Hcur2).
  destruct (table_ok_current g2 Hok2) as [victim Hvictim].
  destruct (forceDrawLoop_returns amount _ g2 tp2 victim Hok2 Hvictim)
    as ([] & g3 & tp3 & Hrun3 & (Hok3 & Hover3 & Hhold3)
        & (Hcur3 & Hdir3 & _) & _).
  exists (turn_passed g3), tp3. split.
  - rewrite Hrun, Heffect.
    rewrite (bind_assoc advancePointer).
    rewrite (bind_Return _ _ _ _ _ _ _ Hrun2).
    rewrite (bind_assoc (forceDraw amount)).
    unfold forceDraw at 1. rewrite bind_assoc, bind_get.
    rewrite (bind_Return _ _ _ _ _ _ _ Hrun3). rewrite bind_ret.
    rewrite (bind_Return _ _ _ _ tt (turn_passed g3) tp3); [done|].
    apply nextTurn_live; [done|congruence|]. by apply Hhold3, Hhold2.
  - simpl. rewrite Hcur3, Hdir3, Hcur2, Hdir2.
    split; [|split; [by subst g1|congruence]]. subst g1. simpl.
    apply wrap_twice; [apply (ok_pointer _ Hok)|apply (ok_direction _ Hok)].
Qed.

(** X11. After a 10 played by the seat to move and the pass-around it
    causes, the turn passes to the next seat, [(s + d) mod 4]; the deck is as
    before, the discard pile has gained the 10, and the hands hold together
    the cards they held once the 10 had left the actor's hand. *)
Theorem ten_passes_turn g tp cardIndex player c :
  current_seat_plays g tp cardIndex player c →
  Card.value c = Card.V10 →
  ∃ g' tp',
    handleCardPlay (currentPlayerIndex g) cardIndex g tp = Return (Some true) g' tp'
    ∧ currentPlayerIndex g' = (currentPlayerIndex g + direction g) mod 4
    ∧ direction g' = direction g
    ∧ gameOver g' = false
    ∧ deck g' = deck g
    ∧ discardPile g' = discardPile g ++ [Some c]
    ∧ hands (players g') ++ [c] ≡ₚ hands (players g).
Proof.
  intros Hplay Hvalue.
  destruct (current_seat_plays_run _ _ _ _ _ Hplay) as (Hrun & Hok1 & Hhold1 & Hover1).
  destruct Hplay as (Hg & _ & Hplayer & Hcard & _).
  destruct (reachable_ok g Hg) as [Hok _].
  set (g1 := played _ _ _ _ _) in *.
  destruct (handlePassCardRule_returns g1 tp Hok1)
    as ([] & g2 & tp2 & Hrun2 & (Hok2 & Hover2 & Hhold2)
        & (Hcur2 & Hdir2 & _) & Hdeck2 & Hdp2).
  exists (turn_passed g2), tp2. split.
  - rewrite Hrun, Hvalue. cbn [applyEffect].
    rewrite bind_assoc, (bind_Return _ _ _ _ _ _ _ Hrun2), bind_ret.
    rewrite (bind_Return _ _ _ _ tt (turn_passed g2) tp2); [done|].
    apply nextTurn_live; [done|congruence|by apply Hhold2].
  - simpl. rewrite Hcur2, Hdir2, Hdeck2, Hdp2.
    split; [subst g1; simpl;
            apply wrap_mod; [apply (ok_pointer _ Hok)|apply (ok_direction _ Hok)]|].
    split; [by subst g1|]. split; [congruence|]. split; [by subst g1|].
    split; [by subst g1|].
    pose proof (ok_cards _ Hok2) as Hc2. pose proof (ok_cards _ Hok) as Hc.
    unfold cards in Hc, Hc2. rewrite Hdeck2, Hdp2 in Hc2. subst g1. simpl in Hc2.
    rewrite <-Hc, defined_app in Hc2. simpl in Hc2.
    apply (Permutation_app_inv_l (defined (discardPile g))).
    apply (Permutation_app_inv_l (defined (deck g))).
    rewrite <-Hc2. solve_Permutation.
Qed.

(** Plays of the game [seat0_game] and of its first deal. *)
Ltac concrete_play :=
  lazymatch goal with
  | |- ∃ player, current_seat_plays ?g ?tp ?i player ?c =>
      let p := eval vm_compute in (at_index (players g) (currentPlayerIndex g)) in
      lazymatch p with
      | Some ?pl =>
          exists pl; unfold current_seat_plays; split_and!;
          [ apply reachable_replay; [apply reachable_new|vm_compute; reflexivity]
          | vm_compute; reflexivity ..
          | vm_compute; lia ]
      end
  end.

Lemma seat0_can_play_its_eight :
  ∃ player, current_seat_plays (seat0_game_before 12) [] 2 player
              (Card.make Card.Klaver Card.V8).
Proof. concrete_play. Qed.

Lemma seat0_can_play_its_ace :
  ∃ player, current_seat_plays (seat0_game_before 0) [] 4 player
              (Card.make Card.Ruit Card.VA).
Proof. concrete_play. Qed.

Lemma seat0_can_play_its_king :
  ∃ player, current_seat_plays (seat0_game_before 2) [] 0 player
              (Card.make Card.Klaver Card.VK).
Proof. concrete_play. Qed.

Lemma seat0_can_play_its_six :
  ∃ player, current_seat_plays (seat0_game_before 0) [] 6 player
              (Card.make Card.Ruit Card.V6).
Proof. concrete_play. Qed.

Lemma seat0_can_play_its_two :
  ∃ player, current_seat_plays (seat0_game_before 0) [] 0 player
              (Card.make Card.Hart Card.V2).
Proof. concrete_play. Qed.

Lemma seat0_can_play_its_ten :
  ∃ player, current_seat_plays (seat0_game_before 0) [] 5 player
              (Card.make Card.Ruit Card.V10).
Proof. concrete_play. Qed.

Lemma seat0_game_pointers :
  currentPlayerIndex (seat0_game_before 0) = 0
  ∧ direction (seat0_game_before 0) = 1
  ∧ currentPlayerIndex (seat0_game_before 2) = 0
  ∧ currentPlayerIndex (seat0_game_before 12) = 0
  ∧ direction (seat0_game_before 12) = -1.
Proof. split_and!; vm_compute; reflexivity. Qed.

Lemma eight_skips_one_seat_witness :
  ∃ g', handleCardPlay 0 2 (seat0_game_before 12) [] = Return (Some true) g' []
        ∧ currentPlayerIndex g' = 2.
Proof.
  destruct seat0_can_play_its_eight as [player Hplay].
  destruct (eight_skips_one_seat _ _ _ _ _ Hplay eq_refl) as (g' & Hrun & Hcur & _).
  destruct seat0_game_pointers as (_ & _ & _ & Hp & Hd).
  rewrite Hp in Hrun. rewrite Hp, Hd in Hcur.
  exists g'. split; [exact Hrun|exact Hcur].
Defined.

Lemma ace_reverses_direction_witness :
  ∃ g', handleCardPlay 0 4 (seat0_game_before 0) [] = Return (Some true) g' []
        ∧ direction g' = -1 ∧ currentPlayerIndex g' = 3.
Proof.
  destruct seat0_can_play_its_ace as [player Hplay].
  destruct (ace_reverses_direction _ _ _ _ _ Hplay eq_refl)
    as (g' & Hrun & Hdir & Hcur & _).
  destruct seat0_game_pointers as (Hp & Hd & _).
  rewrite Hp in Hrun. rewrite Hp, Hd in Hcur. rewrite Hd in Hdir.
  exists g'. split; [exact Hrun|]. split; [exact Hdir|exact Hcur].
Defined.

Lemma king_keeps_the_turn_witness :
  ∃ g', handleCardPlay 0 0 (seat0_game_before 2) [] = Return (Some true) g' []
        ∧ currentPlayerIndex g' = 0.
Proof.
  destruct seat0_can_play_its_king as [player Hplay].
  destruct (king_keeps_the_turn _ _ _ _ _ Hplay eq_refl) as (g' & Hrun & Hcur & _).
  destruct seat0_game_pointers as (_ & _ & Hp & _).
  rewrite Hp in Hrun, Hcur. exists g'. split; [exact Hrun|exact Hcur].
Defined.

Lemma plain_card_passes_turn_witness :
  ∃ g', handleCardPlay 0 6 (seat0_game_before 0) [] = Return (Some true) g' []
        ∧ currentPlayerIndex g' = 1.
Proof.
  destruct seat0_can_play_its_six as [player Hplay].
  destruct (plain_card_passes_turn _ _ _ _ _ Hplay) as (g' & Hrun & Hcur & _).
  - simpl. repeat constructor.
  - destruct seat0_game_pointers as (Hp & Hd & _).
    rewrite Hp in Hrun. rewrite Hp, Hd in Hcur.
  exists g'. split; [exact Hrun|exact Hcur].
Defined.

Lemma forced_draw_victim_is_skipped_witness :
  ∃ g' tp', handleCardPlay 0 0 (seat0_game_before 0) [] = Return (Some true) g' tp'
            ∧ currentPlayerIndex g' = 2.
Proof.
  destruct seat0_can_play_its_two as [player Hplay].
  destruct (forced_draw_victim_is_skipped _ _ _ _ _ Hplay (or_introl eq_refl))
    as (g' & tp' & Hrun & Hcur & _).
  destruct seat0_game_pointers as (Hp & Hd & _).
  rewrite Hp in Hrun. rewrite Hp, Hd in Hcur.
  exists g', tp'. split; [exact Hrun|exact Hcur].
Defined.

Lemma ten_passes_turn_witness :
  ∃ g' tp', handleCardPlay 0 5 (seat0_game_before 0) [] = Return (Some true) g' tp'
            ∧ currentPlayerIndex g' = 1.
Proof.
  destruct seat0_can_play_its_ten as [player Hplay].
  destruct (ten_passes_turn _ _ _ _ _ Hplay eq_refl) as (g' & tp' & Hrun & Hcur & _).
  destruct seat0_game_pointers as (Hp & Hd & _).
  rewrite Hp in Hrun. rewrite Hp, Hd in Hcur.
  exists g', tp'. split; [exact Hrun|exact Hcur].
Defined.

(** ** The AI policy *)

Lemma findValidIndex_none g tp top hand k :
  getTopCard g = Some top →
  Forall (λ c, ¬ matches top c) hand →
  findValidIndex hand k g tp = Return (-1) g tp.
Proof.
  intros Htop Hall. revert k. induction Hall as [|c hand Hc _ IH]; intros k.
  - reflexivity.
  - cbn [findValidIndex].
    rewrite (bind_Return _ _ _ _ _ _ _ (isValidMove_defined g tp top c Htop)).
    rewrite bool_decide_eq_false_2 by done. apply IH.
Qed.

Lemma findValidIndex_first g tp top hand k i c :
  getTopCard g = Some top →
  hand !! i = Some c → matches top c →
  Forall (λ c', ¬ matches top c') (take i hand) →
  findValidIndex hand k g tp = Return (k + Z.of_nat i) g tp.
Proof.
  intros Htop. revert k i. induction hand as [|c' hand IH]; intros k i Hc Hmatch Hbefore.
  - done.
  - cbn [findValidIndex].
    rewrite (bind_Return _ _ _ _ _ _ _ (isValidMove_defined g tp top c' Htop)).
    destruct i as [|i]; simpl in *.
    + injection Hc as ->. rewrite bool_decide_eq_true_2 by done.
      unfold ret. f_equal. lia.
    + apply Forall_cons in Hbefore as [Hc' Hbefore].
      rewrite bool_decide_eq_false_2 by done.
      rewrite (IH (k + 1) i Hc Hmatch Hbefore). f_equal. lia.
Qed.

(** X12. The AI turn follows the policy "first legal card, else draw": in
    a game that is not over, if the card at position [i] of the hand of the
    seat to move is accepted against the top card and no card before it is,
    the AI turn is the play of position [i]; if no card of the hand is
    accepted, it is a draw by that seat. *)
Theorem ai_plays_first_legal_card_or_draws g tp ai top :
  gameOver g = false →
  at_index (players g) (currentPlayerIndex g) = Some ai →
  getTopCard g = Some top →
  (∀ (i : nat) c,
     Player.hand ai !! i = Some c → matches top c →
     Forall (λ c', ¬ matches top c') (take i (Player.hand ai)) →
     playAiTurn g tp
     = detached (handleCardPlay (currentPlayerIndex g) (Z.of_nat i)) g tp)
  ∧ (Forall (λ c, ¬ matches top c) (Player.hand ai) →
     playAiTurn g tp = executeDraw (currentPlayerIndex g) g tp).
Proof.
  intros Hover Hai Htop. split.
  - intros i c Hc Hmatch Hbefore. unfold playAiTurn.
    rewrite bind_get, Hover.
    rewrite (bind_Return _ _ _ _ _ _ _ (playerAt_Some _ _ _ _ Hai)).
    rewrite (bind_Return _ _ _ _ _ _ _
               (findValidIndex_first g tp top _ 0 i c Htop Hc Hmatch Hbefore)).
    rewrite decide_True by lia. reflexivity.
  - intros Hnone. unfold playAiTurn. rewrite bind_get, Hover.
    rewrite (bind_Return _ _ _ _ _ _ _ (playerAt_Some _ _ _ _ Hai)).
    rewrite (bind_Return _ _ _ _ _ _ _
               (findValidIndex_none g tp top _ 0 Htop Hnone)).
    by rewrite decide_False by lia.
Qed.

Lemma seat0_ai_would_play_its_eight :
  let g := seat0_game_before 12 in
  let top := Card.make Card.Klaver Card.V4 in
  let c := Card.make Card.Klaver Card.V8 in
  ∃ ai, gameOver g = false
        ∧ at_index (players g) (currentPlayerIndex g) = Some ai
        ∧ getTopCard g = Some top
        ∧ Player.hand ai !! 2%nat = Some c
        ∧ matches top c
        ∧ Forall (λ c', ¬ matches top c') (take 2 (Player.hand ai)).
Proof.
  intros g top c. subst g top c.
  let p := eval vm_compute in
    (at_index (players (seat0_game_before 12))
       (currentPlayerIndex (seat0_game_before 12))) in
  lazymatch p with Some ?ai => exists ai end.
  split_and!; try (vm_compute; reflexivity);
    apply (bool_decide_unpack _); vm_compute; exact I.
Qed.

Lemma ai_plays_first_legal_card_or_draws_witness :
  playAiTurn (seat0_game_before 12) []
  = detached (handleCardPlay 0 2) (seat0_game_before 12) [].
Proof.
  destruct seat0_ai_would_play_its_eight
    as (ai & Hover & Hai & Htop & Hc & Hmatch & Hbefore).
  destruct (ai_plays_first_legal_card_or_draws _ [] ai _ Hover Hai Htop)
    as [Hfirst _].
  pose proof (Hfirst 2%nat _ Hc Hmatch Hbefore) as Hrun.
  destruct seat0_game_pointers as (_ & _ & _ & Hp & _).
  rewrite Hp in Hrun. exact Hrun.
Defined.

(** ** The deck *)

(** X13. [shuffle] only reorders: the shuffled deck holds the same
    entries as often as the deck given, so as many, whatever the random
    source gives; it asks the source for one number per card but the first;
    a deck of no or one card is left as it is. *)
Theorem shuffle_only_reorders cards tp :
  (Deck.shuffle cards tp).1 ≡ₚ cards
  ∧ Deck.count (Deck.shuffle cards tp).1 = Deck.count cards
  ∧ (Deck.shuffle cards tp).2 = drop (length cards - 1) tp
  ∧ ((length cards ≤ 1)%nat → Deck.shuffle cards tp = (cards, tp)).
Proof.
  split; [apply shuffle_Permutation|]. split; [|split].
  - unfold Deck.count. by rewrite shuffle_Permutation.
  - apply shuffle_from_tape.
  - intros Hshort. unfold Deck.shuffle.
    replace (length cards - 1)%nat with 0%nat by lia. reflexivity.
Qed.

(** X14. [draw] undoes [addCards]: after cards have been added to the
    deck, a draw gives the last of them and leaves the deck with the others
    added; the count grows by the number of cards added and a draw on an
    empty deck gives [undefined] and leaves it empty. *)
Theorem draw_takes_last_card_added (d : Deck.t) (cs : list Slot) (c : Slot) :
  Deck.draw (Deck.addCards (cs ++ [c]) d) = (c, Deck.addCards cs d)
  ∧ Deck.count (Deck.addCards cs d) = (Deck.count d + length cs)%nat
  ∧ Deck.draw [] = (None, [])
  ∧ Deck.count (Deck.draw d).2 = (Deck.count d - 1)%nat.
Proof.
  unfold Deck.draw, Deck.addCards, Deck.count. split; [|split; [|split]].
  - by rewrite (assoc_L (++)), pop_snoc.
  - by rewrite length_app.
  - reflexivity.
  - destruct (pop_cases d) as [[-> ->]|(d' & x & -> & ->)]; [done|].
    rewrite length_app. simpl. lia.
Qed.

(** ** Recycling *)

Lemma getTopCard_singleton g top : getTopCard (set_discardPile [top] g) = top.
Proof. reflexivity. Qed.

(** X15. [recycleDeck] always returns and touches nothing but the two
    piles.  With two or more cards on the discard pile it keeps the top card
    as the only discard and the deck becomes a reordering of the old deck
    and the other discards; with fewer it changes nothing at all.  In both
    cases the top card is the same, at most one card is left on the discard
    pile, and a second recycling right after changes nothing. *)
Theorem recycleDeck_keeps_top_and_restocks g tp :
  ∃ d dp tp',
    recycleDeck g tp = Return tt (set_deck d (set_discardPile dp g)) tp'
    ∧ d ++ dp ≡ₚ deck g ++ discardPile g
    ∧ (length dp ≤ 1)%nat
    ∧ getTopCard (set_deck d (set_discardPile dp g)) = getTopCard g
    ∧ ((length (discardPile g) ≤ 1)%nat →
       d = deck g ∧ dp = discardPile g ∧ tp' = tp)
    ∧ (∀ old top, discardPile g = old ++ [top] → old ≠ [] →
       dp = [top] ∧ d ≡ₚ deck g ++ old)
    ∧ recycleDeck (set_deck d (set_discardPile dp g)) tp'
      = Return tt (set_deck d (set_discardPile dp g)) tp'.
Proof.
  destruct (decide (length (discardPile g) ≤ 1)%nat) as [Hshort|Hlong].
  - exists (deck g), (discardPile g), tp.
    rewrite set_discardPile_same, set_deck_same.
    split; [by apply recycleDeck_short|]. split; [done|]. split; [done|].
    split; [done|]. split; [done|]. split; [|by apply recycleDeck_short].
    intros old top Hdp Hold. rewrite Hdp, length_app in Hshort.
    destruct old; [done|]. simpl in Hshort. lia.
  - destruct (pop_cases (discardPile g)) as [[Hnil _]|(old & top & Hdp & _)].
    { rewrite Hnil in Hlong. simpl in Hlong. lia. }
    assert (old ≠ []) as Hold.
    { intros ->. rewrite Hdp in Hlong. simpl in Hlong. lia. }
    eexists _, [top], _. split; [by apply (recycleDeck_long _ _ old top)|].
    split; [rewrite shuffle_Permutation, Hdp; by rewrite (assoc_L (++))|].
    split; [simpl; lia|].
    split; [unfold getTopCard; simpl; by rewrite Hdp, last_snoc|].
    split; [intros Hshort; lia|]. split.
    + intros old' top' Hdp' _. rewrite Hdp in Hdp'.
      apply app_inj_tail in Hdp' as [<- <-].
      split; [done|apply shuffle_Permutation].
    + apply recycleDeck_short. simpl. lia.
Qed.

(** ** Draws *)

Lemma stock_hands_total g :
  table_ok g → (stock g + 1 + length (hands (players g)) = 54)%nat.
Proof.
  intros Hok. pose proof (ok_cards _ Hok) as Hcards.
  apply Permutation_length in Hcards. unfold cards in Hcards.
  rewrite !length_app in Hcards.
  pose proof (ok_piles _ Hok) as [Hdeck Hdp]%Forall_app.
  rewrite !defined_Forall_length in Hcards by done.
  destruct UNIVERSE_composition as (_ & _ & _ & Hlen). rewrite Hlen in Hcards.
  unfold stock. pose proof (ok_top _ Hok).
  destruct (discardPile g); [done|]. simpl in *. lia.
Qed.

Lemma forceDrawLoop_drains n v g tp p :
  table_ok g → at_index (players g) v = Some p →
  returns (forceDrawLoop v n) g tp
    (λ _ g', keeps g g' ∧ same_turn g g'
             ∧ ∃ drawn,
                 players g' =
                   <[Z.to_nat v := Player.set_hand (Player.hand p ++ drawn) p]> (players g)
                 ∧ length drawn = (n `min` stock g)%nat
                 ∧ stock g' = (stock g - length drawn)%nat).
Proof.
  revert g tp p. induction n as [|n IH]; intros g tp p Hok Hp.
  - apply returns_ret. split; [by apply keeps_refl|].
    split; [apply same_turn_refl|]. exists []. simpl.
    pose proof Hp as [_ Hlook]%at_index_Some.
    rewrite app_nil_r, set_hand_same, list_insert_id by done.
    split; [done|]. split; [done|lia].
  - pose proof Hp as [Hv Hlook]%at_index_Some.
    destruct (forceDraw_round_returns v g tp p Hok Hp)
      as ([] & g2 & tp2 & Hround & Hkeeps2 & Hturn2 & card & Hps2 & Hstock2 & Hcard).
    assert (stock g2 + length (slot_cards card) = stock g)%nat as Hexact.
    { pose proof (stock_hands_total g Hok) as Htotal.
      pose proof (stock_hands_total g2 (proj1 Hkeeps2)) as Htotal2.
      rewrite Hps2 in Htotal2.
      pose proof (hands_insert_app (players g) _ p (slot_cards card) Hlook) as Hh.
      rewrite <-receiveCard_set_hand in Hh. apply Permutation_length in Hh.
      rewrite length_app in Hh. lia. }
    assert (at_index (players g2) v = Some (Player.receiveCard card p)) as Hp2.
    { apply at_index_Some. split; [done|]. rewrite Hps2.
      apply list_lookup_insert_eq. by eapply lookup_lt_Some. }
    destruct (IH g2 tp2 _ (proj1 Hkeeps2) Hp2)
      as ([] & g3 & tp3 & Hrest & Hkeeps3 & Hturn3 & drawn & Hps3 & Hlen & Hstock3).
    exists tt, g3, tp3. split.
    { rewrite forceDrawLoop_S. by rewrite (bind_Return _ _ _ _ _ _ _ Hround). }
    split; [by eapply keeps_trans|]. split; [by eapply same_turn_trans|].
    exists (slot_cards card ++ drawn). split; [|split].
    + rewrite Hps3, Hps2, list_insert_insert_eq.
      rewrite hand_receiveCard, receiveCard_set_hand. simpl.
      by rewrite (assoc_L (++)).
    + rewrite length_app, Hlen.
      destruct (decide (0 < stock g)%nat) as [Hpos|Hzero].
      * destruct (Hcard Hpos) as [c ->].
        change (length (slot_cards (Some c))) with 1%nat in *. lia.
      * destruct card as [c|].
        -- change (length (slot_cards (Some c))) with 1%nat in *. lia.
        -- change (length (slot_cards None)) with 0%nat in *. lia.
    + rewrite Hstock3, length_app. lia.
Qed.

(** X16. [forceDraw] in a reachable game never throws and deals the seat
    under the pointer what there is: the number of cards asked for if the
    deck and the discard pile below its top hold that many, and all of those
    otherwise.  The cards are appended to the hand of that seat; the other
    hands, the pointer, the direction and [gameOver] are unchanged. *)
Theorem forceDraw_deals_what_is_left amount g tp :
  reachable g →
  ∃ g' tp' victim drawn,
    forceDraw amount g tp = Return tt g' tp'
    ∧ at_index (players g) (currentPlayerIndex g) = Some victim
    ∧ players g' =
        <[Z.to_nat (currentPlayerIndex g) :=
            Player.set_hand (Player.hand victim ++ drawn) victim]> (players g)
    ∧ length drawn
      = (amount `min` (length (deck g) + (length (discardPile g) - 1)))%nat
    ∧ (length (deck g') + (length (discardPile g') - 1)
       = length (deck g) + (length (discardPile g) - 1) - length drawn)%nat
    ∧ currentPlayerIndex g' = currentPlayerIndex g
    ∧ direction g' = direction g
    ∧ gameOver g' = gameOver g.
Proof.
  intros Hg. destruct (reachable_ok g Hg) as [Hok _].
  destruct (table_ok_current g Hok) as [victim Hvictim].
  destruct (forceDrawLoop_drains amount _ g tp victim Hok Hvictim)
    as ([] & g' & tp' & Hrun & (_ & Hover & _) & (Hcur & Hdir & _)
        & drawn & Hps & Hlen & Hstock).
  exists g', tp', victim, drawn. split.
  { unfold forceDraw. by rewrite bind_get. }
  by repeat split.
Qed.

Lemma forceDraw_deals_what_is_left_witness :
  ∃ g' tp' victim drawn,
    forceDraw 5 deck_drawn_after_play [] = Return tt g' tp'
    ∧ at_index (players deck_drawn_after_play) 3 = Some victim
    ∧ players g' !! 3%nat
      = Some (Player.set_hand (Player.hand victim ++ drawn) victim)
    ∧ length drawn = 1%nat.
Proof.
  assert (reachable deck_drawn_after_play) as Hreach.
  { apply reachable_replay; [apply reachable_new|]. vm_compute. reflexivity. }
  destruct (forceDraw_deals_what_is_left 5 deck_drawn_after_play [] Hreach)
    as (g' & tp' & victim & drawn & Hrun & Hvictim & Hps & Hlen & _).
  assert (currentPlayerIndex deck_drawn_after_play = 3) as Hcur
    by (vm_compute; reflexivity).
  rewrite Hcur in Hvictim, Hps.
  exists g', tp', victim, drawn. split; [exact Hrun|]. split; [exact Hvictim|].
  split.
  - rewrite Hps. apply list_lookup_insert_eq. vm_compute. lia.
  - rewrite Hlen. vm_compute. reflexivity.
Defined.

(** X17. A draw by the seat to move from a deck that holds cards, in a
    reachable game that is not over, moves the last card of the deck to the
    end of that seat's hand, leaves the discard pile and the other hands
    alone and passes the turn to the next seat, [(s + d) mod 4]. *)
Theorem executeDraw_moves_top_of_deck g tp d c p :
  reachable g → gameOver g = false →
  deck g = d ++ [Some c] →
  at_index (players g) (currentPlayerIndex g) = Some p →
  ∃ g', executeDraw (currentPlayerIndex g) g tp = Return tt g' tp
        ∧ deck g' = d
        ∧ discardPile g' = discardPile g
        ∧ players g' =
            <[Z.to_nat (currentPlayerIndex g) :=
                Player.set_hand (Player.hand p ++ [c]) p]> (players g)
        ∧ currentPlayerIndex g' = (currentPlayerIndex g + direction g) mod 4
        ∧ direction g' = direction g
        ∧ gameOver g' = false.
Proof.
  intros Hg Hover Hdeck Hp. destruct (reachable_ok g Hg) as [Hok Hlive].
  rewrite (executeDraw_stocked _ g tp p d (Some c) Hdeck Hp).
  pose proof (keeps_draw g _ p Hok Hp) as Hkeeps.
  rewrite Hdeck, pop_snoc in Hkeeps. cbn [fst snd] in Hkeeps.
  destruct Hkeeps as (Hok1 & Hover1 & Hhold1).
  set (g1 := receiveAt _ _ _) in *.
  exists (turn_passed g1). split.
  - apply nextTurn_live; [done|congruence|]. apply Hhold1, Hlive, Hover.
  - subst g1. rewrite (receiveAt_defined _ _ p) by done. simpl.
    repeat split; [|exact Hover].
    apply wrap_mod; [apply (ok_pointer _ Hok)|apply (ok_direction _ Hok)].
Qed.

Lemma seat0_can_draw :
  let g := seat0_game_before 0 in
  ∃ d c p, reachable g ∧ gameOver g = false
           ∧ deck g = d ++ [Some c]
           ∧ at_index (players g) (currentPlayerIndex g) = Some p
           ∧ length d = 24%nat.
Proof.
  intros g. subst g.
  let dk := eval vm_compute in (deck (seat0_game_before 0)) in
  let d := eval vm_compute in (removelast dk) in
  let c := eval vm_compute in (last dk) in
  let p := eval vm_compute in
    (at_index (players (seat0_game_before 0))
       (currentPlayerIndex (seat0_game_before 0))) in
  lazymatch c with
  | Some (Some ?c') =>
      lazymatch p with Some ?p' => exists d, c', p' end
  end.
  split; [apply reachable_new|].
  split_and!; vm_compute; reflexivity.
Qed.

Lemma executeDraw_moves_top_of_deck_witness :
  ∃ g', executeDraw 0 (seat0_game_before 0) [] = Return tt g' []
        ∧ length (deck g') = 24%nat
        ∧ currentPlayerIndex g' = 1.
Proof.
  destruct seat0_can_draw as (d & c & p & Hg & Hover & Hdeck & Hp & Hlen).
  destruct (executeDraw_moves_top_of_deck _ [] d c p Hg Hover Hdeck Hp)
    as (g' & Hrun & Hd & _ & _ & Hcur & _).
  destruct seat0_game_pointers as (Hp0 & Hd0 & _).
  rewrite Hp0 in Hrun. rewrite Hp0, Hd0 in Hcur.
  exists g'. split; [exact Hrun|]. split; [|exact Hcur].
  rewrite Hd. exact Hlen.
Defined.

(** X18. [playCard] at every index: inside the hand it removes and returns
    the card there; at or beyond the end it returns [undefined] and leaves
    the hand alone; a negative index counts from the end, and one below minus
    the length removes the first card.  Whatever the index, the card
    returned and the hand left make up the hand there was. *)
Theorem playCard_at_every_index (index : Z) (p : Player.t) :
  let len := Z.of_nat (length (Player.hand p)) in
  let card := (Player.playCard index p).1 in
  let rest := Player.hand (Player.playCard index p).2 in
  (0 ≤ index < len →
     card = Player.hand p !! Z.to_nat index
     ∧ rest = delete (Z.to_nat index) (Player.hand p))
  ∧ (len ≤ index → card = None ∧ (Player.playCard index p).2 = p)
  ∧ (- len ≤ index < 0 →
     card = Player.hand p !! Z.to_nat (len + index)
     ∧ rest = delete (Z.to_nat (len + index)) (Player.hand p))
  ∧ (index < - len → card = head (Player.hand p) ∧ rest = tail (Player.hand p))
  ∧ slot_cards card ++ rest ≡ₚ Player.hand p
  ∧ Player.id (Player.playCard index p).2 = Player.id p
  ∧ Player.name (Player.playCard index p).2 = Player.name p.
Proof.
  cbv zeta. unfold Player.playCard, splice1, splice_start. simpl.
  set (h := Player.hand p).
  assert (∀ s, head (take 1 (drop s h)) = h !! s) as Hhead.
  { intros s. rewrite head_lookup, lookup_take_lt by lia.
    by rewrite lookup_drop, Nat.add_0_r. }
  rewrite Hhead.
  split; [|split; [|split; [|split; [|split]]]].
  - intros Hi. rewrite decide_False by lia. by rewrite Z.min_l by lia.
  - intros Hi. rewrite decide_False by lia. rewrite Z.min_r by lia.
    rewrite Nat2Z.id. split; [by apply lookup_ge_None|].
    rewrite delete_take_drop, take_ge, drop_ge, app_nil_r by lia.
    subst h. by destruct p.
  - intros Hi. rewrite decide_True by lia. by rewrite Z.max_l by lia.
  - intros Hi. rewrite decide_True by lia. rewrite Z.max_r by lia.
    simpl. by destruct h.
  - apply lookup_delete_Permutation.
  - done.
Qed.

(** X19. A card received can be played back: after [receiveCard] of a
    card, [playCard] at the old length of the hand, or at -1, returns that
    card and gives the player as it was; [receiveCard] of [undefined] or
    [null] changes nothing. *)
Theorem playCard_undoes_receiveCard (c : Card.t) (p : Player.t) :
  Player.playCard (Z.of_nat (length (Player.hand p)))
    (Player.receiveCard (Some c) p) = (Some c, p)
  ∧ Player.playCard (-1) (Player.receiveCard (Some c) p) = (Some c, p)
  ∧ Player.receiveCard None p = p.
Proof.
  assert ((Player.hand p ++ [c]) !! length (Player.hand p) = Some c) as Hlast.
  { rewrite lookup_app_r by lia. by rewrite Nat.sub_diag. }
  assert (delete (length (Player.hand p)) (Player.hand p ++ [c]) = Player.hand p)
    as Hdelete.
  { rewrite delete_take_drop, take_app_length.
    rewrite drop_ge by (rewrite length_app; simpl; lia). by rewrite app_nil_r. }
  split; [|split; [|done]].
  - unfold Player.playCard.
    change (Player.hand (Player.receiveCard (Some c) p)) with (Player.hand p ++ [c]).
    rewrite (splice1_in_range _ _ _ Hlast), Hdelete. by destruct p.
  - unfold Player.playCard, splice1, splice_start.
    change (Player.hand (Player.receiveCard (Some c) p)) with (Player.hand p ++ [c]).
    rewrite decide_True by lia. rewrite length_app.
    change (length [c]) with 1%nat.
    replace (Z.to_nat (Z.max (Z.of_nat (length (Player.hand p) + 1) + -1) 0))
      with (length (Player.hand p)) by lia.
    rewrite Hdelete, (drop_S _ _ _ Hlast). simpl. by destruct p.
Qed.

(** X20. [removeOneRandomCard] on an empty hand returns [null], changes
    nothing and asks for no random number; on a hand with cards it returns
    one card of the hand and leaves the hand one card shorter, with the other
    cards in their order.  In both cases the card returned and the hand left
    make up the hand there was. *)
Theorem removeOneRandomCard_takes_one_card (p : Player.t) (tp : Tape) :
  let card := (Player.removeOneRandomCard p tp).1.1 in
  let p' := (Player.removeOneRandomCard p tp).1.2 in
  let tp' := (Player.removeOneRandomCard p tp).2 in
  (Player.hand p = [] → card = None ∧ p' = p ∧ tp' = tp)
  ∧ (Player.hand p ≠ [] →
     ∃ (k : nat) c,
       card = Some c ∧ Player.hand p !! k = Some c
       ∧ Player.hand p' = delete k (Player.hand p)
       ∧ length (Player.hand p') = (length (Player.hand p) - 1)%nat
       ∧ tp' = drop 1 tp)
  ∧ slot_cards card ++ Player.hand p' ≡ₚ Player.hand p
  ∧ Player.id p' = Player.id p ∧ Player.name p' = Player.name p.
Proof.
  cbv zeta. split; [|split].
  - intros Hempty. unfold Player.removeOneRandomCard.
    by rewrite decide_True by (by rewrite Hempty).
  - intros Hcards. unfold Player.removeOneRandomCard.
    rewrite decide_False by (by destruct (Player.hand p)).
    pose proof (random_floor_lt (length (Player.hand p)) tp) as Hlt.
    pose proof (random_floor_tape (length (Player.hand p)) tp) as Htape.
    destruct (random_floor (length (Player.hand p)) tp) as [k tp1].
    simpl in Hlt, Htape.
    destruct (lookup_lt_is_Some_2 (Player.hand p) k) as [c Hc].
    { apply Hlt. destruct (Player.hand p); [done|simpl; lia]. }
    rewrite (splice1_in_range _ _ _ Hc). simpl.
    exists k, c. repeat split; try done.
    by apply (length_delete_lookup _ _ c).
  - destruct (removeOneRandomCard_run p tp) as (k & tp1 & -> & _). simpl.
    split; [apply lookup_delete_Permutation|done].
Qed.

(** ** The names of the cards *)

Lemma string_app_assoc (s1 s2 s3 : string) :
  (s1 +:+ s2) +:+ s3 = s1 +:+ (s2 +:+ s3).
Proof.
  induction s1 as [|a s1 IH]; [done|].
  change (String a ((s1 +:+ s2) +:+ s3) = String a (s1 +:+ s2 +:+ s3)).
  by rewrite IH.
Qed.

Lemma string_app_length (s1 s2 : string) :
  String.length (s1 +:+ s2) = (String.length s1 + String.length s2)%nat.
Proof.
  induction s1 as [|a s1 IH]; [done|].
  change (S (String.length (s1 +:+ s2)) = S (String.length s1 + String.length s2)).
  by rewrite IH.
Qed.

Lemma string_app_inj_r (s1 s2 s : string) : s1 +:+ s = s2 +:+ s → s1 = s2.
Proof.
  revert s2. induction s1 as [|a s1 IH]; intros [|b s2] Heq.
  - done.
  - apply (f_equal String.length) in Heq. rewrite !string_app_length in Heq.
    simpl in Heq. lia.
  - apply (f_equal String.length) in Heq. rewrite !string_app_length in Heq.
    simpl in Heq. lia.
  - change (String a (s1 +:+ s) = String b (s2 +:+ s)) in Heq.
    injection Heq as -> Heq. f_equal. by apply IH.
Qed.

Lemma suit_text_inj s1 s2 : suit_text s1 = suit_text s2 → s1 = s2.
Proof. destruct s1, s2; simpl; intros H; first [reflexivity | discriminate H]. Qed.

Lemma value_text_inj v1 v2 : value_text v1 = value_text v2 → v1 = v2.
Proof. destruct v1, v2; simpl; intros H; first [reflexivity | discriminate H]. Qed.

Lemma suit_text_one_character s : ∃ a, suit_text s = String a EmptyString.
Proof. destruct s; by eexists. Qed.

Lemma toString_inj c1 c2 : toString c1 = toString c2 → c1 = c2.
Proof.
  destruct c1 as [s1 v1], c2 as [s2 v2]. unfold toString. simpl.
  destruct (suit_text_one_character s1) as [a1 H1].
  destruct (suit_text_one_character s2) as [a2 H2].
  rewrite H1, H2. intros Heq.
  change (String a1 (value_text v1) = String a2 (value_text v2)) in Heq.
  injection Heq as Ha Hv.
  assert (suit_text s1 = suit_text s2) as Hs by congruence.
  by rewrite (suit_text_inj _ _ Hs), (value_text_inj _ _ Hv).
Qed.

(** X21. The texts of the cards tell them apart: [toString] gives
    different strings for different cards; [getImageName] is that string
    followed by [.svg] for every card that is not a Joker, so different
    cards that are not Jokers have different images, while every Joker has
    the image [XX.svg], which no other card has. *)
Theorem card_texts_tell_cards_apart c1 c2 :
  (toString c1 = toString c2 → c1 = c2)
  ∧ (Card.value c1 ≠ Card.VX → getImageName c1 = toString c1 +:+ ".svg")
  ∧ (Card.value c1 = Card.VX ↔ getImageName c1 = "XX.svg")
  ∧ (Card.value c1 ≠ Card.VX → getImageName c1 = getImageName c2 → c1 = c2).
Proof.
  split; [apply toString_inj|].
  assert (∀ c, Card.value c ≠ Card.VX → getImageName c = toString c +:+ ".svg")
    as Hname.
  { intros c Hc. unfold getImageName, toString. rewrite decide_False by done.
    symmetry. apply string_app_assoc. }
  assert (∀ c, Card.value c = Card.VX ↔ getImageName c = "XX.svg") as Hjoker.
  { intros c. split.
    - intros Hc. unfold getImageName. by rewrite decide_True.
    - destruct c as [s v]. unfold getImageName. simpl.
      destruct s, v; simpl; intros H; first [reflexivity | discriminate H]. }
  split; [apply Hname|]. split; [apply Hjoker|].
  intros Hc1 Heq.
  assert (Card.value c2 ≠ Card.VX) as Hc2.
  { intros Hx. apply Hc1, Hjoker. rewrite Heq. by apply Hjoker. }
  rewrite (Hname c1 Hc1), (Hname c2 Hc2) in Heq.
  apply toString_inj. by apply string_app_inj_r in Heq.
Qed.

(** X22. The colours of the deck: [getColor] is [Joker] exactly for the
    cards of value X, and otherwise [red] exactly for hearts and diamonds;
    of the 54 cards [reset] builds, 26 are red, 26 black and 2 Joker. *)
Theorem getColor_of_the_deck c :
  (getColor c = "Joker" ↔ Card.value c = Card.VX)
  ∧ (getColor c = "red" ↔
       Card.value c ≠ Card.VX ∧ (Card.suit c = Card.Hart ∨ Card.suit c = Card.Ruit))
  ∧ length (filter (λ c, getColor c = "red") (defined Deck.reset)) = 26%nat
  ∧ length (filter (λ c, getColor c = "black") (defined Deck.reset)) = 26%nat
  ∧ length (filter (λ c, getColor c = "Joker") (defined Deck.reset)) = 2%nat.
Proof.
  split; [|split; [|by vm_compute]].
  - unfold getColor. repeat case_decide; split; intros ?; try done.
  - unfold getColor. repeat case_decide; split; intros ?; try done; tauto.
Qed.

(** ** More on the move rule *)

Lemma matches_sym a b : matches a b → matches b a.
Proof. unfold matches. intros [?|[?|[?|?]]]; [tauto|tauto|right; right; left; done|by do 3 right]. Qed.

(** X23. The move rule does not depend on which of two cards lies on top:
    [isValidMove] accepts [b] on a pile topped by [a] exactly when it accepts
    [a] on a pile topped by [b]; and it accepts a card on a copy of itself. *)
Theorem isValidMove_is_symmetric g1 g2 tp a b :
  getTopCard g1 = Some a → getTopCard g2 = Some b →
  ∃ answer,
    isValidMove (Some b) g1 tp = Return answer g1 tp
    ∧ isValidMove (Some a) g2 tp = Return answer g2 tp
    ∧ isValidMove (Some a) g1 tp = Return true g1 tp.
Proof.
  intros Ha Hb. exists (bool_decide (matches a b)).
  rewrite !(isValidMove_defined g1 tp a) by done.
  rewrite (isValidMove_defined g2 tp b) by done.
  split; [done|]. split.
  - f_equal. apply bool_decide_ext. split; apply matches_sym.
  - f_equal. apply bool_decide_eq_true_2. by do 2 right; left.
Qed.

Lemma isValidMove_is_symmetric_witness :
  let five := Card.make Card.Ruit Card.V5 in
  let nine := Card.make Card.Ruit Card.V9 in
  ∃ answer,
    isValidMove (Some nine) (set_discardPile [Some five] constructed) []
    = Return answer (set_discardPile [Some five] constructed) []
    ∧ isValidMove (Some five) (set_discardPile [Some nine] constructed) []
      = Return answer (set_discardPile [Some nine] constructed) [].
Proof.
  intros five nine.
  destruct (isValidMove_is_symmetric
              (set_discardPile [Some five] constructed)
              (set_discardPile [Some nine] constructed) [] five nine
              eq_refl eq_refl) as (answer & H1 & H2 & _).
  exists answer. split; [exact H1|exact H2].
Defined.

(** X24. [isValidMove] where a card is missing: with an empty discard
    pile, or [undefined] on top of it, it throws whatever the candidate;
    with a Joker or a Jack on top it accepts [undefined] as a candidate; with
    any other card on top it throws on [undefined].  It never changes the
    game. *)
Theorem isValidMove_without_a_card g tp card :
  (getTopCard g = None → isValidMove card g tp = Thrown g tp)
  ∧ (discardPile g = [] → getTopCard g = None)
  ∧ (∀ top, getTopCard g = Some top → opens top →
       isValidMove None g tp = Return true g tp)
  ∧ (∀ top, getTopCard g = Some top → ¬ opens top →
       isValidMove None g tp = Thrown g tp)
  ∧ final (isValidMove card g tp) = g.
Proof.
  split; [|split; [|split; [|split]]].
  - intros Htop. unfold isValidMove. by rewrite bind_get, Htop.
  - intros Hnil. unfold getTopCard. by rewrite Hnil.
  - intros top Htop Hopen. unfold isValidMove. rewrite bind_get, Htop.
    by rewrite decide_True.
  - intros top Htop Hno. by apply (isValidMove_undefined g tp top).
  - unfold isValidMove. rewrite bind_get.
    destruct (getTopCard g) as [top|]; [|done].
    case_decide; [done|]. destruct card as [c|]; [|done].
    by repeat case_decide.
Qed.

(** ** Starting a game on any deck *)

Lemma hands_cleared ps : hands (Player.set_hand [] <$> ps) = [].
Proof.
  induction ps as [|p ps IH]; [done|].
  rewrite fmap_cons. unfold hands in *. rewrite bind_cons, IH. reflexivity.
Qed.

(** X25. [init] on any game whose deck holds cards only, at least seven
    for every seat and one more: every seat ends with 7 cards and its [id]
    and [name], the discard pile with one card, the rest of the deck stays in
    the deck, and these cards together are the cards the deck held; the hands
    and the discard pile there were are dropped.  The starting seat is
    [Math.floor(Math.random() * 4)], and the direction, [gameOver] and the
    winner text are left as they were. *)
Theorem init_deals_from_the_deck g tp :
  Forall is_Some (deck g) →
  (7 * length (players g) + 1 ≤ length (deck g))%nat →
  ∃ g' tp' c,
    init g tp = Return tt g' tp'
    ∧ Forall2 (λ p q, length (Player.hand q) = 7%nat
                      ∧ Player.id q = Player.id p
                      ∧ Player.name q = Player.name p) (players g) (players g')
    ∧ discardPile g' = [Some c]
    ∧ length (deck g') = (length (deck g) - (7 * length (players g) + 1))%nat
    ∧ cards g' ≡ₚ defined (deck g)
    ∧ 0 ≤ currentPlayerIndex g' < 4
    ∧ direction g' = direction g
    ∧ gameOver g' = gameOver g
    ∧ winnerText g' = winnerText g.
Proof.
  intros Hall Hlen. rewrite init_run. cbv zeta.
  pose proof (shuffle_Permutation (deck g) tp) as Hshuffle.
  destruct (Deck.shuffle (deck g) tp) as [d0 tp1]. cbn [fst snd] in *.
  pose proof (Permutation_length Hshuffle) as Hlen0.
  rewrite <-Hshuffle in Hall. rewrite <-Hlen0 in Hlen.
  pose proof (random_floor_lt 4 tp1 ltac:(lia)) as Hstart.
  destruct (random_floor 4 tp1) as [r tp2]. cbn [fst snd] in *.
  destruct (dealRounds_spec 7 (Player.set_hand [] <$> players g) d0 Hall)
    as (ps & d1 & -> & Hlen1 & Hall1 & Hperm1 & Hrel).
  { rewrite length_fmap. lia. }
  rewrite length_fmap in Hlen1. cbn [fst snd].
  destruct (pop_cases d1) as [[-> _]|(d & x & -> & ->)]; [simpl in Hlen1; lia|].
  rewrite Forall_app, Forall_singleton in Hall1. destruct Hall1 as [Hall2 [c ->]].
  rewrite length_app in Hlen1. simpl in Hlen1.
  eexists _, _, c. split; [reflexivity|]. simpl.
  split; [|split; [done|split; [lia|split; [|split; [lia|done]]]]].
  - apply Forall2_fmap_l in Hrel. eapply Forall2_impl; [exact Hrel|].
    simpl. intros p q (H1 & H2 & H3). split; [lia|done].
  - assert (defined d0 ≡ₚ defined (deck g)) as Hdef
      by (unfold defined; by rewrite Hshuffle).
    unfold cards. simpl. rewrite <-Hdef.
    rewrite hands_cleared, app_nil_r, defined_app in Hperm1. simpl in Hperm1.
    rewrite <-Hperm1. by rewrite <-(assoc_L (++)).
Qed.

Lemma init_deals_from_the_deck_witness :
  ∃ g' tp' c,
    init constructed [] = Return tt g' tp'
    ∧ discardPile g' = [Some c] ∧ length (deck g') = 25%nat.
Proof.
  destruct (init_deals_from_the_deck constructed [])
    as (g' & tp' & c & Hrun & _ & Hdp & Hlen & _).
  - apply (bool_decide_unpack _). vm_compute. exact I.
  - vm_compute. lia.
  - exists g', tp', c. split; [exact Hrun|]. split; [exact Hdp|].
    rewrite Hlen. vm_compute. reflexivity.
Defined.

(** ** The answer of a play *)

Lemma recycleDeck_top g tp :
  ∃ g1 tp1, recycleDeck g tp = Return tt g1 tp1 ∧ getTopCard g1 = getTopCard g.
Proof.
  destruct (decide (length (discardPile g) ≤ 1)%nat) as [Hshort|Hlong].
  - exists g, tp. split; [by apply recycleDeck_short|done].
  - destruct (pop_cases (discardPile g)) as [[Hnil _]|(old & top & Hdp & _)].
    { rewrite Hnil in Hlong. simpl in Hlong. lia. }
    assert (old ≠ []) as Hold.
    { intros ->. rewrite Hdp in Hlong. simpl in Hlong. lia. }
    eexists _, _. split; [by apply (recycleDeck_long _ _ old top)|].
    unfold getTopCard. simpl. by rewrite Hdp, last_snoc.
Qed.

Lemma forceDraw_round_top v g tp :
  getTopCard
    (final
       (((if decide (Deck.count (deck g) = 0%nat) then recycleDeck else ret tt) ;;
         playerAt v ;; card ← deckDraw; modify (receiveAt v card)) g tp))
  = getTopCard g.
Proof.
  assert (∃ g1 tp1,
            (if decide (Deck.count (deck g) = 0%nat) then recycleDeck else ret tt) g tp
            = Return tt g1 tp1 ∧ getTopCard g1 = getTopCard g)
    as (g1 & tp1 & Hrestock & Htop).
  { case_decide; [apply recycleDeck_top|by exists g, tp]. }
  rewrite (bind_Return _ _ _ _ _ _ _ Hrestock). rewrite <-Htop.
  destruct (at_index (players g1) v) as [p|] eqn:Hp.
  - rewrite (bind_Return _ _ _ _ _ _ _ (playerAt_Some _ _ _ _ Hp)).
    by rewrite (bind_Return _ _ _ _ _ _ _ (deckDraw_run _ _)).
  - by rewrite (bind_Thrown _ _ _ _ _ _ (playerAt_None _ _ _ Hp)).
Qed.

Lemma forceDrawLoop_top n v g tp p :
  table_ok g → at_index (players g) v = Some p →
  getTopCard (final (forceDrawLoop v n g tp)) = getTopCard g.
Proof.
  revert g tp p. induction n as [|n IH]; intros g tp p Hok Hp; [done|].
  pose proof Hp as [Hv Hlook]%at_index_Some.
  pose proof (forceDraw_round_top v g tp) as Htop.
  destruct (forceDraw_round_returns v g tp p Hok Hp)
    as ([] & g2 & tp2 & Hround & Hkeeps2 & _ & card & Hps2 & _).
  rewrite Hround in Htop. simpl in Htop.
  assert (at_index (players g2) v = Some (Player.receiveCard card p)) as Hp2.
  { apply at_index_Some. split; [done|]. rewrite Hps2.
    apply list_lookup_insert_eq. by eapply lookup_lt_Some. }
  rewrite forceDrawLoop_S, (bind_Return _ _ _ _ _ _ _ Hround).
  by rewrite (IH g2 tp2 _ (proj1 Hkeeps2) Hp2).
Qed.

Lemma applyEffect_top playerIndex v g tp :
  table_ok g →
  returns (applyEffect playerIndex v) g tp
    (λ _ g', keeps g g' ∧ getTopCard g' = getTopCard g).
Proof.
  intros Hok.
  destruct (applyEffect_keeps playerIndex v g tp Hok) as (early & g' & tp' & Hrun & Hkeeps).
  exists early, g', tp'. split; [done|]. split; [done|].
  assert (∀ amount,
            getTopCard (final ((advancePointer ;; forceDraw amount ;; ret false) g tp))
            = getTopCard g) as Hforced.
  { intros amount.
    destruct (advancePointer_keeps g tp Hok) as ([] & g1 & tp1 & Hrun1 & (Hok1 & _) & _).
    assert (getTopCard g1 = getTopCard g) as <-.
    { unfold advancePointer, modify in Hrun1. by inversion Hrun1. }
    destruct (table_ok_current g1 Hok1) as [p Hp].
    pose proof (forceDrawLoop_top amount _ g1 tp1 p Hok1 Hp) as Htop.
    rewrite (bind_Return _ _ _ _ _ _ _ Hrun1).
    unfold forceDraw. rewrite bind_assoc, bind_get.
    destruct (forceDrawLoop (currentPlayerIndex g1) amount g1 tp1)
      as [[] g2 tp2|g2 tp2] eqn:Hloop.
    - by rewrite (bind_Return _ _ _ _ _ _ _ Hloop).
    - by rewrite (bind_Thrown _ _ _ _ _ _ Hloop). }
  assert (getTopCard (final (applyEffect playerIndex v g tp)) = getTopCard g) as Htop.
  { destruct v; try reflexivity; try apply Hforced.
    - cbn [applyEffect].
      destruct (handlePassCardRule_returns g tp Hok)
        as ([] & g1 & tp1 & Hrun1 & _ & _ & _ & Hdp).
      rewrite (bind_Return _ _ _ _ _ _ _ Hrun1). simpl.
      unfold getTopCard. by rewrite Hdp.
    - cbn [applyEffect]. by case_decide. }
  by rewrite Hrun in Htop.
Qed.

(** X26. What a play answers, for any seat and any card of its hand in a
    reachable game: [undefined] exactly when the game is over, [false]
    exactly when it is not over and [isValidMove] rejects the card, [true]
    exactly when it is not over and the card is accepted.  Unless the answer
    is [true] nothing changes; when it is [true] the card played is the top
    card of the discard pile afterwards, also when the play forced a
    recycling. *)
Theorem handleCardPlay_answers g tp playerIndex cardIndex player c top :
  reachable g →
  at_index (players g) playerIndex = Some player →
  at_index (Player.hand player) cardIndex = Some c →
  getTopCard g = Some top →
  ∃ answer g' tp',
    handleCardPlay playerIndex cardIndex g tp = Return answer g' tp'
    ∧ (answer = None ↔ gameOver g = true)
    ∧ (answer = Some false ↔ gameOver g = false ∧ ¬ matches top c)
    ∧ (answer = Some true ↔ gameOver g = false ∧ matches top c)
    ∧ (answer ≠ Some true → g' = g ∧ tp' = tp)
    ∧ (answer = Some true → getTopCard g' = Some c).
Proof.
  intros Hg Hplayer Hcard Htop. destruct (reachable_ok g Hg) as [Hok Hlive].
  pose proof Hcard as [Hidx Hc]%at_index_hand.
  destruct (gameOver g) eqn:Hover.
  { exists None, g, tp. split; [by apply handleCardPlay_over|].
    repeat split; try done; intros []; done. }
  destruct (decide (matches top c)) as [Hmatch|Hmatch].
  2:{ exists (Some false), g, tp.
      split; [by apply (handleCardPlay_rejected _ _ _ _ player top c)|].
      repeat split; try done; try tauto; intros []; done. }
  pose proof (isValidMove_defined g tp top c Htop) as Hvalid.
  rewrite bool_decide_eq_true_2 in Hvalid by done.
  rewrite (handleCardPlay_accepted _ _ _ _ _ _ Hover Hplayer Hcard Hvalid).
  cbv zeta. set (g1 := played _ _ _ _ _).
  pose proof (table_ok_played g playerIndex _ player c Hok Hplayer Hc) as Hok1.
  fold g1 in Hok1.
  assert (getTopCard g1 = Some c) as Htop1.
  { subst g1. unfold getTopCard, played. simpl. by rewrite last_snoc. }
  assert (∃ g' tp',
            (if decide (delete (Z.to_nat cardIndex) (Player.hand player) = [])
             then Return (Some true) (won (Player.set_hand [] player) g1) tp
             else (early ← applyEffect playerIndex (Card.value c);
                   if early : bool then ret (Some true)
                   else nextTurn ;; ret (Some true)) g1 tp)
            = Return (Some true) g' tp' ∧ getTopCard g' = Some c)
    as (g' & tp' & -> & Htop').
  { case_decide.
    - by eexists _, _.
    - destruct (applyEffect_top playerIndex (Card.value c) g1 tp Hok1)
        as (early & g2 & tp2 & Hrun2 & (Hok2 & _) & Htop2).
      rewrite (bind_Return _ _ _ _ _ _ _ Hrun2). destruct early.
      + exists g2, tp2. split; [done|congruence].
      + destruct (nextTurn_ok g2 tp2 Hok2)
          as ([] & g3 & tp3 & Hrun3 & _ & _ & _ & Hdp3 & _).
        rewrite (bind_Return _ _ _ _ _ _ _ Hrun3).
        exists g3, tp3. split; [done|]. unfold getTopCard in *. by rewrite Hdp3, Htop2. }
  exists (Some true), g', tp'. split; [done|].
  repeat split; try done; tauto.
Qed.

Lemma handleCardPlay_answers_witness :
  ∃ answer g' tp',
    handleCardPlay 0 0 (seat0_game_before 0) [] = Return answer g' tp'
    ∧ (answer = Some true → getTopCard g' = Some (Card.make Card.Hart Card.V2)).
Proof.
  destruct (at_index (players (seat0_game_before 0)) 0) as [p|] eqn:Hp;
    [|by vm_compute in Hp].
  assert (Some p = at_index (players (seat0_game_before 0)) 0) as Hcopy by done.
  vm_compute in Hcopy. injection Hcopy as Hhand.
  destruct (handleCardPlay_answers (seat0_game_before 0) [] 0 0 p
              (Card.make Card.Hart Card.V2) (Card.make Card.Ruit Card.V2))
    as (answer & g' & tp' & Hrun & _ & _ & _ & _ & Htop).
  - apply reachable_new.
  - exact Hp.
  - by rewrite Hhand.
  - vm_compute. reflexivity.
  - exists answer, g', tp'. split; [exact Hrun|exact Htop].
Defined.
